(** * A shallow embedding of the 2D particle fluid demos

    The repository holds three variants of one simulation:
    - [Combined] : [fluid_simulation/combined.py], SPH with a uniform grid;
    - [R1]       : [fluid_simulation/main-R1.py], brute-force SPH with
                   surface tension and pairwise collisions;
    - [O1]       : [fluid_simulation/main-o1.py], a ball-collision model.

    Modelling conventions.
    - A Python/numpy float is a real number ([R]); a decimal literal is the
      rational it denotes.  Rounding, overflow, infinities and NaN are not
      modelled.
    - Every [/] of the source is [checked_div]: a zero divisor is a failure
      ([None]), as Python's ZeroDivisionError (numpy yields inf or nan there,
      which have no real counterpart).  A list index out of range is a
      failure too (IndexError).  All functions that divide or index live in
      the [option] monad.
    - A [for] loop that mutates the particles in place is a monadic fold
      ([foldM]) over the indices, threading the list of particles; an
      assignment to [particles[i]] is a list insert at [i].
    - A dict is a [gmap]; [int(x)] on a float is truncation toward zero. *)

From Stdlib Require Import Reals Lra Lia ZArith Psatz.
From stdpp Require Import base option list gmap.

Open Scope R_scope.

(** ** Python arithmetic *)

#[global] Instance R_eq_dec : EqDecision R := Req_dec_T.

(** [a / b] of the source. *)
Definition checked_div (a b : R) : option R :=
  if decide (b = 0) then None else Some (a / b).

Notation "a /? b" := (checked_div a b) (at level 40, left associativity) : R_scope.

(** [int(x)] for a float [x]: truncation toward zero. *)
Definition py_int (x : R) : Z :=
  if Rlt_dec x 0 then (- Int_part (- x))%Z else Int_part x.

(** [math.hypot(dx, dy)], and [np.linalg.norm] of a 2-vector. *)
Definition hypot (dx dy : R) : R := sqrt (dx * dx + dy * dy).

(** A [for] loop whose body may fail, threading the loop state. *)
Fixpoint foldM {A B : Type} (f : B → A → option B) (b : B) (l : list A) : option B :=
  match l with
  | [] => Some b
  | a :: l' => b' ← f b a; foldM f b' l'
  end.

(** ** numpy arrays of two floats *)

Record vec2 : Type := V2 { c0 : R; c1 : R }.

Definition vzero : vec2 := V2 0 0.
Definition vadd (a b : vec2) : vec2 := V2 (c0 a + c0 b) (c1 a + c1 b).
Definition vsub (a b : vec2) : vec2 := V2 (c0 a - c0 b) (c1 a - c1 b).
Definition vneg (a : vec2) : vec2 := V2 (- c0 a) (- c1 a).
Definition vscale (a : vec2) (s : R) : vec2 := V2 (c0 a * s) (c1 a * s).
Definition scalev (s : R) (a : vec2) : vec2 := V2 (s * c0 a) (s * c1 a).
Definition vdiv (a : vec2) (s : R) : option vec2 :=
  x ← c0 a /? s; y ← c1 a /? s; Some (V2 x y).
Definition norm (a : vec2) : R := hypot (c0 a) (c1 a).

(** ** [combined.py]: SPH on a uniform grid *)

Module Combined.

Definition PARTICLE_RADIUS : R := 8.
Definition GRAVITY : vec2 := V2 0 980.0.
Definition DAMPING : R := 0.95.
Definition SMOOTHING_RADIUS : R := 30.
Definition PRESSURE_STIFFNESS : R := 0.08.
Definition VISCOSITY : R := 0.02.
Definition REST_DENSITY : R := 300.0.
Definition TIME_STEP : R := 0.016.

(** *** Smoothing kernels *)

(** [315 / (64 * np.pi * h**9) * (h**2 - r**2)**3 if r < h else 0.0] *)
Definition poly6_kernel (r h : R) : option R :=
  if Rlt_dec r h
  then c ← 315 /? (64 * PI * h ^ 9); Some (c * (h ^ 2 - r ^ 2) ^ 3)
  else Some 0.

(** [-45 / (np.pi * h**6) * (h - r)**2 if r < h else 0.0] *)
Definition spiky_gradient (r h : R) : option R :=
  if Rlt_dec r h
  then c ← (-45) /? (PI * h ^ 6); Some (c * (h - r) ^ 2)
  else Some 0.

(** [45 / (np.pi * h**6) * (h - r) if r < h else 0.0] *)
Definition viscosity_laplacian (r h : R) : option R :=
  if Rlt_dec r h
  then c ← 45 /? (PI * h ^ 6); Some (c * (h - r))
  else Some 0.

Record Particle : Type := mkParticle {
  pos : vec2;
  vel : vec2;
  acc : vec2;
  density : R;
  pressure : R
}.

(** [Particle(pos)] *)
Definition Particle_init (p : vec2) : Particle :=
  mkParticle p vzero vzero REST_DENSITY 0.0.

Definition set_pos (p : Particle) (x : vec2) : Particle :=
  mkParticle x (vel p) (acc p) (density p) (pressure p).
Definition set_acc (p : Particle) (a : vec2) : Particle :=
  mkParticle (pos p) (vel p) a (density p) (pressure p).
Definition set_density_pressure (p : Particle) (d pr : R) : Particle :=
  mkParticle (pos p) (vel p) (acc p) d pr.

(** *** [SpatialGrid] *)

Record SpatialGrid : Type := mkGrid {
  cell_size : R;
  grid : gmap (Z * Z) (list nat)
}.

(** [(int(pos[0]/self.cell_size), int(pos[1]/self.cell_size))] *)
Definition cell_of (cs : R) (p : vec2) : option (Z * Z) :=
  a ← c0 p /? cs; b ← c1 p /? cs; Some (py_int a, py_int b).

(** [if cell not in self.grid: self.grid[cell] = []] then
    [self.grid[cell].append(i)] *)
Definition grid_append (g : gmap (Z * Z) (list nat)) (cell : Z * Z) (i : nat)
  : gmap (Z * Z) (list nat) :=
  <[cell := default [] (g !! cell) ++ [i]]> g.

(** The loop of [SpatialGrid.update] over [enumerate(particles)], from
    index [i] on. *)
Fixpoint update_from (cs : R) (i : nat) (ps : list Particle)
    (g : gmap (Z * Z) (list nat)) : option (gmap (Z * Z) (list nat)) :=
  match ps with
  | [] => Some g
  | p :: ps' =>
      cell ← cell_of cs (pos p);
      update_from cs (S i) ps' (grid_append g cell i)
  end.

Definition update (sg : SpatialGrid) (ps : list Particle) : option SpatialGrid :=
  g ← update_from (cell_size sg) 0 ps ∅;
  Some (mkGrid (cell_size sg) g).

(** The offsets [(-1, 0, 1)] of both loops of [get_neighbors]. *)
Definition offsets : list Z := [-1; 0; 1]%Z.

Definition get_neighbors (sg : SpatialGrid) (p : vec2) : option (list nat) :=
  cell ← cell_of (cell_size sg) p;
  Some (foldl (λ neighbors dx,
          foldl (λ neighbors dy,
            match grid sg !! ((cell.1 + dx)%Z, (cell.2 + dy)%Z) with
            | Some l => neighbors ++ l
            | None => neighbors
            end) neighbors offsets) [] offsets).

(** *** [Particle.update] *)

Definition Particle_update (p : Particle) (dt : R) : Particle :=
  let v := vadd (vel p) (vscale (acc p) dt) in
  mkParticle (vadd (pos p) (vscale v dt)) v vzero (density p) (pressure p).

(** *** [FluidSimulation] *)

Record FluidSimulation : Type := mkSim {
  width : R;
  height : R;
  particles : list Particle;
  sgrid : SpatialGrid
}.

Definition set_particles (s : FluidSimulation) (ps : list Particle) : FluidSimulation :=
  mkSim (width s) (height s) ps (sgrid s).

(** One axis of [handle_boundaries]: the position and velocity component
    after the [if]/[elif] on that axis. *)
Definition bounce (x v dim : R) : R * R :=
  if Rlt_dec x PARTICLE_RADIUS then (PARTICLE_RADIUS, v * - DAMPING)
  else if Rgt_dec x (dim - PARTICLE_RADIUS) then (dim - PARTICLE_RADIUS, v * - DAMPING)
  else (x, v).

Definition handle_boundaries1 (w h : R) (p : Particle) : Particle :=
  let '(x, vx) := bounce (c0 (pos p)) (c0 (vel p)) w in
  let '(y, vy) := bounce (c1 (pos p)) (c1 (vel p)) h in
  mkParticle (V2 x y) (V2 vx vy) (acc p) (density p) (pressure p).

Definition handle_boundaries (s : FluidSimulation) : FluidSimulation :=
  set_particles s (map (handle_boundaries1 (width s) (height s)) (particles s)).

(** The body of the first loop of [update_physics], for the particle at
    index [i]. *)
Definition density_body (sg : SpatialGrid) (ps : list Particle) (i : nat)
  : option (list Particle) :=
  p ← ps !! i;
  neighbor_ids ← get_neighbors sg (pos p);
  neighbors ← mapM (λ j, ps !! j) neighbor_ids;
  d ← foldM (λ d neighbor,
         w ← poly6_kernel (norm (vsub (pos p) (pos neighbor))) SMOOTHING_RADIUS;
         Some (d + w)) 0.0 neighbors;
  Some (<[i := set_density_pressure p d (PRESSURE_STIFFNESS * (d - REST_DENSITY))]> ps).

(** One neighbour of the second loop of [update_physics]; [j = i] is the
    identity test [p == neighbor] (the class defines no [__eq__]). *)
Definition force_neighbor (i : nat) (p : Particle) (forces : vec2 * vec2)
    (jn : nat * Particle) : option (vec2 * vec2) :=
  let '(pressure_force, viscosity_force) := forces in
  let '(j, neighbor) := jn in
  if decide (j = i) then Some forces
  else
    let r_vec := vsub (pos neighbor) (pos p) in
    let r := norm r_vec in
    if decide (r = 0) then Some forces
    else
      u ← vdiv (vneg r_vec) r;
      f ← vdiv (vscale u (pressure p + pressure neighbor)) (2 * density neighbor);
      sg ← spiky_gradient r SMOOTHING_RADIUS;
      m ← vdiv (scalev VISCOSITY (vsub (vel neighbor) (vel p))) (density neighbor);
      vl ← viscosity_laplacian r SMOOTHING_RADIUS;
      Some (vadd pressure_force (vscale f sg), vadd viscosity_force (vscale m vl)).

Definition force_body (sg : SpatialGrid) (ps : list Particle) (i : nat)
  : option (list Particle) :=
  p ← ps !! i;
  neighbor_ids ← get_neighbors sg (pos p);
  neighbors ← mapM (λ j, n ← ps !! j; Some (j, n)) neighbor_ids;
  forces ← foldM (force_neighbor i p) (vzero, vzero) neighbors;
  let gravity_force := vscale GRAVITY (density p) in
  let friction_force := vscale (scalev (-0.1) (vel p)) (density p) in
  let total_force := vadd (vadd (vadd forces.1 forces.2) gravity_force) friction_force in
  a ← vdiv total_force (density p);
  Some (<[i := set_acc p a]> ps).

(** The two passes of [update_physics], each a loop over the particles. *)
Definition density_pass (sg : SpatialGrid) (ps : list Particle) : option (list Particle) :=
  foldM (density_body sg) ps (seq 0 (length ps)).

Definition force_pass (sg : SpatialGrid) (ps : list Particle) : option (list Particle) :=
  foldM (force_body sg) ps (seq 0 (length ps)).

Definition update_physics (s : FluidSimulation) : option FluidSimulation :=
  sg ← update (sgrid s) (particles s);
  ps1 ← density_pass sg (particles s);
  ps2 ← force_pass sg ps1;
  Some (mkSim (width s) (height s) ps2 sg).

(** [on_resize(new_size)] *)
Definition on_resize (s : FluidSimulation) (new_size : R * R) : FluidSimulation :=
  let '(w, h) := new_size in
  mkSim w h
    (map (λ p, set_pos p (V2 (Rmin (Rmax (c0 (pos p)) PARTICLE_RADIUS) (w - PARTICLE_RADIUS))
                             (Rmin (Rmax (c1 (pos p)) PARTICLE_RADIUS) (h - PARTICLE_RADIUS))))
         (particles s))
    (sgrid s).

(** The physics of one iteration of the main loop, for a time step [dt]. *)
Definition step (s : FluidSimulation) (dt : R) : option FluidSimulation :=
  s1 ← update_physics s;
  let s2 := set_particles s1 (map (λ p, Particle_update p dt) (particles s1)) in
  Some (handle_boundaries s2).

Definition frame (s : FluidSimulation) : option FluidSimulation := step s TIME_STEP.

End Combined.

(** [enumerate(l, k)]: the elements of [l] paired with their indices,
    counted from [k]. *)
Definition enumerate_from {A : Type} (k : nat) (l : list A) : list (nat * A) :=
  zip (seq k (length l)) l.

(** ** [main-R1.py]: brute-force SPH with surface tension *)

Module R1.

Definition PARTICLE_RADIUS : R := 8.
Definition GRAVITY : R := 750.0.
Definition DAMPING : R := 0.95.
Definition BOUNDARY_DAMPING : R := 0.8.
Definition SMOOTHING_RADIUS : R := 30.0.
Definition REST_DENSITY : R := 1000.0.
Definition PRESSURE_STIFFNESS : R := 50.0.
Definition VISCOSITY_STRENGTH : R := 1.0.
Definition SURFACE_TENSION : R := 0.05.
Definition EPSILON : R := 1e-8.

Record Particle : Type := mkParticle {
  x : R; y : R;
  vx : R; vy : R;
  ax : R; ay : R;
  radius : R;
  mass : R;
  density : R;
  pressure : R
}.

(** [Particle(x, y)] *)
Definition Particle_init (x0 y0 : R) : Particle :=
  mkParticle x0 y0 0.0 0.0 0.0 0.0 PARTICLE_RADIUS 1.0 REST_DENSITY 0.0.

Definition set_xy (p : Particle) (x' y' : R) : Particle :=
  mkParticle x' y' (vx p) (vy p) (ax p) (ay p) (radius p) (mass p) (density p) (pressure p).
Definition set_v (p : Particle) (vx' vy' : R) : Particle :=
  mkParticle (x p) (y p) vx' vy' (ax p) (ay p) (radius p) (mass p) (density p) (pressure p).
Definition set_a (p : Particle) (ax' ay' : R) : Particle :=
  mkParticle (x p) (y p) (vx p) (vy p) ax' ay' (radius p) (mass p) (density p) (pressure p).
Definition set_density_pressure (p : Particle) (d pr : R) : Particle :=
  mkParticle (x p) (y p) (vx p) (vy p) (ax p) (ay p) (radius p) (mass p) d pr.

(** [Particle.apply_force(fx, fy)] *)
Definition apply_force (p : Particle) (fx fy : R) : option Particle :=
  dax ← fx /? mass p;
  day ← fy /? mass p;
  Some (set_a p (ax p + dax) (ay p + day)).

(** Smoothing kernels. *)
Definition sph_kernel (r h : R) : option R :=
  if Rlt_dec r h
  then c ← 315 /? (64 * PI * h ^ 9); Some (c * (h ^ 2 - r ^ 2) ^ 3)
  else Some 0.

Definition sph_kernel_derivative (r h : R) : option R :=
  if Rlt_dec r h
  then c ← (-45) /? (PI * h ^ 6); Some (c * (h - r) ^ 2)
  else Some 0.

(** The early [return 0.0] for [r < EPSILON], then the conditional
    expression guarded by [r < h]. *)
Definition sph_viscosity_kernel (r h : R) : option R :=
  if Rlt_dec r EPSILON then Some 0
  else if Rlt_dec r h
  then c ← 15 /? (2 * PI * h ^ 3);
       t1 ← (- r ^ 3) /? (2 * h ^ 3);
       t2 ← (r ^ 2) /? (h ^ 2);
       t3 ← h /? (2 * (r + EPSILON));
       Some (c * (t1 + t2 + t3 - 1))
  else Some 0.

(** The body of the inner loop of [find_neighbors]. *)
Definition find_inner (h : R) (i : nat) (p1 : Particle)
    (neighbors : list (list (nat * R))) (jp : nat * Particle) : list (list (nat * R)) :=
  let '(j, p2) := jp in
  let dx := x p2 - x p1 in
  let dy := y p2 - y p1 in
  let r := hypot dx dy in
  if Rlt_dec r h
  then alter (λ l, l ++ [(i, r)]) j (alter (λ l, l ++ [(j, r)]) i neighbors)
  else neighbors.

Definition find_neighbors (ps : list Particle) (h : R) : list (list (nat * R)) :=
  foldl (λ neighbors ip,
           foldl (find_inner h ip.1 ip.2) neighbors
                 (enumerate_from (S ip.1) (drop (S ip.1) ps)))
        (replicate (length ps) []) (enumerate_from 0 ps).

(** The body of the loop of [compute_density_pressure], for index [i]. *)
Definition density_body (neighbors : list (list (nat * R))) (h : R)
    (ps : list Particle) (i : nat) : option (list Particle) :=
  p ← ps !! i;
  ni ← neighbors !! i;
  d ← foldM (λ d jr, pj ← ps !! jr.1; k ← sph_kernel jr.2 h; Some (d + mass pj * k)) 0.0 ni;
  let dens := Rmax d (REST_DENSITY * 0.1) in
  Some (<[i := set_density_pressure p dens (PRESSURE_STIFFNESS * (dens - REST_DENSITY))]> ps).

Definition compute_density_pressure (ps : list Particle)
    (neighbors : list (list (nat * R))) (h : R) : option (list Particle) :=
  foldM (density_body neighbors h) ps (seq 0 (length ps)).

(** The six accumulators of [compute_forces]. *)
Record Forces : Type := mkForces {
  pressure_force_x : R; pressure_force_y : R;
  viscosity_force_x : R; viscosity_force_y : R;
  tension_force_x : R; tension_force_y : R
}.

(** One neighbour [(j, r)] of the inner loop of [compute_forces]. *)
Definition force_neighbor (h : R) (ps : list Particle) (p : Particle)
    (f : Forces) (jr : nat * R) : option Forces :=
  let '(j, r) := jr in
  pj ← ps !! j;
  let dx := x pj - x p in
  let dy := y pj - y p in
  let distance := Rmax r EPSILON in
  dir_x ← dx /? distance;
  dir_y ← dy /? distance;
  shared_pressure ← (pressure p + pressure pj) /? 2;
  kd ← sph_kernel_derivative r h;
  let pressure_force := - shared_pressure * kd in
  let vel_diff_x := vx pj - vx p in
  let vel_diff_y := vy pj - vy p in
  vk ← sph_viscosity_kernel r h;
  let viscosity := VISCOSITY_STRENGTH * vk in
  k ← sph_kernel r h;
  let cohesion := k * SURFACE_TENSION in
  Some (mkForces (pressure_force_x f + pressure_force * dir_x)
                 (pressure_force_y f + pressure_force * dir_y)
                 (viscosity_force_x f + viscosity * vel_diff_x)
                 (viscosity_force_y f + viscosity * vel_diff_y)
                 (tension_force_x f + cohesion * dir_x)
                 (tension_force_y f + cohesion * dir_y)).

Definition force_body (neighbors : list (list (nat * R))) (h : R)
    (ps : list Particle) (i : nat) : option (list Particle) :=
  p ← ps !! i;
  ni ← neighbors !! i;
  f ← foldM (force_neighbor h ps p) (mkForces 0.0 0.0 0.0 0.0 0.0 0.0) ni;
  p1 ← apply_force p (pressure_force_x f) (pressure_force_y f);
  p2 ← apply_force p1 (viscosity_force_x f) (viscosity_force_y f);
  p3 ← apply_force p2 (tension_force_x f) (tension_force_y f);
  Some (<[i := p3]> ps).

Definition compute_forces (ps : list Particle)
    (neighbors : list (list (nat * R))) (h : R) : option (list Particle) :=
  foldM (force_body neighbors h) ps (seq 0 (length ps)).

(** The body of the inner loop of [handle_collisions], for the pair
    [(i, j)]. *)
Definition collide (ps : list Particle) (i j : nat) : option (list Particle) :=
  p1 ← ps !! i;
  p2 ← ps !! j;
  let dx := x p2 - x p1 in
  let dy := y p2 - y p1 in
  let distance := hypot dx dy in
  let min_dist := radius p1 + radius p2 in
  if Rlt_dec distance min_dist then if Rgt_dec distance EPSILON then
    nx ← dx /? distance;
    ny ← dy /? distance;
    overlap ← (min_dist - distance) /? 2;
    let dvx := vx p2 - vx p1 in
    let dvy := vy p2 - vy p1 in
    impulse ← (2.0 * (dvx * nx + dvy * ny)) /? (mass p1 + mass p2);
    let p1' := set_v (set_xy p1 (x p1 - overlap * nx) (y p1 - overlap * ny))
                     (vx p1 + impulse * mass p2 * nx) (vy p1 + impulse * mass p2 * ny) in
    let p2' := set_v (set_xy p2 (x p2 + overlap * nx) (y p2 + overlap * ny))
                     (vx p2 - impulse * mass p1 * nx) (vy p2 - impulse * mass p1 * ny) in
    Some (<[j := p2']> (<[i := p1']> ps))
  else Some ps else Some ps.

Definition handle_collisions (ps : list Particle) : option (list Particle) :=
  foldM (λ ps i, foldM (λ ps j, collide ps i j) ps (seq (S i) (length ps - S i)))
        ps (seq 0 (length ps)).

(** The simulation state of [main]: the window size and the particles. *)
Record Sim : Type := mkSim {
  width : R;
  height : R;
  particles : list Particle
}.

(** The [VIDEORESIZE] branch of the event loop. *)
Definition on_resize (s : Sim) (new_width new_height : R) : Sim :=
  mkSim new_width new_height
    (map (λ p, set_xy p (Rmax PARTICLE_RADIUS (Rmin (x p) (new_width - PARTICLE_RADIUS)))
                        (Rmax PARTICLE_RADIUS (Rmin (y p) (new_height - PARTICLE_RADIUS))))
         (particles s)).

(** One axis of the boundary constraints. *)
Definition bounce (rad x v dim : R) : R * R :=
  if Rlt_dec x rad then (rad, v * - BOUNDARY_DAMPING)
  else if Rgt_dec x (dim - rad) then (dim - rad, v * - BOUNDARY_DAMPING)
  else (x, v).

(** The body of the "Update particles" loop: integration, then the
    boundary constraints. *)
Definition integrate (w h dt : R) (p : Particle) : Particle :=
  let vx1 := vx p + ax p * dt in
  let vy1 := vy p + ay p * dt in
  let x1 := x p + vx1 * dt in
  let y1 := y p + vy1 * dt in
  let '(x2, vx2) := bounce (radius p) x1 vx1 w in
  let '(y2, vy2) := bounce (radius p) y1 vy1 h in
  mkParticle x2 y2 vx2 vy2 0 0 (radius p) (mass p) (density p) (pressure p).

(** The "Apply global damping" loop. *)
Definition damp (p : Particle) : Particle :=
  set_v p (vx p * DAMPING) (vy p * DAMPING).

(** The state after each stage of one iteration of the main loop, up to
    and including [handle_collisions]. *)
Definition step_collided (s : Sim) (dt : R) : option (list Particle) :=
  let neighbors := find_neighbors (particles s) SMOOTHING_RADIUS in
  ps1 ← compute_density_pressure (particles s) neighbors SMOOTHING_RADIUS;
  ps2 ← compute_forces ps1 neighbors SMOOTHING_RADIUS;
  ps3 ← mapM (λ p, apply_force p 0 (GRAVITY * mass p)) ps2;
  let ps4 := map (integrate (width s) (height s) dt) ps3 in
  handle_collisions ps4.

(** One iteration of the main loop, after the events: the simulation
    steps for the measured time step [dt]. *)
Definition step (s : Sim) (dt : R) : option Sim :=
  ps5 ← step_collided s dt;
  Some (mkSim (width s) (height s) (map damp ps5)).

End R1.

(** ** [main-o1.py]: balls under gravity with elastic collisions *)

Module O1.

Definition BALL_RADIUS : R := 8.
Definition GRAVITY : R := 0.2.
Definition FRICTION : R := 0.99.
Definition ELASTICITY : R := 0.9.

Record Ball : Type := mkBall { x : R; y : R; vx : R; vy : R }.

(** [Ball.update] *)
Definition Ball_update (b : Ball) : Ball :=
  let vy1 := vy b + GRAVITY in
  let x1 := x b + vx b in
  let y1 := y b + vy1 in
  mkBall x1 y1 (vx b * FRICTION) (vy1 * FRICTION).

(** The body of the inner loop of [handle_ball_collisions], for the pair
    [(i, j)]. *)
Definition collide (balls : list Ball) (i j : nat) : option (list Ball) :=
  bi ← balls !! i;
  bj ← balls !! j;
  let dx := x bj - x bi in
  let dy := y bj - y bi in
  let dist_sq := dx * dx + dy * dy in
  if Rlt_dec dist_sq ((2 * BALL_RADIUS) ^ 2) then
    let dist := if decide (dist_sq = 0) then 0.0001 else sqrt dist_sq in
    nx ← dx /? dist;
    ny ← dy /? dist;
    let overlap := (2 * BALL_RADIUS - dist) * 0.5 in
    let xi := x bi - nx * overlap in
    let yi := y bi - ny * overlap in
    let xj := x bj + nx * overlap in
    let yj := y bj + ny * overlap in
    let rel_vx := vx bj - vx bi in
    let rel_vy := vy bj - vy bi in
    let sep_speed := rel_vx * nx + rel_vy * ny in
    if Rlt_dec sep_speed 0 then
      imp ← (- (1 + ELASTICITY) * sep_speed) /? 2;
      let ix := imp * nx in
      let iy := imp * ny in
      Some (<[j := mkBall xj yj (vx bj + ix) (vy bj + iy)]>
              (<[i := mkBall xi yi (vx bi - ix) (vy bi - iy)]> balls))
    else
      Some (<[j := mkBall xj yj (vx bj) (vy bj)]>
              (<[i := mkBall xi yi (vx bi) (vy bi)]> balls))
  else Some balls.

Definition handle_ball_collisions (balls : list Ball) : option (list Ball) :=
  foldM (λ bs i, foldM (λ bs j, collide bs i j) bs (seq (S i) (length bs - S i)))
        balls (seq 0 (length balls)).

(** One axis of [handle_wall_collisions]. *)
Definition bounce (x v dim : R) : R * R :=
  if Rlt_dec x BALL_RADIUS then (BALL_RADIUS, - v * ELASTICITY)
  else if Rgt_dec x (dim - BALL_RADIUS) then (dim - BALL_RADIUS, - v * ELASTICITY)
  else (x, v).

Definition handle_wall_collisions (balls : list Ball) (w h : R) : list Ball :=
  map (λ b, let '(x', vx') := bounce (x b) (vx b) w in
            let '(y', vy') := bounce (y b) (vy b) h in
            mkBall x' y' vx' vy') balls.

(** The simulation state of [main]. *)
Record Sim : Type := mkSim {
  current_width : R;
  current_height : R;
  balls : list Ball
}.

(** The [VIDEORESIZE] branch of the event loop: a window below the
    minimum is ignored ([continue]), otherwise the positions are rescaled. *)
Definition on_resize (s : Sim) (new_width new_height : R) : option Sim :=
  if Rlt_dec new_width (2 * BALL_RADIUS) then Some s
  else if Rlt_dec new_height (2 * BALL_RADIUS) then Some s
  else
    scale_x ← new_width /? current_width s;
    scale_y ← new_height /? current_height s;
    Some (mkSim new_width new_height
            (map (λ b, mkBall (x b * scale_x) (y b * scale_y) (vx b) (vy b)) (balls s))).

(** One iteration of the main loop, after the events. *)
Definition step (s : Sim) : option Sim :=
  let bs1 := map Ball_update (balls s) in
  bs2 ← handle_ball_collisions bs1;
  Some (mkSim (current_width s) (current_height s)
          (handle_wall_collisions bs2 (current_width s) (current_height s))).

End O1.

(** * Facts on the embedding *)

(** ** Facts on the arithmetic *)

Lemma checked_div_Some (a b : R) : b ≠ 0 → a /? b = Some (a / b).
Proof. intros Hb. unfold checked_div. destruct (decide (b = 0)); [lra | done]. Qed.

Lemma poly6_scale_nonzero (h : R) : 0 < h → 64 * PI * h ^ 9 ≠ 0.
Proof.
  intros Hh. assert (0 < PI) by apply PI_RGT_0. assert (0 < h ^ 9) by (apply pow_lt; lra).
  nra.
Qed.

(** *** Truncation *)

(** [int] never moves a float away from zero, and stays within one. *)
Lemma py_int_bounds (a : R) :
  (0 <= a → IZR (py_int a) <= a < IZR (py_int a) + 1) ∧
  (a < 0 → IZR (py_int a) - 1 < a <= IZR (py_int a)).
Proof.
  unfold py_int. destruct (Rlt_dec a 0) as [Hn|Hp]; split; intros H; try lra.
  - destruct (base_Int_part (- a)) as [H1 H2]. rewrite opp_IZR. lra.
  - destruct (base_Int_part a) as [H1 H2]. lra.
Qed.

Lemma py_int_mono (a b : R) : a <= b → (py_int a <= py_int b)%Z.
Proof.
  intros Hab.
  destruct (py_int_bounds a) as [Ha1 Ha2]. destruct (py_int_bounds b) as [Hb1 Hb2].
  destruct (Rlt_dec a 0) as [Han|Hap]; destruct (Rlt_dec b 0) as [Hbn|Hbp].
  - specialize (Ha2 Han). specialize (Hb2 Hbn).
    assert (Hlt : IZR (py_int a - 1) < IZR (py_int b)) by (rewrite minus_IZR; lra).
    apply lt_IZR in Hlt. lia.
  - specialize (Ha2 Han). assert (Hb : 0 <= b) by lra. specialize (Hb1 Hb).
    assert (Hlt1 : IZR (py_int a - 1) < IZR 0) by (rewrite minus_IZR; lra).
    assert (Hlt2 : IZR (-1) < IZR (py_int b)) by lra.
    apply lt_IZR in Hlt1, Hlt2. lia.
  - lra.
  - assert (Ha : 0 <= a) by lra. assert (Hb : 0 <= b) by lra.
    specialize (Ha1 Ha). specialize (Hb1 Hb).
    assert (Hlt : IZR (py_int a) < IZR (py_int b + 1)) by (rewrite plus_IZR; lra).
    apply lt_IZR in Hlt. lia.
Qed.

(** Floats less than one apart fall in the same or in adjacent cells. *)
Lemma py_int_close (a b : R) : Rabs (a - b) < 1 → (-1 <= py_int a - py_int b <= 1)%Z.
Proof.
  assert (Hstep : ∀ u v, u <= v → v < u + 1 → (py_int v <= py_int u + 1)%Z).
  { intros u v Huv Hv.
    destruct (py_int_bounds u) as [Hu1 Hu2]. destruct (py_int_bounds v) as [Hv1 Hv2].
    destruct (Rlt_dec v 0) as [Hvn|Hvp].
    - assert (Hun : u < 0) by lra. specialize (Hu2 Hun). specialize (Hv2 Hvn).
      assert (Hlt : IZR (py_int v - 1) < IZR (py_int u + 1))
        by (rewrite minus_IZR, plus_IZR; lra).
      apply lt_IZR in Hlt. lia.
    - assert (Hv0 : 0 <= v) by lra. specialize (Hv1 Hv0).
      destruct (Rlt_dec u 0) as [Hun|Hup].
      + specialize (Hu2 Hun).
        assert (Hlt1 : IZR (py_int v) < IZR 1) by lra.
        assert (Hlt2 : IZR (-1) < IZR (py_int u)) by lra.
        apply lt_IZR in Hlt1, Hlt2. lia.
      + assert (Hu0 : 0 <= u) by lra. specialize (Hu1 Hu0).
        assert (Hlt : IZR (py_int v) < IZR (py_int u + 2)) by (rewrite plus_IZR; lra).
        apply lt_IZR in Hlt. lia. }
  intros Hab. apply Rabs_def2 in Hab as [H1 H2].
  destruct (Rle_dec a b) as [Hle|Hgt].
  - pose proof (py_int_mono a b Hle). pose proof (Hstep a b Hle ltac:(lra)). lia.
  - assert (Hle : b <= a) by lra.
    pose proof (py_int_mono b a Hle). pose proof (Hstep b a Hle ltac:(lra)). lia.
Qed.

(** *** Loops *)

(** A loop whose body keeps an invariant and never fails, never fails and
    ends in the invariant. *)
Lemma foldM_invariant {A B : Type} (f : B → A → option B) (I : B → Prop)
    (l : list A) (b : B) :
  I b →
  (∀ b a, a ∈ l → I b → ∃ b', f b a = Some b' ∧ I b') →
  ∃ b', foldM f b l = Some b' ∧ I b'.
Proof.
  revert b. induction l as [|a l IH]; intros b Hb Hstep; simpl.
  - by exists b.
  - destruct (Hstep b a) as (b1 & Hf & Hb1); [left | done |].
    rewrite Hf. simpl. apply IH; [done|].
    intros b2 a2 Ha2. apply Hstep. by right.
Qed.

(** *** The spatial grid of [combined.py] *)

Module GridFacts.
Import Combined.

(** The indices, counted from [i], of the particles of [ps] that fall in
    [cell], in increasing order. *)
Fixpoint bucket (cs : R) (i : nat) (ps : list Particle) (cell : Z * Z) : list nat :=
  match ps with
  | [] => []
  | p :: ps' =>
      (if decide (cell_of cs (pos p) = Some cell) then [i] else [])
        ++ bucket cs (S i) ps' cell
  end.

(** The nine cells visited by [get_neighbors], in the order of its loops. *)
Definition block (c : Z * Z) : list (Z * Z) :=
  dx ← offsets; dy ← offsets; [((c.1 + dx)%Z, (c.2 + dy)%Z)].

Lemma cell_of_Some (cs : R) (p : vec2) :
  cs ≠ 0 → cell_of cs p = Some (py_int (c0 p / cs), py_int (c1 p / cs)).
Proof. intros Hcs. unfold cell_of. by rewrite !checked_div_Some. Qed.

Lemma elem_of_bucket (cs : R) (i : nat) (ps : list Particle) (cell : Z * Z) (k : nat) :
  k ∈ bucket cs i ps cell ↔
  (i ≤ k)%nat ∧ ∃ p, ps !! (k - i)%nat = Some p ∧ cell_of cs (pos p) = Some cell.
Proof.
  revert i. induction ps as [|p ps IH]; intros i; simpl.
  - split; [by intros ?%elem_of_nil | by intros (_ & p & ? & _)].
  - rewrite elem_of_app, IH. split.
    + intros [Hk|(Hle & q & Hq & Hc)].
      * destruct (decide _) as [Hc|]; [|by apply elem_of_nil in Hk].
        apply list_elem_of_singleton in Hk as ->. split; [lia|].
        exists p. by rewrite Nat.sub_diag.
      * split; [lia|]. exists q. split; [|done].
        replace (k - i)%nat with (S (k - S i)) by lia. done.
    + intros (Hle & q & Hq & Hc).
      destruct (decide (k = i)) as [->|Hne].
      * rewrite Nat.sub_diag in Hq. simpl in Hq. injection Hq as ->.
        left. rewrite decide_True by done. by apply list_elem_of_singleton.
      * right. split; [lia|]. exists q. split; [|done].
        replace (k - i)%nat with (S (k - S i)) in Hq by lia. done.
Qed.

Lemma grid_append_lookup (g : gmap (Z * Z) (list nat)) (c c' : Z * Z) (i : nat) :
  default [] (grid_append g c i !! c') =
  default [] (g !! c') ++ (if decide (Some c = Some c') then [i] else []).
Proof.
  unfold grid_append. destruct (decide (c = c')) as [->|Hne].
  - rewrite lookup_insert_eq. by rewrite decide_True.
  - rewrite lookup_insert_ne by done. rewrite decide_False by congruence.
    by rewrite app_nil_r.
Qed.

(** What [SpatialGrid.update] stores: each cell holds the indices of the
    particles whose position falls in it. *)
Lemma update_from_lookup (cs : R) (ps : list Particle) :
  cs ≠ 0 → ∀ i g, ∃ g', update_from cs i ps g = Some g' ∧
    ∀ c, default [] (g' !! c) = default [] (g !! c) ++ bucket cs i ps c.
Proof.
  intros Hcs. induction ps as [|p ps IH]; intros i g; simpl.
  - exists g. split; [done|]. intros c. by rewrite app_nil_r.
  - rewrite cell_of_Some by done. simpl.
    destruct (IH (S i) (grid_append g (py_int (c0 (pos p) / cs), py_int (c1 (pos p) / cs)) i))
      as (g' & Hg' & Hl).
    exists g'. split; [done|]. intros c. rewrite Hl, grid_append_lookup.
    by rewrite <- app_assoc.
Qed.

Lemma update_lookup (sg : SpatialGrid) (ps : list Particle) :
  cell_size sg ≠ 0 → ∃ sg', update sg ps = Some sg' ∧ cell_size sg' = cell_size sg ∧
    ∀ c, default [] (grid sg' !! c) = bucket (cell_size sg) 0 ps c.
Proof.
  intros Hcs. destruct (update_from_lookup (cell_size sg) ps Hcs 0%nat ∅) as (g' & Hg' & Hl).
  unfold update. rewrite Hg'. simpl. eexists. split; [done|]. split; [done|].
  intros c. simpl. by rewrite Hl, lookup_empty.
Qed.

(** [get_neighbors] concatenates the lists stored in the nine cells. *)
Lemma get_neighbors_concat (sg : SpatialGrid) (q : vec2) :
  get_neighbors sg q =
  c ← cell_of (cell_size sg) q; Some (concat (map (λ c', default [] (grid sg !! c')) (block c))).
Proof.
  unfold get_neighbors. destruct (cell_of (cell_size sg) q) as [c|]; simpl; [|done].
  f_equal. rewrite !app_nil_r.
  repeat match goal with
         | |- context [match ?g !! ?k with Some _ => _ | None => _ end] =>
             destruct (g !! k); simpl
         end; by rewrite ?app_nil_r, <- ?app_assoc.
Qed.

End GridFacts.

(** *** Distances *)

Lemma hypot_nonneg (dx dy : R) : 0 <= hypot dx dy.
Proof. apply sqrt_pos. Qed.

Lemma hypot_sqr (dx dy : R) : hypot dx dy * hypot dx dy = dx * dx + dy * dy.
Proof. unfold hypot. apply sqrt_sqrt. nra. Qed.

Lemma hypot_ge_abs_l (dx dy : R) : Rabs dx <= hypot dx dy.
Proof.
  pose proof (hypot_nonneg dx dy). pose proof (hypot_sqr dx dy).
  apply Rabs_le. split; nra.
Qed.

Lemma hypot_ge_abs_r (dx dy : R) : Rabs dy <= hypot dx dy.
Proof.
  pose proof (hypot_nonneg dx dy). pose proof (hypot_sqr dx dy).
  apply Rabs_le. split; nra.
Qed.

Lemma hypot_eq_0 (dx dy : R) : hypot dx dy = 0 ↔ dx = 0 ∧ dy = 0.
Proof.
  pose proof (hypot_sqr dx dy) as Hs. split.
  - intros H0. rewrite H0 in Hs. split; nra.
  - intros [-> ->]. unfold hypot. replace (0 * 0 + 0 * 0) with 0 by lra. apply sqrt_0.
Qed.

(** The distance between points on a horizontal line. *)
Lemma hypot_horizontal (dx : R) : 0 <= dx → hypot dx 0 = dx.
Proof.
  intros Hdx. unfold hypot. replace (dx * dx + 0 * 0) with (dx * dx) by lra.
  by apply sqrt_square.
Qed.

Lemma scaled_close (a b h : R) : 0 < h → Rabs (a - b) < h → Rabs (a / h - b / h) < 1.
Proof.
  intros Hh Hab. replace (a / h - b / h) with ((a - b) / h) by (field; lra).
  unfold Rdiv. rewrite Rabs_mult, (Rabs_pos_eq (/ h)).
  - apply (Rmult_lt_reg_r h); [done|]. rewrite Rmult_assoc, Rinv_l by lra. lra.
  - apply Rlt_le, Rinv_0_lt_compat. done.
Qed.

Module NeighborFacts.
Import Combined GridFacts.

Lemma elem_of_block (c c' : Z * Z) :
  c' ∈ block c ↔ ∃ dx dy, dx ∈ offsets ∧ dy ∈ offsets ∧ c' = ((c.1 + dx)%Z, (c.2 + dy)%Z).
Proof.
  unfold block. rewrite list_elem_of_bind. split.
  - intros (dx & Hc & Hdx). apply list_elem_of_bind in Hc as (dy & Hc & Hdy).
    apply list_elem_of_singleton in Hc. by exists dx, dy.
  - intros (dx & dy & Hdx & Hdy & ->). exists dx. split; [|done].
    apply list_elem_of_bind. exists dy. split; [|done]. by apply list_elem_of_singleton.
Qed.

Lemma elem_of_offsets (d : Z) : d ∈ offsets ↔ (-1 <= d <= 1)%Z.
Proof.
  unfold offsets. rewrite !elem_of_cons, elem_of_nil. lia.
Qed.

Lemma elem_of_concat_map {A B : Type} (f : A → list B) (l : list A) (b : B) :
  b ∈ concat (map f l) ↔ ∃ a, a ∈ l ∧ b ∈ f a.
Proof.
  induction l as [|a l IH]; simpl.
  - split; [by intros ?%elem_of_nil | by intros (a & ?%elem_of_nil & _)].
  - rewrite elem_of_app, IH. split.
    + intros [Hb|(a' & Ha' & Hb)]; [exists a | exists a']; split; try done; [left | by right].
    + intros (a' & Ha' & Hb). apply elem_of_cons in Ha' as [->|Ha']; [by left|].
      right. by exists a'.
Qed.

(** A grid that holds, cell by cell, the indices of the particles [ps]:
    what [SpatialGrid.update] establishes. *)
Definition grid_of (sg : SpatialGrid) (ps : list Particle) : Prop :=
  cell_size sg ≠ 0 ∧
  ∀ c, default [] (grid sg !! c) = bucket (cell_size sg) 0 ps c.

Lemma update_grid_of (sg : SpatialGrid) (ps : list Particle) :
  cell_size sg ≠ 0 →
  ∃ sg', update sg ps = Some sg' ∧ cell_size sg' = cell_size sg ∧ grid_of sg' ps.
Proof.
  intros Hcs. destruct (update_lookup sg ps Hcs) as (sg' & Hupd & Hsz & Hlook).
  exists sg'. split; [done|]. split; [done|]. split; by rewrite Hsz.
Qed.

(** The candidates are the particles whose cell is in the block. *)
Lemma get_neighbors_cells (sg : SpatialGrid) (ps : list Particle) (q : vec2) :
  grid_of sg ps →
  ∃ ids, get_neighbors sg q = Some ids ∧
    ids = concat (map (λ c', default [] (grid sg !! c'))
            (block (py_int (c0 q / cell_size sg), py_int (c1 q / cell_size sg)))) ∧
    ∀ i, i ∈ ids ↔
      ∃ p dx dy, ps !! i = Some p ∧ dx ∈ offsets ∧ dy ∈ offsets ∧
        cell_of (cell_size sg) (pos p)
          = Some ((py_int (c0 q / cell_size sg) + dx)%Z, (py_int (c1 q / cell_size sg) + dy)%Z).
Proof.
  intros [Hcs Hlook]. eexists. split; [|split; [done|]].
  { by rewrite get_neighbors_concat, cell_of_Some. }
  intros i. rewrite elem_of_concat_map. split.
  - intros (c' & Hc' & Hi). apply elem_of_block in Hc' as (dx & dy & Hdx & Hdy & ->).
    rewrite Hlook in Hi. apply elem_of_bucket in Hi as (_ & p & Hp & Hc).
    rewrite Nat.sub_0_r in Hp. by exists p, dx, dy.
  - intros (p & dx & dy & Hp & Hdx & Hdy & Hc). eexists.
    split; [apply elem_of_block; by exists dx, dy|].
    rewrite Hlook. apply elem_of_bucket. split; [lia|].
    exists p. by rewrite Nat.sub_0_r.
Qed.

(** Every candidate is the index of a particle. *)
Lemma get_neighbors_valid (sg : SpatialGrid) (ps : list Particle) (q : vec2)
    (ids : list nat) (i : nat) :
  grid_of sg ps → get_neighbors sg q = Some ids → i ∈ ids → (i < length ps)%nat.
Proof.
  intros Hg Hget Hi. destruct (get_neighbors_cells sg ps q Hg) as (ids' & Hget' & _ & Hel).
  rewrite Hget in Hget'. injection Hget' as <-.
  apply Hel in Hi as (p & _ & _ & Hp & _). by eapply lookup_lt_Some.
Qed.

(** Every particle is among the candidates of its own position. *)
Lemma get_neighbors_self (sg : SpatialGrid) (ps : list Particle) (i : nat) (p : Particle)
    (ids : list nat) :
  grid_of sg ps → ps !! i = Some p → get_neighbors sg (pos p) = Some ids → i ∈ ids.
Proof.
  intros Hg Hp Hget.
  destruct (get_neighbors_cells sg ps (pos p) Hg) as (ids' & Hget' & _ & Hel).
  rewrite Hget in Hget'. injection Hget' as <-.
  apply Hel. exists p, 0%Z, 0%Z. split; [done|].
  split; [apply elem_of_offsets; lia|]. split; [apply elem_of_offsets; lia|].
  rewrite cell_of_Some by apply Hg. do 2 f_equal; lia.
Qed.

End NeighborFacts.

(** *** Loops that update the particle at the loop index *)

(** The list after [k] iterations of a loop that replaces the element [x]
    of index [i] by [g i x]. *)
Definition partly_imapped {X : Type} (g : nat → X → X) (k : nat) (ps : list X) : list X :=
  imap g (take k ps) ++ drop k ps.

Lemma partly_imapped_length {X : Type} (g : nat → X → X) (k : nat) (ps : list X) :
  length (partly_imapped g k ps) = length ps.
Proof.
  unfold partly_imapped. rewrite length_app, length_imap, length_take, length_drop. lia.
Qed.

Lemma partly_imapped_lookup {X : Type} (g : nat → X → X) (k : nat) (ps : list X) (j : nat) :
  partly_imapped g k ps !! j = if decide (j < k)%nat then g j <$> ps !! j else ps !! j.
Proof.
  unfold partly_imapped. destruct (decide (j < k)%nat) as [Hlt|Hge].
  - destruct (decide (j < length ps)%nat) as [Hj|Hj].
    + rewrite lookup_app_l by (rewrite length_imap, length_take; lia).
      rewrite list_lookup_imap, lookup_take_lt by done. done.
    + rewrite (lookup_ge_None_2 ps j) by lia. simpl.
      apply lookup_ge_None_2. rewrite length_app, length_imap, length_take, length_drop. lia.
  - destruct (decide (k ≤ length ps)%nat) as [Hk|Hk].
    + rewrite lookup_app_r by (rewrite length_imap, length_take; lia).
      rewrite length_imap, length_take, lookup_drop. f_equal. lia.
    + rewrite (lookup_ge_None_2 ps j) by lia.
      apply lookup_ge_None_2. rewrite length_app, length_imap, length_take, length_drop. lia.
Qed.

Lemma partly_imapped_step {X : Type} (g : nat → X → X) (k : nat) (ps : list X) (x : X) :
  ps !! k = Some x →
  <[k := g k x]> (partly_imapped g k ps) = partly_imapped g (S k) ps.
Proof.
  intros Hk. apply list_eq. intros j.
  pose proof (lookup_lt_Some _ _ _ Hk) as Hlen.
  destruct (decide (j = k)) as [->|Hne].
  - rewrite list_lookup_insert_eq by (rewrite partly_imapped_length; lia).
    rewrite partly_imapped_lookup, decide_True by lia. by rewrite Hk.
  - rewrite list_lookup_insert_ne by done. rewrite !partly_imapped_lookup.
    destruct (decide (j < k)%nat), (decide (j < S k)%nat); try done; lia.
Qed.

(** A loop over all indices whose body replaces the particle [x] at the
    index [k] by [g k x] ([x] being the original one) is [imap g]. *)
Lemma foldM_inplace_imap {X : Type} (f : list X → nat → option (list X)) (g : nat → X → X)
    (ps : list X) :
  (∀ k x, ps !! k = Some x →
     f (partly_imapped g k ps) k = Some (<[k := g k x]> (partly_imapped g k ps))) →
  foldM f ps (seq 0 (length ps)) = Some (imap g ps).
Proof.
  intros Hbody.
  assert (Hgen : ∀ m k, (k + m = length ps)%nat →
            foldM f (partly_imapped g k ps) (seq k m) = Some (imap g ps)).
  { induction m as [|m IH]; intros k Hkm; simpl.
    - unfold partly_imapped. rewrite take_ge, drop_ge by lia. by rewrite app_nil_r.
    - destruct (lookup_lt_is_Some_2 ps k) as [x Hx]; [lia|].
      rewrite (Hbody k x Hx). simpl. rewrite (partly_imapped_step g k ps x Hx).
      apply IH. lia. }
  specialize (Hgen (length ps) 0%nat eq_refl).
  unfold partly_imapped in Hgen at 1. by rewrite take_0, drop_0 in Hgen.
Qed.

(** The same for a body that does not depend on the index. *)
Lemma foldM_inplace_map {X : Type} (f : list X → nat → option (list X)) (g : X → X)
    (ps : list X) :
  (∀ k x, ps !! k = Some x →
     f (partly_imapped (λ _, g) k ps) k
     = Some (<[k := g x]> (partly_imapped (λ _, g) k ps))) →
  foldM f ps (seq 0 (length ps)) = Some (map g ps).
Proof.
  intros Hbody. rewrite (foldM_inplace_imap f (λ _, g) ps Hbody).
  f_equal. apply imap_const.
Qed.

(** *** Kernels as total functions *)

(** The value of the poly6 kernel ([poly6_kernel] and [sph_kernel]). *)
Definition poly6 (r h : R) : R :=
  if Rlt_dec r h then 315 / (64 * PI * h ^ 9) * (h ^ 2 - r ^ 2) ^ 3 else 0.

(** The value of the spiky gradient ([spiky_gradient] and
    [sph_kernel_derivative]). *)
Definition spiky (r h : R) : R :=
  if Rlt_dec r h then -45 / (PI * h ^ 6) * (h - r) ^ 2 else 0.

Lemma PI_pow_nonzero (h : R) (n : nat) : 0 < h → PI * h ^ n ≠ 0.
Proof.
  intros Hh. assert (0 < PI) by apply PI_RGT_0. assert (0 < h ^ n) by (apply pow_lt; lra).
  nra.
Qed.

Lemma poly6_kernel_total (r h : R) :
  0 < h → Combined.poly6_kernel r h = Some (poly6 r h).
Proof.
  intros Hh. unfold Combined.poly6_kernel, poly6.
  destruct (Rlt_dec r h); [|done]. by rewrite checked_div_Some by by apply poly6_scale_nonzero.
Qed.

Lemma sph_kernel_total (r h : R) : 0 < h → R1.sph_kernel r h = Some (poly6 r h).
Proof. apply poly6_kernel_total. Qed.

Lemma spiky_gradient_total (r h : R) :
  0 < h → Combined.spiky_gradient r h = Some (spiky r h).
Proof.
  intros Hh. unfold Combined.spiky_gradient, spiky.
  destruct (Rlt_dec r h); [|done]. by rewrite checked_div_Some by by apply PI_pow_nonzero.
Qed.

Lemma sph_kernel_derivative_total (r h : R) :
  0 < h → R1.sph_kernel_derivative r h = Some (spiky r h).
Proof. apply spiky_gradient_total. Qed.

Lemma viscosity_laplacian_total (r h : R) :
  0 < h → is_Some (Combined.viscosity_laplacian r h).
Proof.
  intros Hh. unfold Combined.viscosity_laplacian.
  destruct (Rlt_dec r h); [|by eexists].
  rewrite checked_div_Some by by apply PI_pow_nonzero. by eexists.
Qed.

Lemma sph_viscosity_kernel_total (r h : R) :
  0 < h → is_Some (R1.sph_viscosity_kernel r h).
Proof.
  intros Hh. unfold R1.sph_viscosity_kernel.
  destruct (Rlt_dec r R1.EPSILON) as [|Hr]; [by eexists|].
  destruct (Rlt_dec r h); [|by eexists].
  assert (0 < PI) by apply PI_RGT_0.
  assert (0 < h ^ 3) by (apply pow_lt; lra). assert (0 < h ^ 2) by (apply pow_lt; lra).
  unfold R1.EPSILON in *.
  rewrite !checked_div_Some by nra. by eexists.
Qed.

Lemma poly6_nonneg (r h : R) : 0 <= r → 0 <= poly6 r h.
Proof.
  intros Hr. unfold poly6. destruct (Rlt_dec r h) as [Hlt|]; [|lra].
  assert (0 < PI) by apply PI_RGT_0. assert (0 < h ^ 9) by (apply pow_lt; lra).
  assert (0 <= h ^ 2 - r ^ 2) by nra.
  assert (0 <= (h ^ 2 - r ^ 2) ^ 3) by (apply pow_le; lra).
  apply Rmult_le_pos; [|done]. apply Rlt_le, Rdiv_lt_0_compat; nra.
Qed.

Lemma poly6_pos (r h : R) : 0 <= r < h → 0 < poly6 r h.
Proof.
  intros [Hr Hlt]. unfold poly6. destruct (Rlt_dec r h); [|lra].
  assert (0 < PI) by apply PI_RGT_0. assert (0 < h ^ 9) by (apply pow_lt; lra).
  assert (0 < h ^ 2 - r ^ 2) by nra.
  assert (0 < (h ^ 2 - r ^ 2) ^ 3) by (apply pow_lt; lra).
  apply Rmult_lt_0_compat; [|done]. apply Rdiv_lt_0_compat; nra.
Qed.


Lemma vdiv_Some (a : vec2) (s : R) : s ≠ 0 → vdiv a s = Some (V2 (c0 a / s) (c1 a / s)).
Proof. intros Hs. unfold vdiv. by rewrite !checked_div_Some. Qed.

(** *** The density pass of [combined.py] *)

Module DensityFacts.
Import Combined GridFacts NeighborFacts.

Lemma SMOOTHING_RADIUS_pos : 0 < SMOOTHING_RADIUS.
Proof. unfold SMOOTHING_RADIUS. lra. Qed.

(** The sum accumulated by the inner loop over the neighbour positions
    [qs], starting from [d0]. *)
Definition kernel_sum (p : vec2) (d0 : R) (qs : list vec2) : R :=
  foldl (λ d q, d + poly6 (norm (vsub p q)) SMOOTHING_RADIUS) d0 qs.

Definition neighbor_positions (ps : list Particle) (ids : list nat) : list vec2 :=
  omap (λ j, pos <$> ps !! j) ids.

(** The density the pass gives to [x]: the kernel sum over the
    candidates of its position. *)
Definition density_of (sg : SpatialGrid) (ps : list Particle) (x : Particle) : R :=
  kernel_sum (pos x) 0 (neighbor_positions ps (default [] (get_neighbors sg (pos x)))).

Definition with_density (sg : SpatialGrid) (ps : list Particle) (x : Particle) : Particle :=
  set_density_pressure x (density_of sg ps x)
    (PRESSURE_STIFFNESS * (density_of sg ps x - REST_DENSITY)).

Lemma density_fold (p : vec2) (ns : list Particle) (d0 : R) :
  foldM (λ d neighbor,
           w ← poly6_kernel (norm (vsub p (pos neighbor))) SMOOTHING_RADIUS; Some (d + w))
        d0 ns
  = Some (kernel_sum p d0 (map pos ns)).
Proof.
  revert d0. induction ns as [|n ns IH]; intros d0; simpl; [done|].
  rewrite poly6_kernel_total by apply SMOOTHING_RADIUS_pos. simpl. apply IH.
Qed.

Lemma mapM_lookup_positions (l ps : list Particle) (ids : list nat) :
  (∀ j, pos <$> l !! j = pos <$> ps !! j) →
  (∀ i, i ∈ ids → (i < length ps)%nat) →
  ∃ ns, mapM (λ j, l !! j) ids = Some ns ∧ map pos ns = neighbor_positions ps ids.
Proof.
  intros Hpos. induction ids as [|a ids IH]; intros Hval.
  - by exists [].
  - destruct IH as (ns & Hns & Hmap); [intros i Hi; apply Hval; by right|].
    destruct (lookup_lt_is_Some_2 ps a) as [y Hy]; [apply Hval; by left|].
    pose proof (Hpos a) as Ha. rewrite Hy in Ha. simpl in Ha.
    destruct (l !! a) as [z|] eqn:Hz; [|done]. injection Ha as Ha.
    exists (z :: ns). cbn. rewrite Hz. cbn. rewrite Hns. cbn.
    split; [done|]. unfold neighbor_positions. cbn. rewrite Hy. cbn.
    by rewrite Ha, Hmap.
Qed.

Lemma partly_mapped_pos (g : Particle → Particle) (k : nat) (ps : list Particle) (j : nat) :
  (∀ x, pos (g x) = pos x) →
  pos <$> partly_imapped (λ _, g) k ps !! j = pos <$> ps !! j.
Proof.
  intros Hg. rewrite partly_imapped_lookup. destruct (decide (j < k)%nat); [|done].
  destruct (ps !! j); simpl; [|done]. by rewrite Hg.
Qed.

(** The first loop of [update_physics] gives every particle the kernel
    sum over its candidates; nothing else changes. *)
Lemma density_pass_map (sg : SpatialGrid) (ps : list Particle) :
  grid_of sg ps → density_pass sg ps = Some (map (with_density sg ps) ps).
Proof.
  intros Hg. unfold density_pass. apply foldM_inplace_map. intros k x Hx.
  unfold density_body.
  rewrite partly_imapped_lookup, decide_False by lia. rewrite Hx. simpl.
  destruct (get_neighbors_cells sg ps (pos x) Hg) as (ids & Hget & _ & _).
  rewrite Hget. simpl.
  destruct (mapM_lookup_positions (partly_imapped (λ _, with_density sg ps) k ps) ps ids)
    as (ns & Hns & Hmap).
  { intros j. by apply partly_mapped_pos. }
  { intros i Hi. by eapply get_neighbors_valid. }
  rewrite Hns. simpl. rewrite density_fold. simpl. rewrite Hmap.
  replace 0.0 with 0 by lra.
  do 2 f_equal. unfold with_density, density_of. by rewrite Hget.
Qed.

Lemma kernel_sum_ge (p : vec2) (qs : list vec2) (d0 : R) : d0 <= kernel_sum p d0 qs.
Proof.
  revert d0. induction qs as [|q qs IH]; intros d0; simpl; [lra|].
  etransitivity; [|apply IH].
  pose proof (poly6_nonneg (norm (vsub p q)) SMOOTHING_RADIUS (hypot_nonneg _ _)). lra.
Qed.

Lemma norm_self (p : vec2) : norm (vsub p p) = 0.
Proof. unfold norm, vsub. simpl. apply hypot_eq_0. lra. Qed.

Lemma kernel_sum_self (p : vec2) (qs : list vec2) (d0 : R) :
  p ∈ qs → d0 + poly6 0 SMOOTHING_RADIUS <= kernel_sum p d0 qs.
Proof.
  revert d0. induction qs as [|q qs IH]; intros d0 Hin; [by apply elem_of_nil in Hin|].
  simpl. apply elem_of_cons in Hin as [<-|Hin].
  - rewrite norm_self. apply kernel_sum_ge.
  - etransitivity; [|apply IH; done].
    pose proof (poly6_nonneg (norm (vsub p q)) SMOOTHING_RADIUS (hypot_nonneg _ _)). lra.
Qed.

(** A particle is its own neighbour candidate, so its density is at least
    the kernel at distance zero: positive. *)
Lemma density_of_pos (sg : SpatialGrid) (ps : list Particle) (i : nat) (x : Particle) :
  grid_of sg ps → ps !! i = Some x → 0 < density_of sg ps x.
Proof.
  intros Hg Hx. unfold density_of.
  destruct (get_neighbors_cells sg ps (pos x) Hg) as (ids & Hget & _ & _).
  rewrite Hget. simpl.
  pose proof (get_neighbors_self sg ps i x ids Hg Hx Hget) as Hi.
  assert (Hin : pos x ∈ neighbor_positions ps ids).
  { unfold neighbor_positions. apply list_elem_of_omap. exists i. by rewrite Hx. }
  pose proof (kernel_sum_self (pos x) _ 0 Hin).
  pose proof (poly6_pos 0 SMOOTHING_RADIUS). pose proof SMOOTHING_RADIUS_pos. lra.
Qed.

End DensityFacts.

(** *** The force pass of [combined.py] *)

Module ForceFacts.
Import Combined GridFacts NeighborFacts DensityFacts.

(** A particle without its acceleration: what the force pass reads. *)
Definition strip (p : Particle) : Particle := set_acc p vzero.

Lemma strip_set_acc (p : Particle) (a : vec2) : strip (set_acc p a) = strip p.
Proof. done. Qed.

Lemma strip_lookup (l ps : list Particle) (j : nat) (n : Particle) :
  strip <$> l = strip <$> ps → l !! j = Some n →
  ∃ y, ps !! j = Some y ∧ strip n = strip y.
Proof.
  intros Heq Hn. assert (H : (strip <$> ps) !! j = Some (strip n))
    by (by rewrite <- Heq, list_lookup_fmap, Hn).
  rewrite list_lookup_fmap in H. destruct (ps !! j) as [y|]; [|done].
  exists y. split; [done|]. symmetry. by apply (inj Some).
Qed.

Lemma strip_fields (l ps : list Particle) :
  strip <$> l = strip <$> ps →
  pos <$> l = pos <$> ps ∧ vel <$> l = vel <$> ps ∧ density <$> l = density <$> ps.
Proof.
  intros Heq.
  assert (Hf : ∀ {T : Type} (f : Particle → T),
             (∀ x, f (strip x) = f x) → f <$> l = f <$> ps).
  { intros T f Hf. transitivity (f <$> (strip <$> l)).
    - rewrite <- list_fmap_compose. apply list_fmap_ext. intros _ x _. symmetry. apply Hf.
    - rewrite Heq, <- list_fmap_compose. apply list_fmap_ext. intros _ x _. apply Hf. }
  repeat split; by apply Hf.
Qed.

Lemma force_neighbor_total (i : nat) (p : Particle) (forces : vec2 * vec2)
    (jn : nat * Particle) :
  density jn.2 ≠ 0 → is_Some (force_neighbor i p forces jn).
Proof.
  destruct jn as [j n], forces as [pf vf]. simpl. intros Hd.
  destruct (decide (j = i)); [by eexists|].
  destruct (decide (norm (vsub (pos n) (pos p)) = 0)) as [|Hr]; [by eexists|].
  rewrite (vdiv_Some _ _ Hr). simpl.
  rewrite (vdiv_Some _ (2 * density n)) by lra. simpl.
  rewrite spiky_gradient_total by apply SMOOTHING_RADIUS_pos. simpl.
  rewrite (vdiv_Some _ _ Hd). simpl.
  destruct (viscosity_laplacian_total (norm (vsub (pos n) (pos p))) SMOOTHING_RADIUS
              SMOOTHING_RADIUS_pos) as [vl ->].
  by eexists.
Qed.

Lemma force_fold_total (i : nat) (p : Particle) (ns : list (nat * Particle))
    (forces : vec2 * vec2) :
  Forall (λ jn, density jn.2 ≠ 0) ns → is_Some (foldM (force_neighbor i p) forces ns).
Proof.
  intros Hns. revert forces. induction Hns as [|jn ns Hd _ IH]; intros forces; simpl.
  - by eexists.
  - destruct (force_neighbor_total i p forces jn Hd) as [f' ->]. simpl. apply IH.
Qed.

Lemma mapM_lookup_pairs (l : list Particle) (ids : list nat) :
  (∀ i, i ∈ ids → (i < length l)%nat) →
  ∃ ns, mapM (λ j, n ← l !! j; Some (j, n)) ids = Some ns ∧
        Forall (λ jn, l !! jn.1 = Some jn.2) ns.
Proof.
  induction ids as [|a ids IH]; intros Hval.
  - by exists [].
  - destruct IH as (ns & Hns & Hall); [intros i Hi; apply Hval; by right|].
    destruct (lookup_lt_is_Some_2 l a) as [y Hy]; [apply Hval; by left|].
    exists ((a, y) :: ns). cbn. rewrite Hy. cbn. rewrite Hns. cbn.
    split; [done|]. by constructor.
Qed.

(** One iteration of the second loop succeeds and changes only the
    acceleration of the particle at the index. *)
Lemma force_body_total (sg : SpatialGrid) (ps ps1 l : list Particle) (i : nat) :
  grid_of sg ps → length ps1 = length ps →
  (∀ x, x ∈ ps1 → density x ≠ 0) →
  (i < length ps1)%nat →
  strip <$> l = strip <$> ps1 →
  ∃ l', force_body sg l i = Some l' ∧ strip <$> l' = strip <$> ps1.
Proof.
  intros Hg Hlen Hdens Hi Hl.
  assert (Hll : length l = length ps1)
    by (by rewrite <- (length_fmap strip l), Hl, length_fmap).
  unfold force_body.
  destruct (lookup_lt_is_Some_2 l i) as [p Hp]; [lia|]. rewrite Hp. simpl.
  destruct (get_neighbors_cells sg ps (pos p) Hg) as (ids & Hget & _ & _).
  rewrite Hget. simpl.
  destruct (mapM_lookup_pairs l ids) as (ns & Hns & Hall).
  { intros j Hj. rewrite Hll, Hlen. by eapply get_neighbors_valid. }
  rewrite Hns. simpl.
  assert (Hnz : ∀ j n, l !! j = Some n → density n ≠ 0).
  { intros j n Hn. destruct (strip_lookup l ps1 j n Hl Hn) as (y & Hy & Hs).
    assert (density n = density y) as -> by (by injection Hs).
    apply Hdens. by eapply list_elem_of_lookup_2. }
  destruct (force_fold_total i p ns (vzero, vzero)) as [forces ->].
  { eapply Forall_impl; [exact Hall|]. intros [j n]. simpl. apply Hnz. }
  simpl. rewrite vdiv_Some by (by eapply Hnz). simpl.
  eexists. split; [done|].
  rewrite list_fmap_insert, strip_set_acc. rewrite list_insert_id; [done|].
  by rewrite list_lookup_fmap, Hp.
Qed.

Lemma force_pass_total (sg : SpatialGrid) (ps ps1 : list Particle) :
  grid_of sg ps → length ps1 = length ps →
  (∀ x, x ∈ ps1 → density x ≠ 0) →
  ∃ ps2, force_pass sg ps1 = Some ps2 ∧ strip <$> ps2 = strip <$> ps1.
Proof.
  intros Hg Hlen Hdens. unfold force_pass.
  apply (foldM_invariant (force_body sg) (λ l, strip <$> l = strip <$> ps1)); [done|].
  intros l i Hi Hl. apply (force_body_total sg ps ps1 l i); try done.
  apply elem_of_seq in Hi. lia.
Qed.

(** [update_physics] never fails, keeps every position and velocity, and
    leaves every particle with a positive density. *)
Lemma update_physics_total (s : FluidSimulation) :
  cell_size (sgrid s) ≠ 0 →
  ∃ s', update_physics s = Some s' ∧
    width s' = width s ∧ height s' = height s ∧
    cell_size (sgrid s') = cell_size (sgrid s) ∧
    grid_of (sgrid s') (particles s) ∧
    pos <$> particles s' = pos <$> particles s ∧
    vel <$> particles s' = vel <$> particles s ∧
    density <$> particles s' = density_of (sgrid s') (particles s) <$> particles s.
Proof.
  intros Hcs. unfold update_physics.
  destruct (update_grid_of (sgrid s) (particles s) Hcs) as (sg & -> & Hsz & Hg). simpl.
  rewrite (density_pass_map sg (particles s) Hg). simpl.
  destruct (force_pass_total sg (particles s) (map (with_density sg (particles s)) (particles s)))
    as (ps2 & -> & Hstrip); [done | by rewrite length_map | |].
  { intros x Hx. apply list_elem_of_fmap in Hx as (y & -> & Hy).
    apply list_elem_of_lookup in Hy as [i Hi].
    pose proof (density_of_pos sg (particles s) i y Hg Hi). simpl. lra. }
  destruct (strip_fields ps2 _ Hstrip) as (Hpos & Hvel & Hden).
  simpl. eexists. split; [done|]. simpl.
  change (map (with_density sg (particles s)) (particles s))
    with (with_density sg (particles s) <$> particles s) in *.
  rewrite <- list_fmap_compose in Hpos, Hvel, Hden.
  repeat split; try done; apply Hg.
Qed.

End ForceFacts.

(** *** Boundaries and the frame of [combined.py] *)

Module CombinedStepFacts.
Import Combined GridFacts NeighborFacts DensityFacts ForceFacts.

(** The axis position after [bounce] is the position clamped from below,
    then from above unless the lower clamp applied. *)
Lemma bounce_cases (x v dim : R) :
  (x < PARTICLE_RADIUS ∧ bounce x v dim = (PARTICLE_RADIUS, v * - DAMPING)) ∨
  (PARTICLE_RADIUS <= x ∧ dim - PARTICLE_RADIUS < x ∧
     bounce x v dim = (dim - PARTICLE_RADIUS, v * - DAMPING)) ∨
  (PARTICLE_RADIUS <= x <= dim - PARTICLE_RADIUS ∧ bounce x v dim = (x, v)).
Proof.
  unfold bounce. destruct (Rlt_dec x PARTICLE_RADIUS) as [Hlo|Hlo]; [by left|].
  destruct (Rgt_dec x (dim - PARTICLE_RADIUS)) as [Hhi|Hhi].
  - right; left. repeat split; [lra | apply Hhi].
  - right; right. split; [lra | done].
Qed.

Lemma bounce_in_bounds (x v dim : R) :
  2 * PARTICLE_RADIUS <= dim →
  PARTICLE_RADIUS <= (bounce x v dim).1 <= dim - PARTICLE_RADIUS.
Proof.
  intros Hdim.
  destruct (bounce_cases x v dim) as [[H ->]|[(H1 & H2 & ->)|[H ->]]]; simpl; lra.
Qed.

Lemma bounce_narrow (x v dim : R) :
  dim < 2 * PARTICLE_RADIUS →
  ¬ (PARTICLE_RADIUS <= (bounce x v dim).1 <= dim - PARTICLE_RADIUS).
Proof.
  intros Hdim.
  destruct (bounce_cases x v dim) as [[H ->]|[(H1 & H2 & ->)|[H ->]]]; simpl; lra.
Qed.

Lemma bounce_id (x v dim : R) :
  PARTICLE_RADIUS <= x <= dim - PARTICLE_RADIUS → bounce x v dim = (x, v).
Proof.
  intros Hx. destruct (bounce_cases x v dim) as [[H ->]|[(H1 & H2 & ->)|[H ->]]]; try done; lra.
Qed.

Lemma handle_boundaries1_pos (w h : R) (p : Particle) :
  pos (handle_boundaries1 w h p)
  = V2 (bounce (c0 (pos p)) (c0 (vel p)) w).1 (bounce (c1 (pos p)) (c1 (vel p)) h).1.
Proof.
  unfold handle_boundaries1.
  destruct (bounce (c0 (pos p)) (c0 (vel p)) w), (bounce (c1 (pos p)) (c1 (vel p)) h). done.
Qed.

Lemma Particle_update_zero (p : Particle) : pos (Particle_update p 0) = pos p.
Proof.
  unfold Particle_update, vadd, vscale. simpl. destruct (pos p) as [px py]. simpl.
  f_equal; lra.
Qed.

(** The frame never fails; its particles are those of [update_physics],
    integrated and bounced. *)
Lemma step_total (s : FluidSimulation) (dt : R) :
  cell_size (sgrid s) ≠ 0 →
  ∃ s1 s', update_physics s = Some s1 ∧ step s dt = Some s' ∧
    width s' = width s ∧ height s' = height s ∧
    cell_size (sgrid s') = cell_size (sgrid s) ∧
    pos <$> particles s1 = pos <$> particles s ∧
    particles s' = map (λ p, handle_boundaries1 (width s) (height s) (Particle_update p dt))
                       (particles s1).
Proof.
  intros Hcs. destruct (update_physics_total s Hcs) as (s1 & Hs1 & Hw & Hh & Hsz & _ & Hpos & _).
  exists s1. unfold step. rewrite Hs1. simpl. eexists. split; [done|]. split; [done|].
  simpl. rewrite Hw, Hh, Hsz. repeat split; try done.
  by rewrite map_map.
Qed.

End CombinedStepFacts.

(** *** [enumerate] *)

Lemma enumerate_from_nil {A : Type} (k : nat) : enumerate_from k (@nil A) = [].
Proof. done. Qed.

Lemma enumerate_from_cons {A : Type} (k : nat) (a : A) (l : list A) :
  enumerate_from k (a :: l) = (k, a) :: enumerate_from (S k) l.
Proof. done. Qed.

Lemma enumerate_from_app {A : Type} (k : nat) (l1 l2 : list A) :
  enumerate_from k (l1 ++ l2) = enumerate_from k l1 ++ enumerate_from (k + length l1) l2.
Proof.
  revert k. induction l1 as [|a l1 IH]; intros k.
  - simpl. by rewrite Nat.add_0_r.
  - rewrite <- app_comm_cons, !enumerate_from_cons, IH. simpl.
    do 3 f_equal. lia.
Qed.

Lemma elem_of_enumerate_from {A : Type} (k : nat) (l : list A) (j : nat) (a : A) :
  (j, a) ∈ enumerate_from k l ↔ (k ≤ j)%nat ∧ l !! (j - k)%nat = Some a.
Proof.
  revert k. induction l as [|b l IH]; intros k.
  - rewrite enumerate_from_nil. split; [by intros ?%elem_of_nil | by intros [_ ?]].
  - rewrite enumerate_from_cons, elem_of_cons, IH. split.
    + intros [[= -> ->]|[Hle Hl]].
      * split; [lia|]. by rewrite Nat.sub_diag.
      * split; [lia|]. by replace (j - k)%nat with (S (j - S k)) by lia.
    + intros [Hle Hl]. destruct (decide (j = k)) as [->|Hne].
      * left. rewrite Nat.sub_diag in Hl. by injection Hl as ->.
      * right. split; [lia|]. by replace (j - k)%nat with (S (j - S k)) in Hl by lia.
Qed.

(** Selecting the entry of index [i] from an enumeration. *)
Lemma omap_enumerate_select {A B : Type} (g : nat * A → option B) (i k : nat) (l : list A) :
  omap (λ jp, if decide (jp.1 = i) then g jp else None) (enumerate_from k l)
  = if decide (k ≤ i)%nat
    then match l !! (i - k)%nat with
         | Some a => option_list (g (i, a))
         | None => []
         end
    else [].
Proof.
  revert k. induction l as [|b l IH]; intros k.
  - rewrite enumerate_from_nil. simpl. by destruct (decide (k ≤ i)%nat).
  - rewrite enumerate_from_cons. cbn [omap list_omap fst]. rewrite IH.
    destruct (decide (k = i)) as [->|Hne].
    + rewrite (decide_False (P := (S i ≤ i)%nat)) by lia.
      rewrite (decide_True (P := (i ≤ i)%nat)) by lia.
      rewrite Nat.sub_diag. simpl. by destruct (g (i, b)).
    + destruct (decide (k ≤ i)%nat), (decide (S k ≤ i)%nat); try lia; [|done].
      by replace (i - k)%nat with (S (i - S k)) by lia.
Qed.

(** *** [find_neighbors] of [main-R1.py] *)

Module R1NeighborFacts.
Import R1.

(** The separation [find_neighbors] computes for a pair. *)
Definition dist (p q : Particle) : R := hypot (x q - x p) (y q - y p).

Lemma dist_sym (p q : Particle) : dist p q = dist q p.
Proof. unfold dist, hypot. f_equal. lra. Qed.

(** The entry appended to [neighbors[k]] for a neighbour [jp] of the
    particle [pk], and the one appended to [neighbors[jp.1]]. *)
Definition near (h : R) (pk : Particle) (jp : nat * Particle) : option (nat * R) :=
  if Rlt_dec (dist pk jp.2) h then Some (jp.1, dist pk jp.2) else None.

Definition back (h : R) (k : nat) (pk : Particle) (jp : nat * Particle) : option (nat * R) :=
  if Rlt_dec (dist pk jp.2) h then Some (k, dist pk jp.2) else None.

(** The neighbour list of the particle [pi] of index [i] among the
    enumerated particles [jps]: every other particle closer than [h], with
    its separation, in the order of the enumeration. *)
Definition within (h : R) (i : nat) (pi : Particle) (jps : list (nat * Particle))
  : list (nat * R) :=
  omap (λ jp, if decide (jp.1 = i) then None else near h pi jp) jps.

Lemma find_inner_lookup (h : R) (k : nat) (pk : Particle) (js : list (nat * Particle))
    (N : list (list (nat * R))) (i : nat) :
  (∀ jp, jp ∈ js → jp.1 ≠ k) →
  foldl (find_inner h k pk) N js !! i
  = (λ l, l ++ omap (if decide (i = k) then near h pk
                     else λ jp, if decide (jp.1 = i) then back h k pk jp else None) js)
      <$> N !! i.
Proof.
  revert N. induction js as [|[j pj] js IH]; intros N Hjs.
  - simpl. destruct (N !! i); simpl; by rewrite ?app_nil_r.
  - assert (Hjk : j ≠ k) by (apply (Hjs (j, pj)); left).
    simpl foldl. rewrite IH by (intros jp Hjp; apply Hjs; by right).
    unfold find_inner. fold (dist pk pj).
    destruct (decide (i = k)) as [->|Hik]; cbn [omap list_omap]; unfold near, back;
      cbn [fst snd]; destruct (Rlt_dec (dist pk pj) h) as [Hlt|Hge]; try done.
    + rewrite list_lookup_alter_ne, list_lookup_alter_eq by done.
      destruct (N !! k); simpl; [|done]. by rewrite <- app_assoc.
    + destruct (decide (j = i)) as [->|Hji].
      * rewrite list_lookup_alter_eq, list_lookup_alter_ne by done.
        destruct (N !! i); simpl; [|done]. by rewrite <- app_assoc.
      * by rewrite !list_lookup_alter_ne by done.
    + by destruct (decide (j = i)).
Qed.

Lemma within_app (h : R) (i : nat) (pi : Particle) (l1 l2 : list (nat * Particle)) :
  within h i pi (l1 ++ l2) = within h i pi l1 ++ within h i pi l2.
Proof. apply omap_app. Qed.

Lemma within_others (h : R) (i : nat) (pi : Particle) (jps : list (nat * Particle)) :
  (∀ jp, jp ∈ jps → jp.1 ≠ i) → within h i pi jps = omap (near h pi) jps.
Proof.
  intros Hne. induction jps as [|jp jps IH]; [done|].
  unfold within in *. cbn [omap list_omap].
  rewrite decide_False by (apply Hne; left).
  rewrite IH; [done|]. intros jp' Hjp'. apply Hne. by right.
Qed.

(** After the outer loop has handled the first [K] particles,
    [neighbors[i]] holds the neighbours of [i] among all particles when
    [i < K], and among the first [K] otherwise. *)
Lemma find_outer_lookup (ps : list Particle) (h : R) (K i : nat) (pi : Particle) :
  (K ≤ length ps)%nat → ps !! i = Some pi →
  foldl (λ neighbors ip,
           foldl (find_inner h ip.1 ip.2) neighbors
                 (enumerate_from (S ip.1) (drop (S ip.1) ps)))
        (replicate (length ps) []) (enumerate_from 0 (take K ps)) !! i
  = Some (within h i pi (enumerate_from 0 (if decide (i < K)%nat then ps else take K ps))).
Proof.
  intros HK Hi. pose proof (lookup_lt_Some _ _ _ Hi) as Hilen.
  induction K as [|K IH].
  - rewrite take_0. simpl foldl. case_decide; [lia|]. by rewrite lookup_replicate_2.
  - destruct (lookup_lt_is_Some_2 ps K) as [pK HpK]; [lia|].
    rewrite (take_S_r ps K pK HpK).
    rewrite (enumerate_from_app 0 (take K ps) [pK]) at 1.
    rewrite foldl_app, length_take, Nat.min_l by lia.
    change (enumerate_from (0 + K) [pK]) with [(K, pK)].
    cbn [foldl fst snd].
    rewrite find_inner_lookup
      by (intros [j pj] [Hj _]%elem_of_enumerate_from; simpl; lia).
    rewrite IH by lia. cbn [fmap option_fmap option_map]. f_equal.
    destruct (decide (i = K)) as [->|HiK].
    + rewrite (decide_False (P := (K < K)%nat)) by lia.
      rewrite (decide_True (P := (K < S K)%nat)) by lia.
      rewrite <- (take_drop_middle ps K pK HpK) at 3.
      rewrite enumerate_from_app, within_app. f_equal.
      rewrite length_take, Nat.min_l by lia.
      rewrite enumerate_from_cons. unfold within at 1. cbn [omap list_omap fst].
      rewrite decide_True by done.
      fold (within h K pK (enumerate_from (S (0 + K)) (drop (S K) ps))).
      rewrite HpK in Hi. injection Hi as ->.
      symmetry. apply within_others.
      intros [j pj] [Hj _]%elem_of_enumerate_from. simpl in *. lia.
    + rewrite omap_enumerate_select.
      destruct (decide (i < K)%nat) as [HltK|HgeK].
      * rewrite (decide_True (P := (i < S K)%nat)) by lia.
        rewrite (decide_False (P := (S K ≤ i)%nat)) by lia. by rewrite app_nil_r.
      * rewrite (decide_False (P := (i < S K)%nat)) by lia.
        rewrite (decide_True (P := (S K ≤ i)%nat)) by lia.
        rewrite lookup_drop. replace (S K + (i - S K))%nat with i by lia. rewrite Hi.
        rewrite enumerate_from_app, within_app. f_equal.
        rewrite length_take, Nat.min_l by lia.
        change (enumerate_from (0 + K) [pK]) with [(K, pK)].
        unfold within. cbn [omap list_omap fst]. rewrite decide_False by lia.
        unfold back, near. cbn [fst snd option_list]. rewrite (dist_sym pi pK).
        by destruct (Rlt_dec (dist pK pi) h).
Qed.

(** [find_neighbors] gives every particle the list of the other particles
    closer than [h], each with its separation, in index order. *)
Lemma find_neighbors_lookup (ps : list Particle) (h : R) (i : nat) (pi : Particle) :
  ps !! i = Some pi →
  find_neighbors ps h !! i = Some (within h i pi (enumerate_from 0 ps)).
Proof.
  intros Hi. pose proof (lookup_lt_Some _ _ _ Hi) as Hilen.
  pose proof (find_outer_lookup ps h (length ps) i pi (le_n _) Hi) as H.
  rewrite take_ge, decide_True in H by lia. exact H.
Qed.

Lemma elem_of_within (h : R) (i : nat) (pi : Particle) (ps : list Particle) (j : nat) (r : R) :
  (j, r) ∈ within h i pi (enumerate_from 0 ps) ↔
  j ≠ i ∧ ∃ pj, ps !! j = Some pj ∧ r = dist pi pj ∧ r < h.
Proof.
  unfold within. rewrite list_elem_of_omap. split.
  - intros ([j' pj] & [_ Hin]%elem_of_enumerate_from & Hsel). cbn [fst snd] in Hsel.
    rewrite Nat.sub_0_r in Hin.
    destruct (decide (j' = i)); [done|]. unfold near in Hsel. cbn [fst snd] in Hsel.
    destruct (Rlt_dec (dist pi pj) h); [|done]. injection Hsel as -> <-.
    split; [done|]. by exists pj.
  - intros (Hne & pj & Hj & -> & Hlt). exists (j, pj). split.
    + apply elem_of_enumerate_from. split; [lia|]. by rewrite Nat.sub_0_r.
    + cbn [fst snd]. rewrite decide_False by done. unfold near. cbn [fst snd].
      by destruct (Rlt_dec (dist pi pj) h).
Qed.

End R1NeighborFacts.

(** *** The SPH passes of [main-R1.py] *)

Module R1PassFacts.
Import R1 R1NeighborFacts.

Lemma R1_SMOOTHING_RADIUS_pos : 0 < SMOOTHING_RADIUS.
Proof. unfold SMOOTHING_RADIUS. lra. Qed.

(** Neighbour lists that exist for every particle and name particles only:
    what the passes need from [find_neighbors]. *)
Definition valid_neighbors (n : nat) (neighbors : list (list (nat * R))) : Prop :=
  ∀ i, (i < n)%nat → ∃ ni, neighbors !! i = Some ni ∧ ∀ jr, jr ∈ ni → (jr.1 < n)%nat.

Lemma find_neighbors_valid (ps : list Particle) (h : R) :
  valid_neighbors (length ps) (find_neighbors ps h).
Proof.
  intros i Hi. destruct (lookup_lt_is_Some_2 ps i Hi) as [pi Hpi].
  eexists. split; [by apply find_neighbors_lookup|].
  intros [j r] (_ & pj & Hj & _)%elem_of_within. simpl. by eapply lookup_lt_Some.
Qed.

(** The sum accumulated by the inner loop of [compute_density_pressure]
    over the neighbour list [ni], starting from [d0]. *)
Definition mass_kernel_sum (ps : list Particle) (h d0 : R) (ni : list (nat * R)) : R :=
  foldl (λ d jr, d + default 0 (mass <$> ps !! jr.1) * poly6 jr.2 h) d0 ni.

(** The particle of index [i] after the pass. *)
Definition with_density (ps : list Particle) (neighbors : list (list (nat * R))) (h : R)
    (i : nat) (p : Particle) : Particle :=
  let d := Rmax (mass_kernel_sum ps h 0 (default [] (neighbors !! i))) (REST_DENSITY * 0.1) in
  set_density_pressure p d (PRESSURE_STIFFNESS * (d - REST_DENSITY)).

Lemma density_inner (ps l : list Particle) (h d0 : R) (ni : list (nat * R)) :
  0 < h →
  (∀ j, mass <$> l !! j = mass <$> ps !! j) →
  (∀ jr, jr ∈ ni → (jr.1 < length ps)%nat) →
  foldM (λ d jr, pj ← l !! jr.1; k ← sph_kernel jr.2 h; Some (d + mass pj * k)) d0 ni
  = Some (mass_kernel_sum ps h d0 ni).
Proof.
  intros Hh Hmass. revert d0. induction ni as [|[j r] ni IH]; intros d0 Hval; [done|].
  simpl. pose proof (Hmass j) as Hj.
  destruct (lookup_lt_is_Some_2 ps j) as [pj Hpj]; [apply (Hval (j, r)); left|].
  rewrite Hpj in Hj. destruct (l !! j) as [qj|]; [|done]. simpl in Hj. injection Hj as Hj.
  simpl. rewrite sph_kernel_total by done. simpl. rewrite Hj.
  rewrite IH by (intros jr Hjr; apply Hval; by right).
  unfold mass_kernel_sum. simpl. by rewrite Hpj.
Qed.

(** [compute_density_pressure] gives the particle of index [i] the floored
    sum over [neighbors[i]], and the pressure of that density. *)
Lemma compute_density_pressure_imap (ps : list Particle)
    (neighbors : list (list (nat * R))) (h : R) :
  0 < h → valid_neighbors (length ps) neighbors →
  compute_density_pressure ps neighbors h = Some (imap (with_density ps neighbors h) ps).
Proof.
  intros Hh Hval. unfold compute_density_pressure. apply foldM_inplace_imap.
  intros k p Hk. pose proof (lookup_lt_Some _ _ _ Hk) as Hklen.
  unfold density_body.
  rewrite partly_imapped_lookup, decide_False by lia. rewrite Hk. simpl.
  destruct (Hval k Hklen) as (ni & Hni & Hnival). rewrite Hni. simpl.
  rewrite (density_inner ps _ h 0.0 ni Hh); [|
    |done].
  - simpl. replace 0.0 with 0 by lra. unfold with_density. by rewrite Hni.
  - intros j. rewrite partly_imapped_lookup. destruct (decide (j < k)%nat); [|done].
    by destruct (ps !! j).
Qed.

(** A particle without its acceleration. *)
Definition strip (p : Particle) : Particle := set_a p 0 0.

Lemma strip_R1_lookup (l ps : list Particle) (j : nat) (n : Particle) :
  strip <$> l = strip <$> ps → l !! j = Some n →
  ∃ q, ps !! j = Some q ∧ strip n = strip q.
Proof.
  intros Heq Hn. assert (H : (strip <$> ps) !! j = Some (strip n))
    by (by rewrite <- Heq, list_lookup_fmap, Hn).
  rewrite list_lookup_fmap in H. destruct (ps !! j) as [q|]; [|done].
  exists q. split; [done|]. symmetry. by apply (inj Some).
Qed.

Lemma strip_R1_fields {T : Type} (f : Particle → T) (l ps : list Particle) :
  (∀ p, f (strip p) = f p) → strip <$> l = strip <$> ps → f <$> l = f <$> ps.
Proof.
  intros Hf Heq. transitivity (f <$> (strip <$> l)).
  - rewrite <- list_fmap_compose. apply list_fmap_ext. intros _ p _. symmetry. apply Hf.
  - rewrite Heq, <- list_fmap_compose. apply list_fmap_ext. intros _ p _. apply Hf.
Qed.

Lemma EPSILON_pos : 0 < EPSILON.
Proof. unfold EPSILON. lra. Qed.

Lemma Rmax_EPSILON_nonzero (r : R) : Rmax r EPSILON ≠ 0.
Proof. pose proof (Rmax_r r EPSILON). pose proof EPSILON_pos. lra. Qed.

Lemma apply_force_Some (p : Particle) (fx fy : R) :
  mass p ≠ 0 →
  apply_force p fx fy = Some (set_a p (ax p + fx / mass p) (ay p + fy / mass p)).
Proof. intros Hm. unfold apply_force. by rewrite !checked_div_Some. Qed.

Lemma force_neighbor_R1_total (h : R) (l : list Particle) (p : Particle) (f : Forces)
    (jr : nat * R) :
  0 < h → (jr.1 < length l)%nat → is_Some (force_neighbor h l p f jr).
Proof.
  destruct jr as [j r]. simpl. intros Hh Hj.
  destruct (lookup_lt_is_Some_2 l j Hj) as [pj ->]. simpl.
  rewrite !(checked_div_Some _ (Rmax r EPSILON)) by apply Rmax_EPSILON_nonzero. simpl.
  rewrite checked_div_Some by lra. simpl.
  rewrite sph_kernel_derivative_total by done. simpl.
  destruct (sph_viscosity_kernel_total r h Hh) as [vk ->]. simpl.
  rewrite sph_kernel_total by done. simpl. by eexists.
Qed.

Lemma force_fold_R1_total (h : R) (l : list Particle) (p : Particle)
    (ni : list (nat * R)) (f : Forces) :
  0 < h → (∀ jr, jr ∈ ni → (jr.1 < length l)%nat) →
  is_Some (foldM (force_neighbor h l p) f ni).
Proof.
  intros Hh. revert f. induction ni as [|jr ni IH]; intros f Hval; simpl.
  - by eexists.
  - destruct (force_neighbor_R1_total h l p f jr Hh) as [f' ->]; [apply Hval; left|].
    simpl. apply IH. intros jr' Hjr'. apply Hval. by right.
Qed.

(** [compute_forces] never fails on particles of nonzero mass, and changes
    accelerations only. *)
Lemma compute_forces_total (ps : list Particle) (neighbors : list (list (nat * R))) (h : R) :
  0 < h → valid_neighbors (length ps) neighbors →
  (∀ p, p ∈ ps → mass p ≠ 0) →
  ∃ ps', compute_forces ps neighbors h = Some ps' ∧ strip <$> ps' = strip <$> ps.
Proof.
  intros Hh Hval Hmass. unfold compute_forces.
  apply (foldM_invariant (force_body neighbors h) (λ l, strip <$> l = strip <$> ps)); [done|].
  intros l i Hi%elem_of_seq Hl.
  assert (Hll : length l = length ps)
    by (by rewrite <- (length_fmap strip l), Hl, length_fmap).
  unfold force_body.
  destruct (lookup_lt_is_Some_2 l i) as [p Hp]; [lia|]. rewrite Hp. simpl.
  destruct (Hval i) as (ni & -> & Hni); [lia|]. simpl.
  destruct (force_fold_R1_total h l p ni (mkForces 0.0 0.0 0.0 0.0 0.0 0.0) Hh) as [f ->].
  { intros jr Hjr. rewrite Hll. by apply Hni. }
  simpl.
  assert (Hm : mass p ≠ 0).
  { destruct (strip_R1_lookup l ps i p Hl Hp) as (q & Hq & Hs).
    assert (mass p = mass q) as -> by (by injection Hs).
    apply Hmass. by eapply list_elem_of_lookup_2. }
  rewrite (apply_force_Some p) by done. simpl.
  rewrite apply_force_Some by done. simpl.
  rewrite apply_force_Some by done. simpl.
  eexists. split; [done|].
  rewrite list_fmap_insert. rewrite list_insert_id; [done|].
  by rewrite list_lookup_fmap, Hp.
Qed.

(** The "Apply gravity" loop. *)
Lemma gravity_total (ps : list Particle) :
  (∀ p, p ∈ ps → mass p ≠ 0) →
  ∃ ps', mapM (λ p, apply_force p 0 (GRAVITY * mass p)) ps = Some ps' ∧
         strip <$> ps' = strip <$> ps.
Proof.
  induction ps as [|p ps IH]; intros Hmass.
  - by exists [].
  - destruct IH as (ps' & Hps' & Hs); [intros q Hq; apply Hmass; by right|].
    cbn. rewrite apply_force_Some by (apply Hmass; left). cbn. rewrite Hps'. cbn.
    eexists. split; [done|]. cbn. by rewrite Hs.
Qed.

End R1PassFacts.

(** *** Pairwise collisions of [main-R1.py] *)

Module R1CollisionFacts.
Import R1 R1NeighborFacts R1PassFacts.

(** The contact normal, the closing speed and the impulse of a pair. *)
Definition normal (p1 p2 : Particle) : R * R :=
  ((x p2 - x p1) / dist p1 p2, (y p2 - y p1) / dist p1 p2).

Definition closing_speed (p1 p2 : Particle) : R :=
  (vx p2 - vx p1) * (normal p1 p2).1 + (vy p2 - vy p1) * (normal p1 p2).2.

Definition impulse (p1 p2 : Particle) : R :=
  2.0 * closing_speed p1 p2 / (mass p1 + mass p2).

Definition overlap (p1 p2 : Particle) : R := (radius p1 + radius p2 - dist p1 p2) / 2.

(** The pair after its collision is resolved. *)
Definition pushed1 (p1 p2 : Particle) : Particle :=
  set_v (set_xy p1 (x p1 - overlap p1 p2 * (normal p1 p2).1)
                   (y p1 - overlap p1 p2 * (normal p1 p2).2))
        (vx p1 + impulse p1 p2 * mass p2 * (normal p1 p2).1)
        (vy p1 + impulse p1 p2 * mass p2 * (normal p1 p2).2).

Definition pushed2 (p1 p2 : Particle) : Particle :=
  set_v (set_xy p2 (x p2 + overlap p1 p2 * (normal p1 p2).1)
                   (y p2 + overlap p1 p2 * (normal p1 p2).2))
        (vx p2 - impulse p1 p2 * mass p1 * (normal p1 p2).1)
        (vy p2 - impulse p1 p2 * mass p1 * (normal p1 p2).2).

(** The pairs [handle_collisions] resolves. *)
Definition colliding (p1 p2 : Particle) : Prop :=
  dist p1 p2 < radius p1 + radius p2 ∧ dist p1 p2 > EPSILON.

Lemma collide_colliding (ps : list Particle) (i j : nat) (p1 p2 : Particle) :
  ps !! i = Some p1 → ps !! j = Some p2 → mass p1 + mass p2 ≠ 0 →
  colliding p1 p2 →
  collide ps i j = Some (<[j := pushed2 p1 p2]> (<[i := pushed1 p1 p2]> ps)).
Proof.
  intros Hi Hj Hm [Hlt Hgt]. unfold collide. rewrite Hi, Hj. simpl.
  fold (dist p1 p2). pose proof EPSILON_pos.
  destruct (Rlt_dec (dist p1 p2) (radius p1 + radius p2)); [|done].
  destruct (Rgt_dec (dist p1 p2) EPSILON); [|done].
  rewrite !(checked_div_Some _ (dist p1 p2)) by lra. simpl.
  rewrite checked_div_Some by lra. simpl.
  rewrite checked_div_Some by done. done.
Qed.

Lemma collide_apart (ps : list Particle) (i j : nat) (p1 p2 : Particle) :
  ps !! i = Some p1 → ps !! j = Some p2 → ¬ colliding p1 p2 →
  collide ps i j = Some ps.
Proof.
  intros Hi Hj Hn. unfold collide. rewrite Hi, Hj. simpl. fold (dist p1 p2).
  destruct (Rlt_dec (dist p1 p2) (radius p1 + radius p2)); [|done].
  destruct (Rgt_dec (dist p1 p2) EPSILON); [|done].
  destruct Hn. by split.
Qed.

(** The radius and mass of a particle: what collisions never change. *)
Definition body (p : Particle) : R * R := (radius p, mass p).

Lemma collide_total (l ps : list Particle) (i j : nat) :
  (∀ p, p ∈ ps → 0 < mass p) → body <$> l = body <$> ps →
  (i < length ps)%nat → (j < length ps)%nat →
  ∃ l', collide l i j = Some l' ∧ body <$> l' = body <$> ps.
Proof.
  intros Hmass Hl Hi Hj.
  assert (Hll : length l = length ps)
    by (by rewrite <- (length_fmap body l), Hl, length_fmap).
  destruct (lookup_lt_is_Some_2 l i) as [p1 H1]; [lia|].
  destruct (lookup_lt_is_Some_2 l j) as [p2 H2]; [lia|].
  assert (Hpos : ∀ k p, l !! k = Some p → 0 < mass p).
  { intros k p Hk.
    assert (H : (body <$> ps) !! k = Some (body p))
      by (by rewrite <- Hl, list_lookup_fmap, Hk).
    rewrite list_lookup_fmap in H. destruct (ps !! k) as [q|] eqn:Hq; [|done].
    simpl in H. injection H as _ Hm. rewrite <- Hm.
    apply Hmass. by eapply list_elem_of_lookup_2. }
  pose proof (Hpos i p1 H1). pose proof (Hpos j p2 H2).
  destruct (Rlt_dec (dist p1 p2) (radius p1 + radius p2)) as [Hlt|Hge];
    [destruct (Rgt_dec (dist p1 p2) EPSILON) as [Hgt|Hle]|].
  - rewrite (collide_colliding l i j p1 p2) by (done || lra).
    eexists. split; [done|].
    rewrite !list_fmap_insert.
    assert (Hb1 : body (pushed1 p1 p2) = body p1) by done.
    assert (Hb2 : body (pushed2 p1 p2) = body p2) by done.
    rewrite Hb1, Hb2.
    rewrite (list_insert_id (body <$> l) i) by (by rewrite list_lookup_fmap, H1).
    rewrite list_insert_id by (by rewrite list_lookup_fmap, H2). done.
  - rewrite (collide_apart l i j p1 p2) by (done || intros [? ?]; lra). by eexists.
  - rewrite (collide_apart l i j p1 p2) by (done || intros [? ?]; lra). by eexists.
Qed.

(** [handle_collisions] never fails on particles of positive mass. *)
Lemma handle_collisions_total (ps : list Particle) :
  (∀ p, p ∈ ps → 0 < mass p) →
  ∃ ps', handle_collisions ps = Some ps' ∧ body <$> ps' = body <$> ps.
Proof.
  intros Hmass. unfold handle_collisions.
  apply (foldM_invariant _ (λ l, body <$> l = body <$> ps)); [done|].
  intros l i Hi%elem_of_seq Hl.
  assert (Hll : length l = length ps)
    by (by rewrite <- (length_fmap body l), Hl, length_fmap).
  apply (foldM_invariant _ (λ l, body <$> l = body <$> ps)); [done|].
  intros l' j Hj%elem_of_seq Hl'.
  apply collide_total; try done; lia.
Qed.

(** Without a colliding pair [handle_collisions] changes nothing. *)
Lemma handle_collisions_apart (ps : list Particle) :
  (∀ i j p1 p2, ps !! i = Some p1 → ps !! j = Some p2 → ¬ colliding p1 p2) →
  handle_collisions ps = Some ps.
Proof.
  intros Hap. unfold handle_collisions.
  destruct (foldM_invariant
              (λ ps0 i, foldM (λ ps1 j, collide ps1 i j) ps0 (seq (S i) (length ps0 - S i)))
              (λ l, l = ps) (seq 0 (length ps)) ps) as (l & Hl & ->); [done| |done].
  intros l i Hi%elem_of_seq ->.
  apply (foldM_invariant _ (λ l, l = ps)); [done|].
  intros l j Hj%elem_of_seq ->. exists ps. split; [|done].
  destruct (lookup_lt_is_Some_2 ps i) as [p1 H1]; [lia|].
  destruct (lookup_lt_is_Some_2 ps j) as [p2 H2]; [lia|].
  apply (collide_apart ps i j p1 p2 H1 H2). by eapply Hap.
Qed.

End R1CollisionFacts.

(** *** The frame of [main-R1.py] *)

Module R1StepFacts.
Import R1 R1NeighborFacts R1PassFacts R1CollisionFacts.

(** Position, velocity, radius and mass: what the SPH passes and the
    gravity loop leave alone. *)
Definition kin (p : Particle) : R * R * R * R * R * R :=
  (x p, y p, vx p, vy p, radius p, mass p).

Lemma kin_mass_pos (l ps : list Particle) :
  (∀ p, p ∈ ps → 0 < mass p) → kin <$> l = kin <$> ps → ∀ p, p ∈ l → 0 < mass p.
Proof.
  intros Hmass Hl p [k Hk]%list_elem_of_lookup.
  assert (H : (kin <$> ps) !! k = Some (kin p))
    by (by rewrite <- Hl, list_lookup_fmap, Hk).
  rewrite list_lookup_fmap in H. destruct (ps !! k) as [q|] eqn:Hq; [|done].
  simpl in H. injection H as _ _ _ _ _ Hm. rewrite <- Hm.
  apply Hmass. by eapply list_elem_of_lookup_2.
Qed.

Lemma kin_imap (g : nat → Particle → Particle) (ps : list Particle) :
  (∀ i p, kin (g i p) = kin p) → kin <$> imap g ps = kin <$> ps.
Proof.
  intros Hg. apply list_eq. intros i.
  rewrite !list_lookup_fmap, list_lookup_imap. destruct (ps !! i); simpl; [|done].
  by rewrite Hg.
Qed.

(** The passes before the integration never fail on particles of positive
    mass; they keep positions, velocities, radii and masses. *)
Lemma forces_total (ps : list Particle) :
  (∀ p, p ∈ ps → 0 < mass p) →
  ∃ ps1 ps2 ps3,
    compute_density_pressure ps (find_neighbors ps SMOOTHING_RADIUS) SMOOTHING_RADIUS = Some ps1 ∧
    compute_forces ps1 (find_neighbors ps SMOOTHING_RADIUS) SMOOTHING_RADIUS = Some ps2 ∧
    mapM (λ p, apply_force p 0 (GRAVITY * mass p)) ps2 = Some ps3 ∧
    kin <$> ps3 = kin <$> ps.
Proof.
  intros Hmass. pose proof R1_SMOOTHING_RADIUS_pos as Hh.
  pose proof (find_neighbors_valid ps SMOOTHING_RADIUS) as Hval.
  rewrite (compute_density_pressure_imap ps _ _ Hh Hval).
  set (ps1 := imap _ ps).
  assert (Hk1 : kin <$> ps1 = kin <$> ps) by (by apply kin_imap).
  destruct (compute_forces_total ps1 (find_neighbors ps SMOOTHING_RADIUS) SMOOTHING_RADIUS)
    as (ps2 & Hps2 & Hs2); [done | by unfold ps1; rewrite length_imap | |].
  { intros p Hp. pose proof (kin_mass_pos ps1 ps Hmass Hk1 p Hp). lra. }
  assert (Hk2 : kin <$> ps2 = kin <$> ps)
    by (by rewrite (strip_R1_fields kin ps2 ps1)).
  destruct (gravity_total ps2) as (ps3 & Hps3 & Hs3).
  { intros p Hp. pose proof (kin_mass_pos ps2 ps Hmass Hk2 p Hp). lra. }
  exists ps1, ps2, ps3. repeat split; try done.
  by rewrite (strip_R1_fields kin ps3 ps2).
Qed.

Lemma step_R1_total (s : Sim) (dt : R) :
  (∀ p, p ∈ particles s → 0 < mass p) →
  ∃ ps3 ps5,
    kin <$> ps3 = kin <$> particles s ∧
    handle_collisions (map (integrate (width s) (height s) dt) ps3) = Some ps5 ∧
    step_collided s dt = Some ps5 ∧
    step s dt = Some (mkSim (width s) (height s) (map damp ps5)).
Proof.
  intros Hmass. destruct (forces_total (particles s) Hmass) as (ps1 & ps2 & ps3 & H1 & H2 & H3 & Hk).
  destruct (handle_collisions_total (map (integrate (width s) (height s) dt) ps3))
    as (ps5 & H5 & _).
  { intros p (q & -> & Hq)%list_elem_of_fmap.
    pose proof (kin_mass_pos ps3 (particles s) Hmass Hk q Hq) as Hm.
    unfold integrate. by destruct (bounce _ _ _ _), (bounce _ _ _ _). }
  exists ps3, ps5. split; [done|]. split; [done|].
  assert (Hc : step_collided s dt = Some ps5).
  { unfold step_collided. rewrite H1. simpl. rewrite H2. simpl. rewrite H3. simpl. done. }
  split; [done|]. unfold step. by rewrite Hc.
Qed.

(** One axis of the boundary constraints. *)
Lemma bounce_R1_cases (rad x v dim : R) :
  (x < rad ∧ bounce rad x v dim = (rad, v * - BOUNDARY_DAMPING)) ∨
  (rad <= x ∧ dim - rad < x ∧ bounce rad x v dim = (dim - rad, v * - BOUNDARY_DAMPING)) ∨
  (rad <= x <= dim - rad ∧ bounce rad x v dim = (x, v)).
Proof.
  unfold bounce. destruct (Rlt_dec x rad) as [Hlo|Hlo]; [by left|].
  destruct (Rgt_dec x (dim - rad)) as [Hhi|Hhi].
  - right; left. repeat split; [lra | apply Hhi].
  - right; right. split; [lra | done].
Qed.

(** After the integration loop every particle is within the window,
    provided the window is at least as wide as the particle. *)
Lemma integrate_in_bounds (w h dt : R) (p : Particle) :
  2 * radius p <= w → 2 * radius p <= h →
  radius p <= x (integrate w h dt p) <= w - radius p ∧
  radius p <= y (integrate w h dt p) <= h - radius p ∧
  radius (integrate w h dt p) = radius p.
Proof.
  intros Hw Hh. unfold integrate.
  destruct (bounce_R1_cases (radius p) (x p + (vx p + ax p * dt) * dt) (vx p + ax p * dt) w)
    as [[? ->]|[(? & ? & ->)|[? ->]]];
  destruct (bounce_R1_cases (radius p) (y p + (vy p + ay p * dt) * dt) (vy p + ay p * dt) h)
    as [[? ->]|[(? & ? & ->)|[? ->]]]; simpl; lra.
Qed.

(** With a zero time step the integration loop keeps the position and
    the velocity of a particle that is within the window. *)
Lemma integrate_zero_dt (w h : R) (p : Particle) :
  radius p <= x p <= w - radius p → radius p <= y p <= h - radius p →
  kin (integrate w h 0 p) = kin p.
Proof.
  intros Hx Hy. unfold integrate.
  destruct (bounce_R1_cases (radius p) (x p + (vx p + ax p * 0) * 0) (vx p + ax p * 0) w)
    as [[? ->]|[(? & ? & ->)|[? ->]]]; try lra;
  destruct (bounce_R1_cases (radius p) (y p + (vy p + ay p * 0) * 0) (vy p + ay p * 0) h)
    as [[? ->]|[(? & ? & ->)|[? ->]]]; try lra.
  unfold kin. simpl. repeat f_equal; lra.
Qed.

End R1StepFacts.

(** *** [main-o1.py] *)

Module O1Facts.
Import O1.

(** The squared separation, the divisor, the contact normal and the
    separation speed [handle_ball_collisions] computes for a pair. *)
Definition dist_sq (bi bj : Ball) : R :=
  (x bj - x bi) * (x bj - x bi) + (y bj - y bi) * (y bj - y bi).

Definition divisor (bi bj : Ball) : R :=
  if decide (dist_sq bi bj = 0) then 0.0001 else sqrt (dist_sq bi bj).

Definition normal (bi bj : Ball) : R * R :=
  ((x bj - x bi) / divisor bi bj, (y bj - y bi) / divisor bi bj).

Definition sep_speed (bi bj : Ball) : R :=
  (vx bj - vx bi) * (normal bi bj).1 + (vy bj - vy bi) * (normal bi bj).2.

Definition overlap (bi bj : Ball) : R := (2 * BALL_RADIUS - divisor bi bj) * 0.5.

(** The velocity exchanged along the normal: zero for a separating pair. *)
Definition imp (bi bj : Ball) : R :=
  if Rlt_dec (sep_speed bi bj) 0 then - (1 + ELASTICITY) * sep_speed bi bj / 2 else 0.

Definition pushed_i (bi bj : Ball) : Ball :=
  mkBall (x bi - (normal bi bj).1 * overlap bi bj) (y bi - (normal bi bj).2 * overlap bi bj)
         (vx bi - imp bi bj * (normal bi bj).1) (vy bi - imp bi bj * (normal bi bj).2).

Definition pushed_j (bi bj : Ball) : Ball :=
  mkBall (x bj + (normal bi bj).1 * overlap bi bj) (y bj + (normal bi bj).2 * overlap bi bj)
         (vx bj + imp bi bj * (normal bi bj).1) (vy bj + imp bi bj * (normal bi bj).2).

(** The divisor is never zero: the square root of a positive number, or
    the substitute 0.0001. *)
Lemma divisor_pos (bi bj : Ball) : 0 < divisor bi bj.
Proof.
  unfold divisor. destruct (decide (dist_sq bi bj = 0)) as [|Hnz]; [lra|].
  apply sqrt_lt_R0.
  assert (Hge : 0 <= dist_sq bi bj).
  { pose proof (Rle_0_sqr (x bj - x bi)). pose proof (Rle_0_sqr (y bj - y bi)).
    unfold dist_sq, Rsqr in *. lra. }
  destruct Hge as [Hgt|Heq]; [done | by destruct Hnz].
Qed.

Lemma collide_overlapping (balls : list Ball) (i j : nat) (bi bj : Ball) :
  balls !! i = Some bi → balls !! j = Some bj →
  dist_sq bi bj < (2 * BALL_RADIUS) ^ 2 →
  collide balls i j = Some (<[j := pushed_j bi bj]> (<[i := pushed_i bi bj]> balls)).
Proof.
  intros Hi Hj Hlt. unfold collide. rewrite Hi, Hj. cbn [mbind option_bind].
  fold (dist_sq bi bj).
  destruct (Rlt_dec (dist_sq bi bj) ((2 * BALL_RADIUS) ^ 2)); [|done].
  fold (divisor bi bj). pose proof (divisor_pos bi bj).
  rewrite !(checked_div_Some _ (divisor bi bj)) by lra. cbn [mbind option_bind].
  change ((x bj - x bi) / divisor bi bj) with (normal bi bj).1.
  change ((y bj - y bi) / divisor bi bj) with (normal bi bj).2.
  fold (sep_speed bi bj). fold (overlap bi bj). unfold pushed_i, pushed_j, imp.
  destruct (Rlt_dec (sep_speed bi bj) 0).
  - rewrite checked_div_Some by lra. done.
  - do 3 f_equal; f_equal; lra.
Qed.

Lemma collide_O1_apart (balls : list Ball) (i j : nat) (bi bj : Ball) :
  balls !! i = Some bi → balls !! j = Some bj →
  ¬ dist_sq bi bj < (2 * BALL_RADIUS) ^ 2 →
  collide balls i j = Some balls.
Proof.
  intros Hi Hj Hge. unfold collide. rewrite Hi, Hj. cbn [mbind option_bind].
  fold (dist_sq bi bj).
  by destruct (Rlt_dec (dist_sq bi bj) ((2 * BALL_RADIUS) ^ 2)).
Qed.

Lemma collide_O1_total (balls : list Ball) (i j : nat) :
  (i < length balls)%nat → (j < length balls)%nat →
  ∃ balls', collide balls i j = Some balls' ∧ length balls' = length balls.
Proof.
  intros Hi Hj.
  destruct (lookup_lt_is_Some_2 balls i Hi) as [bi H1].
  destruct (lookup_lt_is_Some_2 balls j Hj) as [bj H2].
  destruct (Rlt_dec (dist_sq bi bj) ((2 * BALL_RADIUS) ^ 2)) as [Hlt|Hge].
  - rewrite (collide_overlapping balls i j bi bj H1 H2 Hlt).
    eexists. split; [done|]. by rewrite !length_insert.
  - rewrite (collide_O1_apart balls i j bi bj H1 H2 Hge). by eexists.
Qed.

(** [handle_ball_collisions] never fails. *)
Lemma handle_ball_collisions_total (balls : list Ball) :
  ∃ balls', handle_ball_collisions balls = Some balls' ∧ length balls' = length balls.
Proof.
  unfold handle_ball_collisions.
  apply (foldM_invariant _ (λ l, length l = length balls)); [done|].
  intros l i Hi%elem_of_seq Hl.
  apply (foldM_invariant _ (λ l, length l = length balls)); [done|].
  intros l' j Hj%elem_of_seq Hl'.
  destruct (collide_O1_total l' i j) as (l'' & -> & Hl''); [lia | lia |].
  exists l''. split; [done|]. lia.
Qed.

Lemma bounce_O1_cases (x v dim : R) :
  (x < BALL_RADIUS ∧ bounce x v dim = (BALL_RADIUS, - v * ELASTICITY)) ∨
  (BALL_RADIUS <= x ∧ dim - BALL_RADIUS < x ∧
     bounce x v dim = (dim - BALL_RADIUS, - v * ELASTICITY)) ∨
  (BALL_RADIUS <= x <= dim - BALL_RADIUS ∧ bounce x v dim = (x, v)).
Proof.
  unfold bounce. destruct (Rlt_dec x BALL_RADIUS) as [Hlo|Hlo]; [by left|].
  destruct (Rgt_dec x (dim - BALL_RADIUS)) as [Hhi|Hhi].
  - right; left. repeat split; [lra | apply Hhi].
  - right; right. split; [lra | done].
Qed.

Lemma handle_wall_collisions_in_bounds (balls : list Ball) (w h : R) (b : Ball) :
  2 * BALL_RADIUS <= w → 2 * BALL_RADIUS <= h →
  b ∈ handle_wall_collisions balls w h →
  BALL_RADIUS <= x b <= w - BALL_RADIUS ∧ BALL_RADIUS <= y b <= h - BALL_RADIUS.
Proof.
  intros Hw Hh (b0 & -> & _)%list_elem_of_fmap.
  destruct (bounce_O1_cases (x b0) (vx b0) w) as [[? ->]|[(? & ? & ->)|[? ->]]];
  destruct (bounce_O1_cases (y b0) (vy b0) h) as [[? ->]|[(? & ? & ->)|[? ->]]];
  simpl; lra.
Qed.

End O1Facts.

(** *** A colliding pair under a zero time step *)

Module R1PairFacts.
Import R1 R1NeighborFacts R1PassFacts R1CollisionFacts R1StepFacts.

Lemma kin_fields (p q : Particle) :
  kin p = kin q →
  x p = x q ∧ y p = y q ∧ vx p = vx q ∧ vy p = vy q ∧ radius p = radius q ∧ mass p = mass q.
Proof. unfold kin. intros [= -> -> -> -> -> ->]. done. Qed.

Lemma kin_dist (p1 p2 q1 q2 : Particle) :
  kin p1 = kin q1 → kin p2 = kin q2 → dist p1 p2 = dist q1 q2.
Proof.
  intros (H1 & H2 & _)%kin_fields (H3 & H4 & _)%kin_fields.
  unfold dist. by rewrite H1, H2, H3, H4.
Qed.

Lemma kin_colliding (p1 p2 q1 q2 : Particle) :
  kin p1 = kin q1 → kin p2 = kin q2 → colliding p1 p2 → colliding q1 q2.
Proof.
  intros Hk1 Hk2. unfold colliding. rewrite (kin_dist p1 p2 q1 q2 Hk1 Hk2).
  apply kin_fields in Hk1 as (_ & _ & _ & _ & -> & _).
  apply kin_fields in Hk2 as (_ & _ & _ & _ & -> & _). done.
Qed.

Lemma fmap_pair_inv {A B : Type} (f : A → B) (l : list A) (a b : A) :
  f <$> l = [f a; f b] → ∃ a' b', l = [a'; b'] ∧ f a' = f a ∧ f b' = f b.
Proof.
  destruct l as [|a' [|b' [|]]]; intros [= Ha Hb]. by exists a', b'.
Qed.

(** A frame with a zero time step on two colliding particles that are
    within the window: the particles keep their places up to the collision
    handling, which then pushes them apart. *)
Lemma step_zero_dt_pair (w h : R) (a b : Particle) :
  0 < mass a → 0 < mass b →
  radius a <= x a <= w - radius a → radius a <= y a <= h - radius a →
  radius b <= x b <= w - radius b → radius b <= y b <= h - radius b →
  colliding a b →
  ∃ a4 b4, kin a4 = kin a ∧ kin b4 = kin b ∧
    step (mkSim w h [a; b]) 0
    = Some (mkSim w h [damp (pushed1 a4 b4); damp (pushed2 a4 b4)]).
Proof.
  intros Hma Hmb Hxa Hya Hxb Hyb Hcol.
  destruct (step_R1_total (mkSim w h [a; b]) 0) as (ps3 & ps5 & Hk & H5 & _ & Hstep).
  { intros p [->|[->|[]%elem_of_nil]%elem_of_cons]%elem_of_cons; done. }
  cbn [particles width height] in *.
  apply fmap_pair_inv in Hk as (a3 & b3 & -> & Hka & Hkb).
  assert (Hka4 : kin (integrate w h 0 a3) = kin a).
  { rewrite <- Hka. apply kin_fields in Hka as (Hx & Hy & _ & _ & Hr & _).
    apply integrate_zero_dt; rewrite ?Hx, ?Hy, ?Hr; done. }
  assert (Hkb4 : kin (integrate w h 0 b3) = kin b).
  { rewrite <- Hkb. apply kin_fields in Hkb as (Hx & Hy & _ & _ & Hr & _).
    apply integrate_zero_dt; rewrite ?Hx, ?Hy, ?Hr; done. }
  exists (integrate w h 0 a3), (integrate w h 0 b3). split; [done|]. split; [done|].
  rewrite Hstep. do 2 f_equal.
  set (a4 := integrate w h 0 a3) in *. set (b4 := integrate w h 0 b3) in *.
  assert (Hc : collide [a4; b4] 0 1 = Some [pushed1 a4 b4; pushed2 a4 b4]).
  { rewrite (collide_colliding [a4; b4] 0 1 a4 b4); [done | done | done | |].
    - apply kin_fields in Hka4 as (_ & _ & _ & _ & _ & ->).
      apply kin_fields in Hkb4 as (_ & _ & _ & _ & _ & ->). lra.
    - by apply (kin_colliding a b a4 b4). }
  unfold handle_collisions in H5. cbn [map length seq foldM Nat.sub] in H5.
  fold a4 b4 in H5. cbn [mbind option_bind] in H5.
  rewrite Hc in H5. cbn [mbind option_bind length seq foldM Nat.sub] in H5.
  by injection H5 as <-.
Qed.

(** Two overlapping particles at x = 8 and x = 12 in an 800 x 600 window:
    a frame with a zero time step ends with the first at x = 2. *)
Lemma pair_at_wall :
  ∃ s', step (mkSim 800 600 [Particle_init 8 100; Particle_init 12 100]) 0 = Some s' ∧
    width s' = 800 ∧
    ∃ p, particles s' !! 0%nat = Some p ∧ x p = 2 ∧ radius p = 8.
Proof.
  destruct (step_zero_dt_pair 800 600 (Particle_init 8 100) (Particle_init 12 100))
    as (a4 & b4 & Hka & Hkb & Hstep);
    try (simpl; unfold PARTICLE_RADIUS; lra).
  { unfold colliding, dist. simpl.
    replace (12 - 8) with 4 by lra. replace (100 - 100) with 0 by lra.
    rewrite hypot_horizontal by lra. unfold PARTICLE_RADIUS, EPSILON. lra. }
  eexists. split; [exact Hstep|]. split; [done|]. eexists. split; [done|].
  assert (Hd : dist a4 b4 = 4).
  { rewrite (kin_dist a4 b4 _ _ Hka Hkb). unfold dist. simpl.
    replace (12 - 8) with 4 by lra. replace (100 - 100) with 0 by lra.
    apply hypot_horizontal. lra. }
  apply kin_fields in Hka as (Hxa & Hya & _ & _ & Hra & _).
  apply kin_fields in Hkb as (Hxb & Hyb & _ & _ & Hrb & _).
  simpl in Hxa, Hya, Hra, Hxb, Hyb, Hrb.
  simpl. unfold overlap, normal. simpl.
  rewrite Hd, Hxa, Hxb, Hra, Hrb. unfold PARTICLE_RADIUS. split; [field | done].
Qed.

End R1PairFacts.

(** *** A particle of [main-R1.py] with no neighbour *)

Module R1IsolatedMore.
Import R1 R1NeighborFacts R1PassFacts.

(** No other particle closer than [h]. *)
Definition isolated (ps : list Particle) (h : R) (i : nat) (p : Particle) : Prop :=
  ∀ j q, ps !! j = Some q → j ≠ i → ¬ hypot (x q - x p) (y q - y p) < h.

Lemma find_neighbors_isolated (ps : list Particle) (h : R) (i : nat) (p : Particle) :
  ps !! i = Some p → isolated ps h i p → find_neighbors ps h !! i = Some [].
Proof.
  intros Hp Hiso. rewrite (find_neighbors_lookup ps h i p Hp). f_equal.
  destruct (within h i p (enumerate_from 0 ps)) as [|[j r] l] eqn:Hw; [done|].
  assert (Hin : (j, r) ∈ within h i p (enumerate_from 0 ps)) by (rewrite Hw; left).
  apply elem_of_within in Hin as (Hne & pj & Hj & -> & Hlt).
  by destruct (Hiso j pj Hj Hne).
Qed.

(** [compute_forces] leaves the acceleration of a particle without
    neighbours as it is. *)
Lemma compute_forces_isolated (ps : list Particle) (neighbors : list (list (nat * R)))
    (h : R) (i : nat) (p : Particle) :
  0 < h → valid_neighbors (length ps) neighbors →
  (∀ p, p ∈ ps → mass p ≠ 0) →
  neighbors !! i = Some [] → ps !! i = Some p →
  ∃ ps', compute_forces ps neighbors h = Some ps' ∧ strip <$> ps' = strip <$> ps ∧
    ∃ q, ps' !! i = Some q ∧ ax q = ax p ∧ ay q = ay p.
Proof.
  intros Hh Hval Hmass Hni Hp. unfold compute_forces.
  destruct (foldM_invariant (force_body neighbors h)
              (λ l, strip <$> l = strip <$> ps ∧
                    ∃ q, l !! i = Some q ∧ ax q = ax p ∧ ay q = ay p)
              (seq 0 (length ps)) ps) as (ps' & Hps' & Hs & Hq).
  { split; [done|]. by exists p. }
  { intros l k Hk%elem_of_seq [Hl (q & Hq & Hax & Hay)].
    assert (Hll : length l = length ps)
      by (by rewrite <- (length_fmap strip l), Hl, length_fmap).
    unfold force_body.
    destruct (lookup_lt_is_Some_2 l k) as [pk Hpk]; [lia|]. rewrite Hpk. simpl.
    destruct (Hval k) as (nk & Hnk & Hnkval); [lia|]. rewrite Hnk. simpl.
    destruct (force_fold_R1_total h l pk nk (mkForces 0.0 0.0 0.0 0.0 0.0 0.0) Hh)
      as [f Hf].
    { intros jr Hjr. rewrite Hll. by apply Hnkval. }
    rewrite Hf. simpl.
    assert (Hm : mass pk ≠ 0).
    { destruct (strip_R1_lookup l ps k pk Hl Hpk) as (q' & Hq' & Hs).
      assert (mass pk = mass q') as -> by (by injection Hs).
      apply Hmass. by eapply list_elem_of_lookup_2. }
    rewrite (apply_force_Some pk) by done. simpl.
    rewrite apply_force_Some by done. simpl.
    rewrite apply_force_Some by done. simpl.
    eexists. split; [done|]. split.
    - rewrite list_fmap_insert. rewrite list_insert_id; [done|].
      by rewrite list_lookup_fmap, Hpk.
    - destruct (decide (k = i)) as [->|Hki].
      + rewrite Hq in Hpk. injection Hpk as <-.
        rewrite Hni in Hnk. injection Hnk as <-. simpl in Hf. injection Hf as <-.
        eexists. split; [apply list_lookup_insert_eq; lia|]. simpl.
        split; unfold Rdiv; lra.
      + exists q. by rewrite list_lookup_insert_ne. }
  exists ps'. split; [done|]. split; [done|]. done.
Qed.

End R1IsolatedMore.

(** *** A frame without neighbours, walls or collisions *)

Module R1FreeFacts.
Import R1 R1NeighborFacts R1PassFacts R1CollisionFacts R1StepFacts R1PairFacts R1IsolatedMore.

(** The passes before the integration give a particle without neighbours
    the acceleration of gravity and nothing else. *)
Lemma passes_isolated (ps ps1 ps2 ps3 : list Particle) (i : nat) (p : Particle) :
  (∀ q, q ∈ ps → 0 < mass q) →
  compute_density_pressure ps (find_neighbors ps SMOOTHING_RADIUS) SMOOTHING_RADIUS = Some ps1 →
  compute_forces ps1 (find_neighbors ps SMOOTHING_RADIUS) SMOOTHING_RADIUS = Some ps2 →
  mapM (λ p, apply_force p 0 (GRAVITY * mass p)) ps2 = Some ps3 →
  ps !! i = Some p → isolated ps SMOOTHING_RADIUS i p →
  ∃ p3, ps3 !! i = Some p3 ∧ kin p3 = kin p ∧ ax p3 = ax p ∧ ay p3 = ay p + GRAVITY.
Proof.
  intros Hmass H1 H2 H3 Hp Hiso. pose proof R1_SMOOTHING_RADIUS_pos as Hh.
  pose proof (find_neighbors_valid ps SMOOTHING_RADIUS) as Hval.
  pose proof (find_neighbors_isolated ps _ i p Hp Hiso) as Hni.
  set (nb := find_neighbors ps SMOOTHING_RADIUS) in *.
  rewrite (compute_density_pressure_imap ps nb _ Hh Hval) in H1. injection H1 as <-.
  set (ps1 := imap (with_density ps nb SMOOTHING_RADIUS) ps) in *.
  assert (Hp1 : ps1 !! i = Some (with_density ps nb SMOOTHING_RADIUS i p)).
  { unfold ps1. by rewrite list_lookup_imap, Hp. }
  assert (Hm1 : ∀ q, q ∈ ps1 → mass q ≠ 0).
  { intros q [k Hk]%list_elem_of_lookup. unfold ps1 in Hk.
    rewrite list_lookup_imap in Hk. destruct (ps !! k) as [q0|] eqn:Hq0; [|done].
    simpl in Hk. injection Hk as <-. simpl.
    pose proof (Hmass q0 ltac:(by eapply list_elem_of_lookup_2)). lra. }
  destruct (compute_forces_isolated ps1 nb SMOOTHING_RADIUS i
              (with_density ps nb SMOOTHING_RADIUS i p) Hh)
    as (ps2' & H2' & Hs2 & q2 & Hq2 & Hax2 & Hay2);
    [by unfold ps1; rewrite length_imap | done | done | done |].
  rewrite H2 in H2'. injection H2' as <-.
  pose proof (proj1 (mapM_Some _ _ _) H3) as Hall.
  destruct (Forall2_lookup_l _ _ _ i q2 Hall Hq2) as (p3 & Hp3 & Hg).
  exists p3. split; [done|].
  destruct (strip_R1_lookup ps2 ps1 i q2 Hs2 Hq2) as (q1 & Hq1 & Heq).
  rewrite Hp1 in Hq1. injection Hq1 as <-.
  assert (Hmq : mass q2 ≠ 0).
  { assert (mass q2 = mass p) as -> by (by injection Heq).
    pose proof (Hmass p ltac:(by eapply list_elem_of_lookup_2)). lra. }
  rewrite (apply_force_Some q2 _ _ Hmq) in Hg. injection Hg as <-.
  unfold strip, with_density in Heq. simpl in Heq.
  injection Heq as Hx Hy Hvx Hvy Hr Hm _ _.
  split; [unfold kin; simpl; by rewrite Hx, Hy, Hvx, Hvy, Hr, Hm|].
  simpl. rewrite Hax2, Hay2. simpl. split; [lra|]. field. lra.
Qed.

(** A particle after the integration loop when gravity alone acted on it
    and it met no wall. *)
Definition free_moved (dt : R) (p p4 : Particle) : Prop :=
  x p4 = x p + vx p * dt ∧ y p4 = y p + (vy p + GRAVITY * dt) * dt ∧
  vx p4 = vx p ∧ vy p4 = vy p + GRAVITY * dt ∧
  radius p4 = radius p ∧ mass p4 = mass p.

Lemma integrate_free (w h dt : R) (p p3 : Particle) :
  kin p3 = kin p → ax p3 = 0 → ay p3 = GRAVITY →
  radius p <= x p + vx p * dt <= w - radius p →
  radius p <= y p + (vy p + GRAVITY * dt) * dt <= h - radius p →
  free_moved dt p (integrate w h dt p3).
Proof.
  intros (Hx & Hy & Hvx & Hvy & Hr & Hm)%kin_fields Hax Hay Hbx Hby.
  unfold free_moved, integrate. rewrite Hx, Hy, Hvx, Hvy, Hr, Hm, Hax, Hay.
  destruct (bounce_R1_cases (radius p) (x p + (vx p + 0 * dt) * dt) (vx p + 0 * dt) w)
    as [[? ->]|[(? & ? & ->)|[? ->]]]; try lra;
  destruct (bounce_R1_cases (radius p)
              (y p + (vy p + GRAVITY * dt) * dt) (vy p + GRAVITY * dt) h)
    as [[? ->]|[(? & ? & ->)|[? ->]]]; try lra.
  simpl. repeat split; lra.
Qed.

(** A frame in which no particle has a neighbour, meets a wall or
    collides: every particle falls freely and is then damped. *)
Lemma free_frame (s : Sim) (dt : R) :
  (∀ p, p ∈ particles s →
     0 < mass p ∧ ax p = 0 ∧ ay p = 0 ∧
     radius p <= x p + vx p * dt <= width s - radius p ∧
     radius p <= y p + (vy p + GRAVITY * dt) * dt <= height s - radius p) →
  (∀ i j p q, particles s !! i = Some p → particles s !! j = Some q → i ≠ j →
     ¬ hypot (x q - x p) (y q - y p) < SMOOTHING_RADIUS) →
  (∀ i j p q, particles s !! i = Some p → particles s !! j = Some q →
     ¬ (hypot ((x q + vx q * dt) - (x p + vx p * dt))
              ((y q + (vy q + GRAVITY * dt) * dt) - (y p + (vy p + GRAVITY * dt) * dt))
          < radius p + radius q ∧
        hypot ((x q + vx q * dt) - (x p + vx p * dt))
              ((y q + (vy q + GRAVITY * dt) * dt) - (y p + (vy p + GRAVITY * dt) * dt))
          > EPSILON)) →
  ∃ ps4, step s dt = Some (mkSim (width s) (height s) (map damp ps4)) ∧
    length ps4 = length (particles s) ∧
    ∀ i p, particles s !! i = Some p → ∃ p4, ps4 !! i = Some p4 ∧ free_moved dt p p4.
Proof.
  intros Hall Hiso Hapart.
  assert (Hmass : ∀ p, p ∈ particles s → 0 < mass p) by (intros p Hp; by apply Hall).
  destruct (forces_total (particles s) Hmass) as (ps1 & ps2 & ps3 & H1 & H2 & H3 & Hk).
  assert (Hlen3 : length ps3 = length (particles s))
    by (by rewrite <- (length_fmap kin ps3), Hk, length_fmap).
  set (ps4 := map (integrate (width s) (height s) dt) ps3).
  assert (Hfree : ∀ i p, particles s !! i = Some p →
             ∃ p4, ps4 !! i = Some p4 ∧ free_moved dt p p4).
  { intros i p Hp.
    destruct (passes_isolated (particles s) ps1 ps2 ps3 i p Hmass H1 H2 H3 Hp)
      as (p3 & Hp3 & Hk3 & Hax & Hay).
    { intros j q Hq Hji. apply (Hiso i j p q Hp Hq). done. }
    destruct (Hall p ltac:(by eapply list_elem_of_lookup_2)) as (_ & Ha0 & Ha1 & Hbx & Hby).
    exists (integrate (width s) (height s) dt p3). split.
    - unfold ps4. change (map ?f ?l) with (f <$> l). by rewrite list_lookup_fmap, Hp3.
    - apply integrate_free; try done; lra. }
  assert (Hc : handle_collisions ps4 = Some ps4).
  { apply handle_collisions_apart. intros i j p1 p2 Hp1 Hp2 [Hlt Hgt].
    assert (Hi : (i < length (particles s))%nat).
    { apply lookup_lt_Some in Hp1. unfold ps4 in Hp1. rewrite length_map in Hp1. lia. }
    assert (Hj : (j < length (particles s))%nat).
    { apply lookup_lt_Some in Hp2. unfold ps4 in Hp2. rewrite length_map in Hp2. lia. }
    destruct (lookup_lt_is_Some_2 _ _ Hi) as [p Hp].
    destruct (lookup_lt_is_Some_2 _ _ Hj) as [q Hq].
    destruct (Hfree i p Hp) as (p1' & Hp1' & Hx1 & Hy1 & _ & _ & Hr1 & _).
    destruct (Hfree j q Hq) as (p2' & Hp2' & Hx2 & Hy2 & _ & _ & Hr2 & _).
    rewrite Hp1 in Hp1'. injection Hp1' as <-. rewrite Hp2 in Hp2'. injection Hp2' as <-.
    apply (Hapart i j p q Hp Hq). unfold dist in Hlt, Hgt.
    rewrite Hx1, Hy1, Hx2, Hy2, Hr1, Hr2 in Hlt. rewrite Hx1, Hy1, Hx2, Hy2 in Hgt.
    done. }
  exists ps4. split; [|split; [by unfold ps4; rewrite length_map|done]].
  unfold step, step_collided. rewrite H1. cbn [mbind option_bind].
  rewrite H2. cbn [mbind option_bind]. rewrite H3. cbn [mbind option_bind].
  fold ps4. rewrite Hc. done.
Qed.

End R1FreeFacts.

Module O1FreeFacts.
Import O1 O1Facts.

(** Without an overlapping pair [handle_ball_collisions] changes nothing. *)
Lemma handle_ball_collisions_apart (balls : list Ball) :
  (∀ i j bi bj, (i < j)%nat → balls !! i = Some bi → balls !! j = Some bj →
     ¬ dist_sq bi bj < (2 * BALL_RADIUS) ^ 2) →
  handle_ball_collisions balls = Some balls.
Proof.
  intros Hap. unfold handle_ball_collisions.
  destruct (foldM_invariant
              (λ bs i, foldM (λ bs j, collide bs i j) bs (seq (S i) (length bs - S i)))
              (λ l, l = balls) (seq 0 (length balls)) balls) as (l & Hl & ->); [done| |done].
  intros l i Hi%elem_of_seq ->.
  apply (foldM_invariant _ (λ l, l = balls)); [done|].
  intros l j Hj%elem_of_seq ->. exists balls. split; [|done].
  destruct (lookup_lt_is_Some_2 balls i) as [bi H1]; [lia|].
  destruct (lookup_lt_is_Some_2 balls j) as [bj H2]; [lia|].
  apply (collide_O1_apart balls i j bi bj H1 H2). eapply Hap; [|done|done]. lia.
Qed.

(** Within the walls [handle_wall_collisions] changes nothing. *)
Lemma handle_wall_collisions_within (balls : list Ball) (w h : R) :
  (∀ b, b ∈ balls →
     BALL_RADIUS <= x b <= w - BALL_RADIUS ∧ BALL_RADIUS <= y b <= h - BALL_RADIUS) →
  handle_wall_collisions balls w h = balls.
Proof.
  intros Hin. unfold handle_wall_collisions.
  induction balls as [|b balls IH]; [done|]. cbn [map].
  rewrite IH by (intros b' Hb'; apply Hin; by right).
  destruct (Hin b ltac:(left)) as [Hx Hy].
  destruct (bounce_O1_cases (x b) (vx b) w) as [[? ->]|[(? & ? & ->)|[? ->]]]; try lra;
  destruct (bounce_O1_cases (y b) (vy b) h) as [[? ->]|[(? & ? & ->)|[? ->]]]; try lra.
  by destruct b.
Qed.

(** A frame in which no ball overlaps another or meets a wall after its
    update is [Ball.update] on every ball. *)
Lemma free_frame_O1 (s : Sim) :
  (∀ b, b ∈ balls s →
     BALL_RADIUS <= x b + vx b <= current_width s - BALL_RADIUS ∧
     BALL_RADIUS <= y b + (vy b + GRAVITY) <= current_height s - BALL_RADIUS) →
  (∀ i j bi bj, balls s !! i = Some bi → balls s !! j = Some bj → i ≠ j →
     ¬ ((x bj + vx bj) - (x bi + vx bi)) * ((x bj + vx bj) - (x bi + vx bi))
       + ((y bj + (vy bj + GRAVITY)) - (y bi + (vy bi + GRAVITY)))
         * ((y bj + (vy bj + GRAVITY)) - (y bi + (vy bi + GRAVITY)))
       < (2 * BALL_RADIUS) ^ 2) →
  step s = Some (mkSim (current_width s) (current_height s) (map Ball_update (balls s))).
Proof.
  intros Hin Hap. unfold step.
  rewrite handle_ball_collisions_apart.
  - cbn [mbind option_bind]. do 2 f_equal. apply handle_wall_collisions_within.
    intros b' (b & -> & Hb)%list_elem_of_fmap. simpl. by apply Hin.
  - intros i j bi' bj' Hij Hi Hj.
    change (map ?f ?l) with (f <$> l) in Hi, Hj. rewrite list_lookup_fmap in Hi, Hj.
    destruct (balls s !! i) as [bi|] eqn:Hbi; [|done].
    destruct (balls s !! j) as [bj|] eqn:Hbj; [|done].
    simpl in Hi, Hj. injection Hi as <-. injection Hj as <-.
    unfold dist_sq. simpl. apply (Hap i j bi bj Hbi Hbj). lia.
Qed.

End O1FreeFacts.

(** * The claims *)

(** ** C1: positions after a frame *)

(** C1 (amended). When the window is at least two radii wide and high:
    after every frame of [combined.py] and of [main-o1.py], whose last
    stage is the boundary handling, every particle lies within
    [radius, dimension - radius] on both axes; in [main-R1.py] the same
    holds for every particle as it leaves the integration loop with its
    boundary constraints (pairwise collision handling runs after it). *)
Theorem frame_positions_in_bounds :
  (∀ (s : Combined.FluidSimulation) (dt : R),
     Combined.cell_size (Combined.sgrid s) ≠ 0 →
     2 * Combined.PARTICLE_RADIUS <= Combined.width s →
     2 * Combined.PARTICLE_RADIUS <= Combined.height s →
     ∃ s', Combined.step s dt = Some s' ∧
       Combined.width s' = Combined.width s ∧ Combined.height s' = Combined.height s ∧
       ∀ p, p ∈ Combined.particles s' →
         Combined.PARTICLE_RADIUS <= c0 (Combined.pos p)
           <= Combined.width s' - Combined.PARTICLE_RADIUS ∧
         Combined.PARTICLE_RADIUS <= c1 (Combined.pos p)
           <= Combined.height s' - Combined.PARTICLE_RADIUS) ∧
  (∀ s : O1.Sim,
     2 * O1.BALL_RADIUS <= O1.current_width s →
     2 * O1.BALL_RADIUS <= O1.current_height s →
     ∃ s', O1.step s = Some s' ∧
       O1.current_width s' = O1.current_width s ∧
       O1.current_height s' = O1.current_height s ∧
       ∀ b, b ∈ O1.balls s' →
         O1.BALL_RADIUS <= O1.x b <= O1.current_width s' - O1.BALL_RADIUS ∧
         O1.BALL_RADIUS <= O1.y b <= O1.current_height s' - O1.BALL_RADIUS) ∧
  (∀ (w h dt : R) (p : R1.Particle),
     2 * R1.radius p <= w → 2 * R1.radius p <= h →
     R1.radius p <= R1.x (R1.integrate w h dt p) <= w - R1.radius p ∧
     R1.radius p <= R1.y (R1.integrate w h dt p) <= h - R1.radius p).
Proof.
  split; [|split].
  - intros s dt Hcs Hw Hh.
    destruct (CombinedStepFacts.step_total s dt Hcs)
      as (s1 & s' & _ & Hstep & Hw' & Hh' & _ & _ & Hps).
    exists s'. split; [done|]. split; [done|]. split; [done|].
    intros p Hp. rewrite Hps in Hp. apply list_elem_of_fmap in Hp as (q & -> & _).
    rewrite CombinedStepFacts.handle_boundaries1_pos, Hw', Hh'. simpl.
    split; by apply CombinedStepFacts.bounce_in_bounds.
  - intros s Hw Hh. unfold O1.step.
    destruct (O1Facts.handle_ball_collisions_total (map O1.Ball_update (O1.balls s)))
      as (bs2 & -> & _).
    simpl. eexists. split; [done|]. simpl. split; [done|]. split; [done|].
    intros b Hb. by eapply O1Facts.handle_wall_collisions_in_bounds.
  - intros w h dt p Hw Hh.
    destruct (R1StepFacts.integrate_in_bounds w h dt p Hw Hh) as (Hx & Hy & _). done.
Qed.

(** The theorem for one particle in the middle of an 800 x 600 window. *)
Lemma frame_positions_in_bounds_witness :
  ∃ s', Combined.frame
          (Combined.mkSim 800 600 [Combined.Particle_init (V2 400 300)]
             (Combined.mkGrid Combined.SMOOTHING_RADIUS ∅)) = Some s' ∧
    ∀ p, p ∈ Combined.particles s' →
      Combined.PARTICLE_RADIUS <= c0 (Combined.pos p)
        <= Combined.width s' - Combined.PARTICLE_RADIUS ∧
      Combined.PARTICLE_RADIUS <= c1 (Combined.pos p)
        <= Combined.height s' - Combined.PARTICLE_RADIUS.
Proof.
  destruct frame_positions_in_bounds as (Hcombined & _ & _).
  destruct (Hcombined
              (Combined.mkSim 800 600 [Combined.Particle_init (V2 400 300)]
                 (Combined.mkGrid Combined.SMOOTHING_RADIUS ∅))
              Combined.TIME_STEP) as (s' & Hstep & _ & _ & Hin).
  - simpl. unfold Combined.SMOOTHING_RADIUS. lra.
  - simpl. unfold Combined.PARTICLE_RADIUS. lra.
  - simpl. unfold Combined.PARTICLE_RADIUS. lra.
  - by exists s'.
Defined.

(** C1 as stated fails.  In [combined.py] a window narrower than two radii
    (width 10) leaves the particle outside [radius, width - radius], which
    is empty.  In [main-R1.py] the collision handling runs after the
    boundary constraints: of two overlapping particles at x = 8 and x = 12
    in an 800 x 600 window, the first ends the frame at x = 2. *)
Lemma frame_positions_in_bounds_counterexample :
  (∃ s', Combined.frame
           (Combined.mkSim 10 600 [Combined.Particle_init (V2 5 300)]
              (Combined.mkGrid Combined.SMOOTHING_RADIUS ∅)) = Some s' ∧
     ∃ p, p ∈ Combined.particles s' ∧
       ¬ (Combined.PARTICLE_RADIUS <= c0 (Combined.pos p)
            <= Combined.width s' - Combined.PARTICLE_RADIUS)) ∧
  (∃ s', R1.step (R1.mkSim 800 600 [R1.Particle_init 8 100; R1.Particle_init 12 100]) 0
         = Some s' ∧
     ∃ p, R1.particles s' !! 0%nat = Some p ∧ R1.x p = 2 ∧
       ¬ (R1.radius p <= R1.x p <= R1.width s' - R1.radius p)).
Proof.
  split.
  - destruct (CombinedStepFacts.step_total
                (Combined.mkSim 10 600 [Combined.Particle_init (V2 5 300)]
                   (Combined.mkGrid Combined.SMOOTHING_RADIUS ∅)) Combined.TIME_STEP)
      as (s1 & s' & _ & Hstep & Hw' & _ & _ & Hpos & Hps).
    { simpl. unfold Combined.SMOOTHING_RADIUS. lra. }
    exists s'. split; [done|]. simpl in *.
    destruct (Combined.particles s1) as [|p1 [|]]; try done.
    eexists. split; [rewrite Hps; by left|].
    rewrite CombinedStepFacts.handle_boundaries1_pos, Hw'. simpl.
    apply CombinedStepFacts.bounce_narrow. unfold Combined.PARTICLE_RADIUS. lra.
  - destruct R1PairFacts.pair_at_wall as (s' & Hstep & Hw & p & Hp & Hx & Hr).
    exists s'. split; [done|]. exists p. split; [done|]. split; [done|].
    rewrite Hx, Hr. lra.
Qed.

(** ** C2: the direction of the pressure force *)

Module PressureFacts.
Import R1 R1NeighborFacts R1PassFacts.




End PressureFacts.





(** ** C3: a frame with a zero time step *)

(** C3 (amended). With [dt = 0] the integrator keeps every position.  A
    full frame with [dt = 0] keeps the position of every particle that is
    within [radius, dimension - radius] on both axes ([combined.py]); in
    [main-R1.py] it keeps every position when all particles are within
    the window and no pair is close enough for [handle_collisions] to
    push it apart. *)
Theorem zero_time_step_positions :
  (∀ p : Combined.Particle, Combined.pos (Combined.Particle_update p 0) = Combined.pos p) ∧
  (∀ s : Combined.FluidSimulation,
     Combined.cell_size (Combined.sgrid s) ≠ 0 →
     ∃ s', Combined.step s 0 = Some s' ∧
       ∀ i p, Combined.particles s !! i = Some p →
         Combined.PARTICLE_RADIUS <= c0 (Combined.pos p)
           <= Combined.width s - Combined.PARTICLE_RADIUS →
         Combined.PARTICLE_RADIUS <= c1 (Combined.pos p)
           <= Combined.height s - Combined.PARTICLE_RADIUS →
         ∃ p', Combined.particles s' !! i = Some p' ∧ Combined.pos p' = Combined.pos p) ∧
  (∀ s : R1.Sim,
     (∀ p, p ∈ R1.particles s →
        0 < R1.mass p ∧
        R1.radius p <= R1.x p <= R1.width s - R1.radius p ∧
        R1.radius p <= R1.y p <= R1.height s - R1.radius p) →
     (∀ i j p1 p2, R1.particles s !! i = Some p1 → R1.particles s !! j = Some p2 →
        ¬ (hypot (R1.x p2 - R1.x p1) (R1.y p2 - R1.y p1) < R1.radius p1 + R1.radius p2 ∧
           hypot (R1.x p2 - R1.x p1) (R1.y p2 - R1.y p1) > R1.EPSILON)) →
     ∃ s', R1.step s 0 = Some s' ∧
       ∀ i p, R1.particles s !! i = Some p →
         ∃ p', R1.particles s' !! i = Some p' ∧ R1.x p' = R1.x p ∧ R1.y p' = R1.y p).
Proof.
  split; [|split].
  - apply CombinedStepFacts.Particle_update_zero.
  - intros s Hcs.
    destruct (CombinedStepFacts.step_total s 0 Hcs)
      as (s1 & s' & _ & Hstep & _ & _ & _ & Hpos & Hps).
    exists s'. split; [done|]. intros i p Hp Hx Hy.
    assert (H1 : Combined.pos <$> Combined.particles s1 !! i = Some (Combined.pos p))
      by (by rewrite <- list_lookup_fmap, Hpos, list_lookup_fmap, Hp).
    destruct (Combined.particles s1 !! i) as [p1|] eqn:Hp1; [|done].
    simpl in H1. injection H1 as H1.
    exists (Combined.handle_boundaries1 (Combined.width s) (Combined.height s)
              (Combined.Particle_update p1 0)).
    split.
    + rewrite Hps. change (map ?f ?l) with (f <$> l). by rewrite list_lookup_fmap, Hp1.
    + rewrite CombinedStepFacts.handle_boundaries1_pos.
      rewrite CombinedStepFacts.Particle_update_zero, H1.
      rewrite !CombinedStepFacts.bounce_id by done. simpl. by destruct (Combined.pos p).
  - intros s Hwf Hapart.
    destruct (R1StepFacts.step_R1_total s 0) as (ps3 & ps5 & Hk & H5 & _ & Hstep).
    { intros p Hp. by apply Hwf. }
    set (ps4 := map (R1.integrate (R1.width s) (R1.height s) 0) ps3) in *.
    assert (Hk4 : R1StepFacts.kin <$> ps4 = R1StepFacts.kin <$> R1.particles s).
    { rewrite <- Hk. unfold ps4. change (map ?f ?l) with (f <$> l).
      rewrite <- list_fmap_compose. apply list_fmap_ext. intros k q Hq. simpl.
      assert (Hq' : (R1StepFacts.kin <$> R1.particles s) !! k = Some (R1StepFacts.kin q))
        by (by rewrite <- Hk, list_lookup_fmap, Hq).
      rewrite list_lookup_fmap in Hq'.
      destruct (R1.particles s !! k) as [p|] eqn:Hp; [|done].
      simpl in Hq'. apply (inj Some) in Hq'.
      destruct (Hwf p) as (_ & Hx & Hy); [by eapply list_elem_of_lookup_2|].
      apply R1PairFacts.kin_fields in Hq' as (Hqx & Hqy & _ & _ & Hqr & _).
      apply R1StepFacts.integrate_zero_dt; by rewrite <- ?Hqx, <- ?Hqy, <- ?Hqr. }
    assert (Hlook : ∀ k q, ps4 !! k = Some q →
              ∃ p, R1.particles s !! k = Some p ∧ R1StepFacts.kin q = R1StepFacts.kin p).
    { intros k q Hq.
      assert (Hq' : (R1StepFacts.kin <$> R1.particles s) !! k = Some (R1StepFacts.kin q))
        by (by rewrite <- Hk4, list_lookup_fmap, Hq).
      rewrite list_lookup_fmap in Hq'.
      destruct (R1.particles s !! k) as [p|]; [|done].
      exists p. split; [done|]. symmetry. by apply (inj Some). }
    rewrite R1CollisionFacts.handle_collisions_apart in H5.
    + injection H5 as <-. eexists. split; [exact Hstep|].
      intros i p Hp. simpl.
      assert (Hq : (R1StepFacts.kin <$> ps4) !! i = Some (R1StepFacts.kin p))
        by (by rewrite Hk4, list_lookup_fmap, Hp).
      rewrite list_lookup_fmap in Hq. destruct (ps4 !! i) as [q|] eqn:Hq4; [|done].
      simpl in Hq. apply (inj Some) in Hq.
      apply R1PairFacts.kin_fields in Hq as (Hqx & Hqy & _).
      exists (R1.damp q). change (map ?f ?l) with (f <$> l).
      rewrite list_lookup_fmap, Hq4. done.
    + intros i j q1 q2 Hq1 Hq2 Hcol.
      destruct (Hlook i q1 Hq1) as (p1 & Hp1 & Hk1).
      destruct (Hlook j q2 Hq2) as (p2 & Hp2 & Hk2).
      apply (Hapart i j p1 p2 Hp1 Hp2).
      by apply (R1PairFacts.kin_colliding q1 q2 p1 p2).
Qed.

(** The theorem for one particle in the middle of an 800 x 600 window. *)
Lemma zero_time_step_positions_witness :
  ∃ s', Combined.step
          (Combined.mkSim 800 600 [Combined.Particle_init (V2 400 300)]
             (Combined.mkGrid Combined.SMOOTHING_RADIUS ∅)) 0 = Some s' ∧
    ∃ p', Combined.particles s' !! 0%nat = Some p' ∧ Combined.pos p' = V2 400 300.
Proof.
  destruct zero_time_step_positions as (_ & Hcombined & _).
  destruct (Hcombined
              (Combined.mkSim 800 600 [Combined.Particle_init (V2 400 300)]
                 (Combined.mkGrid Combined.SMOOTHING_RADIUS ∅)))
    as (s' & Hstep & Hkeep).
  - simpl. unfold Combined.SMOOTHING_RADIUS. lra.
  - exists s'. split; [done|].
    apply (Hkeep 0%nat (Combined.Particle_init (V2 400 300))); [done | |];
      simpl; unfold Combined.PARTICLE_RADIUS; lra.
Defined.

(** C3 as stated fails.  In [combined.py] a particle left of the lower
    bound (x = 0, as the constructor of [FluidSimulation] may place it) is
    moved to x = 8 by the boundary handling of a frame with [dt = 0].  In
    [main-R1.py] two overlapping particles at x = 8 and x = 12 are pushed
    apart by the collision handling of such a frame: the first ends at
    x = 2. *)
Lemma zero_time_step_positions_counterexample :
  (∃ s', Combined.step
           (Combined.mkSim 800 600 [Combined.Particle_init (V2 0 300)]
              (Combined.mkGrid Combined.SMOOTHING_RADIUS ∅)) 0 = Some s' ∧
     ∃ p', Combined.particles s' !! 0%nat = Some p' ∧
       Combined.pos p' = V2 8 300 ∧ Combined.pos p' ≠ V2 0 300) ∧
  (∃ s', R1.step (R1.mkSim 800 600 [R1.Particle_init 8 100; R1.Particle_init 12 100]) 0
         = Some s' ∧
     ∃ p', R1.particles s' !! 0%nat = Some p' ∧ R1.x p' = 2 ∧ R1.x p' ≠ 8).
Proof.
  split.
  - destruct (CombinedStepFacts.step_total
                (Combined.mkSim 800 600 [Combined.Particle_init (V2 0 300)]
                   (Combined.mkGrid Combined.SMOOTHING_RADIUS ∅)) 0)
      as (s1 & s' & _ & Hstep & _ & _ & _ & Hpos & Hps).
    { simpl. unfold Combined.SMOOTHING_RADIUS. lra. }
    exists s'. split; [done|]. simpl in *.
    destruct (Combined.particles s1) as [|p1 [|]]; try done.
    injection Hpos as Hpos. eexists. split; [by rewrite Hps|].
    rewrite CombinedStepFacts.handle_boundaries1_pos.
    rewrite CombinedStepFacts.Particle_update_zero, Hpos. simpl.
    unfold Combined.bounce, Combined.PARTICLE_RADIUS.
    destruct (Rlt_dec 0 8); [|lra].
    destruct (Rlt_dec 300 8); [lra|]. destruct (Rgt_dec 300 (600 - 8)); [lra|].
    simpl. split; [done|]. intros [= H]. lra.
  - destruct R1PairFacts.pair_at_wall as (s' & Hstep & _ & p' & Hp' & Hx & _).
    exists s'. split; [done|]. exists p'. split; [done|]. split; [done|]. lra.
Qed.

(** ** C4: the density pass *)

Module LoneFacts.
Import Combined GridFacts NeighborFacts DensityFacts.

(** The only candidate of a lone particle is itself. *)
Lemma get_neighbors_lone (sg : SpatialGrid) (p : Particle) :
  grid_of sg [p] → get_neighbors sg (pos p) = Some [0%nat].
Proof.
  intros Hg. destruct (get_neighbors_cells sg [p] (pos p) Hg) as (ids & Hget & -> & _).
  rewrite Hget. f_equal. destruct Hg as [Hcs Hlook].
  unfold block, offsets. cbn [mbind list_bind mret list_ret app map concat fst snd].
  rewrite !Hlook. cbn [bucket]. rewrite (cell_of_Some _ _ Hcs).
  repeat match goal with
         | |- context [decide (Some ?a = Some ?b)] =>
             first [ rewrite (decide_False (P := Some a = Some b)) by (intros [=]; lia)
                   | rewrite (decide_True (P := Some a = Some b)) by (do 2 f_equal; lia) ]
         end.
  done.
Qed.

Lemma density_of_lone (sg : SpatialGrid) (p : Particle) :
  grid_of sg [p] → density_of sg [p] p = poly6 0 SMOOTHING_RADIUS.
Proof.
  intros Hg. unfold density_of. rewrite (get_neighbors_lone sg p Hg).
  unfold neighbor_positions, kernel_sum. simpl. rewrite norm_self. lra.
Qed.

Lemma density_of_ge (sg : SpatialGrid) (ps : list Particle) (i : nat) (x : Particle) :
  grid_of sg ps → ps !! i = Some x → poly6 0 SMOOTHING_RADIUS <= density_of sg ps x.
Proof.
  intros Hg Hx. unfold density_of.
  destruct (get_neighbors_cells sg ps (pos x) Hg) as (ids & Hget & _ & _).
  rewrite Hget. simpl.
  pose proof (get_neighbors_self sg ps i x ids Hg Hx Hget) as Hi.
  assert (Hin : pos x ∈ neighbor_positions ps ids).
  { unfold neighbor_positions. apply list_elem_of_omap. exists i. by rewrite Hx. }
  pose proof (kernel_sum_self (pos x) _ 0 Hin). lra.
Qed.

(** The kernel at distance zero for the smoothing radius 30 is far below
    a tenth of the rest density. *)
Lemma poly6_origin_small : poly6 0 SMOOTHING_RADIUS < 1.
Proof.
  unfold poly6, SMOOTHING_RADIUS. destruct (Rlt_dec 0 30); [|lra].
  pose proof PI2_3_2 as Hpi. assert (Hpi3 : 3 < PI) by lra.
  replace (315 / (64 * PI * 30 ^ 9) * (30 ^ 2 - 0 ^ 2) ^ 3)
    with (315 / (64 * 27000) / PI) by (field; lra).
  apply (Rmult_lt_reg_r PI); [lra|].
  unfold Rdiv at 1. rewrite Rmult_assoc, Rinv_l by lra. lra.
Qed.

End LoneFacts.

Module R1DensityFacts.
Import R1 R1NeighborFacts R1PassFacts.

(** A particle with no other particle closer than [h] has no neighbour. *)
Lemma within_isolated (h : R) (i : nat) (pi : Particle) (ps : list Particle) :
  (∀ j q, ps !! j = Some q → j ≠ i → ¬ dist pi q < h) →
  within h i pi (enumerate_from 0 ps) = [].
Proof.
  intros Hfar. destruct (within h i pi (enumerate_from 0 ps)) as [|[j r] l] eqn:Hw; [done|].
  assert (Hin : (j, r) ∈ within h i pi (enumerate_from 0 ps)) by (rewrite Hw; left).
  apply elem_of_within in Hin as (Hne & pj & Hj & -> & Hlt).
  by destruct (Hfar j pj Hj Hne).
Qed.

End R1DensityFacts.

(** C4 (amended). In [main-R1.py] the density pass gives every particle
    the sum of mass(j) * poly6(r_ij, h) over the other particles closer
    than [h], floored at a tenth of the rest density; a particle with no
    such neighbour receives exactly the floor, which is positive.  In
    [combined.py] the density is the sum of poly6(r_ij, h) over the
    candidates of the 3x3 block, the particle itself included, with no
    mass factor and no floor: it is at least poly6(0, h), which is
    positive. *)
Theorem density_pass_floor :
  (∀ (ps : list R1.Particle) (h : R),
     0 < h →
     ∃ ps', R1.compute_density_pressure ps (R1.find_neighbors ps h) h = Some ps' ∧
       ∀ i p, ps !! i = Some p →
         ∃ p', ps' !! i = Some p' ∧
           R1.density p'
             = Rmax (R1PassFacts.mass_kernel_sum ps h 0
                       (R1NeighborFacts.within h i p (enumerate_from 0 ps)))
                    (R1.REST_DENSITY * 0.1) ∧
           0 < R1.REST_DENSITY * 0.1 <= R1.density p' ∧
           ((∀ j q, ps !! j = Some q → j ≠ i → ¬ R1NeighborFacts.dist p q < h) →
            R1.density p' = R1.REST_DENSITY * 0.1)) ∧
  (∀ s : Combined.FluidSimulation,
     Combined.cell_size (Combined.sgrid s) ≠ 0 →
     ∃ s', Combined.update_physics s = Some s' ∧
       ∀ i p, Combined.particles s !! i = Some p →
         ∃ p', Combined.particles s' !! i = Some p' ∧
           Combined.density p'
             = DensityFacts.density_of (Combined.sgrid s') (Combined.particles s) p ∧
           0 < poly6 0 Combined.SMOOTHING_RADIUS <= Combined.density p').
Proof.
  split.
  - intros ps h Hh.
    rewrite (R1PassFacts.compute_density_pressure_imap ps _ h Hh
               (R1PassFacts.find_neighbors_valid ps h)).
    eexists. split; [done|]. intros i p Hp.
    rewrite list_lookup_imap, Hp. simpl. eexists. split; [done|].
    unfold R1PassFacts.with_density. simpl.
    rewrite (R1NeighborFacts.find_neighbors_lookup ps h i p Hp). simpl.
    split; [done|]. split.
    + split; [unfold R1.REST_DENSITY; lra | apply Rmax_r].
    + intros Hfar. rewrite (R1DensityFacts.within_isolated h i p ps Hfar). simpl.
      apply Rmax_right. unfold R1.REST_DENSITY. lra.
  - intros s Hcs.
    destruct (ForceFacts.update_physics_total s Hcs)
      as (s' & Hs' & _ & _ & _ & Hg & _ & _ & Hden).
    exists s'. split; [done|]. intros i p Hp.
    assert (H : Combined.density <$> Combined.particles s' !! i
                = Some (DensityFacts.density_of (Combined.sgrid s') (Combined.particles s) p))
      by (by rewrite <- list_lookup_fmap, Hden, list_lookup_fmap, Hp).
    destruct (Combined.particles s' !! i) as [p'|]; [|done].
    simpl in H. injection H as H. exists p'. split; [done|]. split; [done|].
    rewrite H. split.
    + apply poly6_pos. pose proof DensityFacts.SMOOTHING_RADIUS_pos. lra.
    + by apply (LoneFacts.density_of_ge _ _ i).
Qed.

(** The theorem for a lone particle of [main-R1.py]: it receives the
    floor, 100. *)
Lemma density_pass_floor_witness :
  ∃ ps', R1.compute_density_pressure [R1.Particle_init 100 100]
           (R1.find_neighbors [R1.Particle_init 100 100] R1.SMOOTHING_RADIUS)
           R1.SMOOTHING_RADIUS = Some ps' ∧
    ∃ p', ps' !! 0%nat = Some p' ∧ R1.density p' = R1.REST_DENSITY * 0.1.
Proof.
  destruct density_pass_floor as (HR1 & _).
  destruct (HR1 [R1.Particle_init 100 100] R1.SMOOTHING_RADIUS) as (ps' & Hps' & Hall).
  - unfold R1.SMOOTHING_RADIUS. lra.
  - exists ps'. split; [done|].
    destruct (Hall 0%nat (R1.Particle_init 100 100) eq_refl) as (p' & Hp' & _ & _ & Hiso).
    exists p'. split; [done|]. apply Hiso.
    intros [|j] q Hq Hne; [done|]. by destruct j.
Defined.

(** C4 as stated fails in [combined.py], which has no floor: a lone
    particle receives the density poly6(0, 30), below 1, and not a tenth
    of the rest density (30). *)
Lemma density_pass_floor_counterexample :
  ∃ s', Combined.update_physics
          (Combined.mkSim 800 600 [Combined.Particle_init (V2 400 300)]
             (Combined.mkGrid Combined.SMOOTHING_RADIUS ∅)) = Some s' ∧
    ∃ p', Combined.particles s' !! 0%nat = Some p' ∧
      Combined.density p' = poly6 0 Combined.SMOOTHING_RADIUS ∧
      Combined.density p' < 1 ∧
      Combined.density p' ≠ Combined.REST_DENSITY * 0.1.
Proof.
  destruct (ForceFacts.update_physics_total
              (Combined.mkSim 800 600 [Combined.Particle_init (V2 400 300)]
                 (Combined.mkGrid Combined.SMOOTHING_RADIUS ∅)))
    as (s' & Hs' & _ & _ & _ & Hg & _ & _ & Hden).
  { simpl. unfold Combined.SMOOTHING_RADIUS. lra. }
  exists s'. split; [done|]. cbn [Combined.particles] in Hg, Hden.
  rewrite (list_fmap_singleton (DensityFacts.density_of _ _)) in Hden.
  rewrite (LoneFacts.density_of_lone _ _ Hg) in Hden.
  destruct (Combined.particles s') as [|p' [|]]; try done.
  injection Hden as Hden. exists p'. split; [done|]. split; [done|].
  pose proof LoneFacts.poly6_origin_small. unfold Combined.REST_DENSITY.
  split; lra.
Qed.

(** ** C5: the impulse of a pairwise collision *)

(** C5 (amended). In [main-o1.py], for every overlapping pair the
    velocities change only when the pair is approaching (separation speed
    negative), by the impulse -(1 + elasticity) * speed / (1/m_i + 1/m_j)
    along the normal, all balls having unit mass; a separating pair keeps
    its velocities.  In [main-R1.py], every pair that
    [handle_collisions] resolves receives the velocity change
    2 * speed / (m_1 + m_2), scaled by the other particle's mass,
    whatever the sign of the speed. *)
Theorem collision_impulse :
  (∀ (balls : list O1.Ball) (i j : nat) (bi bj : O1.Ball),
     balls !! i = Some bi → balls !! j = Some bj →
     O1Facts.dist_sq bi bj < (2 * O1.BALL_RADIUS) ^ 2 →
     ∃ bi' bj', O1.collide balls i j = Some (<[j := bj']> (<[i := bi']> balls)) ∧
       (O1Facts.sep_speed bi bj < 0 →
          O1.vx bi' = O1.vx bi
            - (- (1 + O1.ELASTICITY) * O1Facts.sep_speed bi bj / (1 / 1 + 1 / 1))
              * (O1Facts.normal bi bj).1 ∧
          O1.vy bi' = O1.vy bi
            - (- (1 + O1.ELASTICITY) * O1Facts.sep_speed bi bj / (1 / 1 + 1 / 1))
              * (O1Facts.normal bi bj).2 ∧
          O1.vx bj' = O1.vx bj
            + (- (1 + O1.ELASTICITY) * O1Facts.sep_speed bi bj / (1 / 1 + 1 / 1))
              * (O1Facts.normal bi bj).1 ∧
          O1.vy bj' = O1.vy bj
            + (- (1 + O1.ELASTICITY) * O1Facts.sep_speed bi bj / (1 / 1 + 1 / 1))
              * (O1Facts.normal bi bj).2) ∧
       (0 <= O1Facts.sep_speed bi bj →
          O1.vx bi' = O1.vx bi ∧ O1.vy bi' = O1.vy bi ∧
          O1.vx bj' = O1.vx bj ∧ O1.vy bj' = O1.vy bj)) ∧
  (∀ (ps : list R1.Particle) (i j : nat) (p1 p2 : R1.Particle),
     ps !! i = Some p1 → ps !! j = Some p2 → R1.mass p1 + R1.mass p2 ≠ 0 →
     R1CollisionFacts.colliding p1 p2 →
     ∃ p1' p2', R1.collide ps i j = Some (<[j := p2']> (<[i := p1']> ps)) ∧
       R1.vx p1' = R1.vx p1
         + 2 * R1CollisionFacts.closing_speed p1 p2 / (R1.mass p1 + R1.mass p2)
           * R1.mass p2 * (R1CollisionFacts.normal p1 p2).1 ∧
       R1.vy p1' = R1.vy p1
         + 2 * R1CollisionFacts.closing_speed p1 p2 / (R1.mass p1 + R1.mass p2)
           * R1.mass p2 * (R1CollisionFacts.normal p1 p2).2 ∧
       R1.vx p2' = R1.vx p2
         - 2 * R1CollisionFacts.closing_speed p1 p2 / (R1.mass p1 + R1.mass p2)
           * R1.mass p1 * (R1CollisionFacts.normal p1 p2).1 ∧
       R1.vy p2' = R1.vy p2
         - 2 * R1CollisionFacts.closing_speed p1 p2 / (R1.mass p1 + R1.mass p2)
           * R1.mass p1 * (R1CollisionFacts.normal p1 p2).2).
Proof.
  split.
  - intros balls i j bi bj Hi Hj Hlt.
    exists (O1Facts.pushed_i bi bj), (O1Facts.pushed_j bi bj).
    split; [by apply O1Facts.collide_overlapping|].
    unfold O1Facts.pushed_i, O1Facts.pushed_j, O1Facts.imp. simpl. split.
    + intros Hs. destruct (Rlt_dec (O1Facts.sep_speed bi bj) 0); [|lra].
      replace (1 / 1 + 1 / 1) with 2 by lra. done.
    + intros Hs. destruct (Rlt_dec (O1Facts.sep_speed bi bj) 0); [lra|].
      repeat split; lra.
  - intros ps i j p1 p2 Hi Hj Hm Hcol.
    exists (R1CollisionFacts.pushed1 p1 p2), (R1CollisionFacts.pushed2 p1 p2).
    split; [by apply R1CollisionFacts.collide_colliding|].
    unfold R1CollisionFacts.pushed1, R1CollisionFacts.pushed2, R1CollisionFacts.impulse.
    simpl. replace 2.0 with 2 by lra. done.
Qed.

(** The theorem for two balls of [main-o1.py] 10 apart, the first moving
    toward the second at speed 3 (separation speed -3): the impulse
    1.9 * 3 / 2 = 2.85 leaves them with the velocities 0.15 and 2.85.  For
    the same balls moving apart at speeds 1 (separation speed 2): the
    velocities are unchanged.  And for two particles of [main-R1.py] in
    the first position: the velocities 3 and 0 are exchanged. *)
Lemma collision_impulse_witness :
  (∃ bi' bj',
     O1.collide [O1.mkBall 100 100 3 0; O1.mkBall 110 100 0 0] 0 1
     = Some (<[1%nat := bj']> (<[0%nat := bi']> [O1.mkBall 100 100 3 0; O1.mkBall 110 100 0 0])) ∧
     O1Facts.sep_speed (O1.mkBall 100 100 3 0) (O1.mkBall 110 100 0 0) = -3 ∧
     O1.vx bi' = 0.15 ∧ O1.vy bi' = 0 ∧ O1.vx bj' = 2.85 ∧ O1.vy bj' = 0) ∧
  (∃ bi' bj',
     O1.collide [O1.mkBall 100 100 (-1) 0; O1.mkBall 110 100 1 0] 0 1
     = Some (<[1%nat := bj']> (<[0%nat := bi']>
               [O1.mkBall 100 100 (-1) 0; O1.mkBall 110 100 1 0])) ∧
     O1Facts.sep_speed (O1.mkBall 100 100 (-1) 0) (O1.mkBall 110 100 1 0) = 2 ∧
     O1.vx bi' = -1 ∧ O1.vy bi' = 0 ∧ O1.vx bj' = 1 ∧ O1.vy bj' = 0) ∧
  (∃ p1' p2',
     R1.collide [R1.mkParticle 100 100 3 0 0 0 8 1 1000 0;
                 R1.mkParticle 110 100 0 0 0 0 8 1 1000 0] 0 1
     = Some (<[1%nat := p2']> (<[0%nat := p1']>
               [R1.mkParticle 100 100 3 0 0 0 8 1 1000 0;
                R1.mkParticle 110 100 0 0 0 0 8 1 1000 0])) ∧
     R1CollisionFacts.closing_speed (R1.mkParticle 100 100 3 0 0 0 8 1 1000 0)
                                    (R1.mkParticle 110 100 0 0 0 0 8 1 1000 0) = -3 ∧
     R1.vx p1' = 0 ∧ R1.vy p1' = 0 ∧ R1.vx p2' = 3 ∧ R1.vy p2' = 0).
Proof.
  destruct collision_impulse as (Hballs & Hparts).
  assert (Hsq : ∀ vxi vxj,
            O1Facts.dist_sq (O1.mkBall 100 100 vxi 0) (O1.mkBall 110 100 vxj 0) = 10 * 10).
  { intros vxi vxj. unfold O1Facts.dist_sq. simpl. lra. }
  assert (Hn : ∀ vxi vxj,
            O1Facts.normal (O1.mkBall 100 100 vxi 0) (O1.mkBall 110 100 vxj 0) = (1, 0)).
  { intros vxi vxj. unfold O1Facts.normal, O1Facts.divisor. rewrite Hsq.
    destruct (decide (10 * 10 = 0)); [lra|]. rewrite sqrt_square by lra.
    simpl. f_equal; lra. }
  assert (Hs : ∀ vxi vxj,
            O1Facts.sep_speed (O1.mkBall 100 100 vxi 0) (O1.mkBall 110 100 vxj 0)
            = vxj - vxi).
  { intros vxi vxj. unfold O1Facts.sep_speed. rewrite Hn. simpl. lra. }
  split; [|split].
  - destruct (Hballs [O1.mkBall 100 100 3 0; O1.mkBall 110 100 0 0] 0%nat 1%nat
                (O1.mkBall 100 100 3 0) (O1.mkBall 110 100 0 0) eq_refl eq_refl)
      as (bi' & bj' & Hc & Happ & _).
    + rewrite Hsq. unfold O1.BALL_RADIUS. lra.
    + exists bi', bj'. split; [done|]. rewrite Hs in *. split; [lra|].
      destruct Happ as (Hxi & Hyi & Hxj & Hyj); [lra|].
      rewrite Hn in *. rewrite Hxi, Hyi, Hxj, Hyj. simpl.
      unfold O1.ELASTICITY. repeat split; lra.
  - destruct (Hballs [O1.mkBall 100 100 (-1) 0; O1.mkBall 110 100 1 0] 0%nat 1%nat
                (O1.mkBall 100 100 (-1) 0) (O1.mkBall 110 100 1 0) eq_refl eq_refl)
      as (bi' & bj' & Hc & _ & Hsep).
    + rewrite Hsq. unfold O1.BALL_RADIUS. lra.
    + exists bi', bj'. split; [done|]. rewrite Hs in *. split; [lra|].
      destruct Hsep as (Hxi & Hyi & Hxj & Hyj); [lra|].
      rewrite Hxi, Hyi, Hxj, Hyj. done.
  - set (p1 := R1.mkParticle 100 100 3 0 0 0 8 1 1000 0).
    set (p2 := R1.mkParticle 110 100 0 0 0 0 8 1 1000 0).
    assert (Hd : R1NeighborFacts.dist p1 p2 = 10).
    { unfold R1NeighborFacts.dist. simpl.
      replace (110 - 100) with 10 by lra. replace (100 - 100) with 0 by lra.
      apply hypot_horizontal. lra. }
    assert (Hnr : R1CollisionFacts.normal p1 p2 = (1, 0)).
    { unfold R1CollisionFacts.normal. rewrite Hd. simpl. f_equal; lra. }
    assert (Hcs : R1CollisionFacts.closing_speed p1 p2 = -3).
    { unfold R1CollisionFacts.closing_speed. rewrite Hnr. simpl. lra. }
    destruct (Hparts [p1; p2] 0%nat 1%nat p1 p2 eq_refl eq_refl)
      as (p1' & p2' & Hc & Hx1 & Hy1 & Hx2 & Hy2).
    + simpl. lra.
    + unfold R1CollisionFacts.colliding. rewrite Hd. simpl.
      unfold R1.PARTICLE_RADIUS, R1.EPSILON. lra.
    + exists p1', p2'. split; [done|]. split; [done|].
      rewrite Hx1, Hy1, Hx2, Hy2, Hcs, Hnr. simpl. repeat split; lra.
Defined.

(** C5 as stated fails in [main-R1.py]: two overlapping particles moving
    apart (velocities -1 and +1 along the line between them) have their
    velocities exchanged by [handle_collisions]. *)
Lemma collision_impulse_counterexample :
  0 < R1CollisionFacts.closing_speed
        (R1.mkParticle 100 100 (-1) 0 0 0 8 1 1000 0)
        (R1.mkParticle 110 100 1 0 0 0 8 1 1000 0) ∧
  ∃ ps', R1.handle_collisions
           [R1.mkParticle 100 100 (-1) 0 0 0 8 1 1000 0;
            R1.mkParticle 110 100 1 0 0 0 8 1 1000 0] = Some ps' ∧
    ∃ p1', ps' !! 0%nat = Some p1' ∧ R1.vx p1' = 1.
Proof.
  set (p1 := R1.mkParticle 100 100 (-1) 0 0 0 8 1 1000 0).
  set (p2 := R1.mkParticle 110 100 1 0 0 0 8 1 1000 0).
  assert (Hd : R1NeighborFacts.dist p1 p2 = 10).
  { unfold R1NeighborFacts.dist. simpl.
    replace (110 - 100) with 10 by lra. replace (100 - 100) with 0 by lra.
    apply hypot_horizontal. lra. }
  assert (Hs : R1CollisionFacts.closing_speed p1 p2 = 2).
  { unfold R1CollisionFacts.closing_speed, R1CollisionFacts.normal. rewrite Hd. simpl. field. }
  split; [rewrite Hs; lra|].
  assert (Hc : R1.collide [p1; p2] 0 1
               = Some [R1CollisionFacts.pushed1 p1 p2; R1CollisionFacts.pushed2 p1 p2]).
  { rewrite (R1CollisionFacts.collide_colliding [p1; p2] 0 1 p1 p2); [done | done | done | |].
    - simpl. lra.
    - unfold R1CollisionFacts.colliding. rewrite Hd. simpl. unfold R1.EPSILON. lra. }
  unfold R1.handle_collisions. cbn [length seq foldM Nat.sub].
  rewrite Hc. cbn [mbind option_bind length seq foldM Nat.sub].
  eexists. split; [done|]. eexists. split; [done|].
  simpl. unfold R1CollisionFacts.impulse. rewrite Hs.
  unfold R1CollisionFacts.normal. rewrite Hd. simpl. lra.
Qed.

(** ** C6: resize *)






(** ** C7: neighbour candidates *)



(** ** C8: the kernels outside and inside their support *)

(** C8. Outside the support ([r >= h]) each of the six kernel functions
    returns exactly 0, without evaluating any division; inside it
    ([0 <= r < h]) the poly6 kernel returns 315/(64 pi h^9) (h^2 - r^2)^3,
    which is nonnegative. *)
Theorem kernels_vanish_outside_support (r h : R) :
  (h <= r →
     Combined.poly6_kernel r h = Some 0 ∧
     Combined.spiky_gradient r h = Some 0 ∧
     Combined.viscosity_laplacian r h = Some 0 ∧
     R1.sph_kernel r h = Some 0 ∧
     R1.sph_kernel_derivative r h = Some 0 ∧
     R1.sph_viscosity_kernel r h = Some 0) ∧
  (0 <= r < h →
     Combined.poly6_kernel r h = Some (315 / (64 * PI * h ^ 9) * (h ^ 2 - r ^ 2) ^ 3) ∧
     R1.sph_kernel r h = Some (315 / (64 * PI * h ^ 9) * (h ^ 2 - r ^ 2) ^ 3) ∧
     0 <= 315 / (64 * PI * h ^ 9) * (h ^ 2 - r ^ 2) ^ 3).
Proof.
  split.
  - intros Hrh.
    unfold Combined.poly6_kernel, Combined.spiky_gradient,
      Combined.viscosity_laplacian, R1.sph_kernel,
      R1.sph_kernel_derivative, R1.sph_viscosity_kernel.
    destruct (Rlt_dec r h) as [Hlt|_]; [lra|].
    destruct (Rlt_dec r R1.EPSILON); done.
  - intros [Hr Hrh].
    assert (Hh : 0 < h) by lra.
    pose proof (poly6_scale_nonzero h Hh) as Hnz.
    unfold Combined.poly6_kernel, R1.sph_kernel.
    destruct (Rlt_dec r h) as [_|Hn]; [|lra].
    rewrite (checked_div_Some _ _ Hnz). simpl.
    split; [done|]. split; [done|].
    assert (0 < PI) by apply PI_RGT_0.
    assert (0 < h ^ 9) by (apply pow_lt; lra).
    assert (0 <= h ^ 2 - r ^ 2) by nra.
    assert (0 <= (h ^ 2 - r ^ 2) ^ 3) by (apply pow_le; lra).
    apply Rmult_le_pos; [|done].
    apply Rlt_le, Rdiv_lt_0_compat; nra.
Qed.

(** The theorem at [r = 2, h = 1] (outside) and [r = 1, h = 2] (inside). *)
Lemma kernels_vanish_outside_support_witness :
  Combined.poly6_kernel 2 1 = Some 0 ∧
  R1.sph_viscosity_kernel 2 1 = Some 0 ∧
  Combined.poly6_kernel 1 2 = Some (315 / (64 * PI * 2 ^ 9) * (2 ^ 2 - 1 ^ 2) ^ 3).
Proof.
  destruct (kernels_vanish_outside_support 2 1) as [Hout _].
  destruct (kernels_vanish_outside_support 1 2) as [_ Hin].
  destruct Hout as (H1 & _ & _ & _ & _ & H6); [lra|].
  destruct Hin as (H7 & _); [lra|].
  done.
Defined.

(** ** C9: no division by zero *)

(** C9. On every state, coincident particles included, the force pass of
    each SPH variant and the collision handling of [main-R1.py] and
    [main-o1.py] run to completion, and so does the whole frame: no
    division has a zero divisor and no index is out of range.  The grid
    has a nonzero cell size and the particles of [main-R1.py] a positive
    mass, as their constructors establish.  The distances used as
    divisors: [combined.py] skips a pair at distance 0; the force pass of
    [main-R1.py] divides by max(r, EPSILON); its collision handling skips
    a pair no farther apart than EPSILON; [main-o1.py] divides by a
    positive number, 0.0001 for a coincident pair. *)
Theorem no_division_by_zero (s : Combined.FluidSimulation) (r : R1.Sim) (o : O1.Sim)
    (dt : R) :
  Combined.cell_size (Combined.sgrid s) ≠ 0 →
  (∀ p, p ∈ R1.particles r → 0 < R1.mass p) →
  is_Some (Combined.update_physics s) ∧
  is_Some (Combined.step s dt) ∧
  (∃ ps1, R1.compute_density_pressure (R1.particles r)
            (R1.find_neighbors (R1.particles r) R1.SMOOTHING_RADIUS) R1.SMOOTHING_RADIUS
          = Some ps1 ∧
     is_Some (R1.compute_forces ps1
                (R1.find_neighbors (R1.particles r) R1.SMOOTHING_RADIUS)
                R1.SMOOTHING_RADIUS)) ∧
  is_Some (R1.handle_collisions (R1.particles r)) ∧
  is_Some (R1.step r dt) ∧
  is_Some (O1.handle_ball_collisions (O1.balls o)) ∧
  is_Some (O1.step o) ∧
  (∀ i p forces j n,
     norm (vsub (Combined.pos n) (Combined.pos p)) = 0 →
     Combined.force_neighbor i p forces (j, n) = Some forces) ∧
  (∀ d, R1.EPSILON <= Rmax d R1.EPSILON) ∧
  (∀ ps i j p1 p2,
     ps !! i = Some p1 → ps !! j = Some p2 →
     hypot (R1.x p2 - R1.x p1) (R1.y p2 - R1.y p1) <= R1.EPSILON →
     R1.collide ps i j = Some ps) ∧
  (∀ bi bj, 0 < O1Facts.divisor bi bj ∧
     (O1.x bi = O1.x bj → O1.y bi = O1.y bj → O1Facts.divisor bi bj = 0.0001)).
Proof.
  intros Hcs Hmass.
  destruct (ForceFacts.update_physics_total s Hcs) as (s1 & Hs1 & _).
  destruct (CombinedStepFacts.step_total s dt Hcs) as (_ & s' & _ & Hstep & _).
  destruct (R1StepFacts.forces_total (R1.particles r) Hmass) as (ps1 & ps2 & _ & H1 & H2 & _).
  destruct (R1CollisionFacts.handle_collisions_total (R1.particles r) Hmass) as (ps' & Hc & _).
  destruct (R1StepFacts.step_R1_total r dt Hmass) as (_ & ps5 & _ & _ & _ & Hr).
  destruct (O1Facts.handle_ball_collisions_total (O1.balls o)) as (bs & Hb & _).
  destruct (O1Facts.handle_ball_collisions_total (map O1.Ball_update (O1.balls o)))
    as (bs2 & Hb2 & _).
  split; [by eexists|]. split; [by eexists|].
  split; [exists ps1; split; [done | by eexists]|].
  split; [by eexists|]. split; [by eexists|]. split; [by eexists|].
  split; [unfold O1.step; rewrite Hb2; by eexists|].
  split; [|split; [|split]].
  - intros i p [pf vf] j n Hzero. unfold Combined.force_neighbor.
    destruct (decide (j = i)); [done|]. by rewrite decide_True.
  - intros d. apply Rmax_r.
  - intros ps i j p1 p2 Hi Hj Hle.
    apply (R1CollisionFacts.collide_apart ps i j p1 p2 Hi Hj).
    unfold R1CollisionFacts.colliding, R1NeighborFacts.dist. lra.
  - intros bi bj. split; [apply O1Facts.divisor_pos|].
    intros Hx Hy. unfold O1Facts.divisor.
    rewrite decide_True; [done|]. unfold O1Facts.dist_sq. rewrite Hx, Hy. lra.
Qed.

(** The theorem for two coincident particles in each variant. *)
Lemma no_division_by_zero_witness :
  is_Some (Combined.update_physics
             (Combined.mkSim 800 600
                [Combined.Particle_init (V2 100 100); Combined.Particle_init (V2 100 100)]
                (Combined.mkGrid Combined.SMOOTHING_RADIUS ∅))) ∧
  is_Some (R1.handle_collisions [R1.Particle_init 100 100; R1.Particle_init 100 100]) ∧
  is_Some (O1.handle_ball_collisions [O1.mkBall 100 100 0 0; O1.mkBall 100 100 0 0]).
Proof.
  destruct (no_division_by_zero
              (Combined.mkSim 800 600
                 [Combined.Particle_init (V2 100 100); Combined.Particle_init (V2 100 100)]
                 (Combined.mkGrid Combined.SMOOTHING_RADIUS ∅))
              (R1.mkSim 800 600 [R1.Particle_init 100 100; R1.Particle_init 100 100])
              (O1.mkSim 800 600 [O1.mkBall 100 100 0 0; O1.mkBall 100 100 0 0])
              (1 / 60))
    as (H1 & _ & _ & H2 & _ & H3 & _).
  - simpl. unfold Combined.SMOOTHING_RADIUS. lra.
  - simpl. intros p Hp. apply elem_of_cons in Hp as [->|Hp].
    + simpl. lra.
    + apply list_elem_of_singleton in Hp as ->. simpl. lra.
  - done.
Defined.

(** ** C10: global damping *)

Lemma hypot_scale (a b c : R) : 0 <= c → hypot (a * c) (b * c) = c * hypot a b.
Proof.
  intros Hc. unfold hypot.
  replace (a * c * (a * c) + b * c * (b * c)) with (c * c * (a * a + b * b)) by ring.
  rewrite sqrt_mult by nra. by rewrite sqrt_square.
Qed.

(** C10 (amended). In [main-R1.py] the frame ends by multiplying both
    velocity components of every particle by 0.95, after the collision
    handling; in [main-o1.py] the per-particle update, which opens the
    frame, multiplies them by 0.99 once gravity is added.  No frame is
    without force, since gravity is added before the damping: in a frame
    where no particle has a neighbour, meets a wall or collides, every
    particle of [main-R1.py] leaves with the velocity
    0.95 * (vx, vy + 750 dt), and every ball of [main-o1.py] with
    0.99 * (vx, vy + 0.2).  The speed after the frame is the damping
    constant times the speed of the velocity gravity has been added to:
    it may be greater than the speed before. *)
Theorem global_damping :
  R1.DAMPING = 0.95 ∧ O1.FRICTION = 0.99 ∧
  (∀ (s : R1.Sim) (dt : R),
     (∀ p, p ∈ R1.particles s → 0 < R1.mass p) →
     ∃ ps5, R1.step_collided s dt = Some ps5 ∧
       R1.step s dt = Some (R1.mkSim (R1.width s) (R1.height s) (map R1.damp ps5))) ∧
  (∀ p : R1.Particle,
     R1.vx (R1.damp p) = R1.vx p * R1.DAMPING ∧ R1.vy (R1.damp p) = R1.vy p * R1.DAMPING) ∧
  (∀ b : O1.Ball,
     O1.vx (O1.Ball_update b) = O1.vx b * O1.FRICTION ∧
     O1.vy (O1.Ball_update b) = (O1.vy b + O1.GRAVITY) * O1.FRICTION) ∧
  (∀ (s : R1.Sim) (dt : R),
     (∀ p, p ∈ R1.particles s →
        0 < R1.mass p ∧ R1.ax p = 0 ∧ R1.ay p = 0 ∧
        R1.radius p <= R1.x p + R1.vx p * dt <= R1.width s - R1.radius p ∧
        R1.radius p <= R1.y p + (R1.vy p + R1.GRAVITY * dt) * dt
          <= R1.height s - R1.radius p) →
     (∀ i j p q, R1.particles s !! i = Some p → R1.particles s !! j = Some q → i ≠ j →
        ¬ hypot (R1.x q - R1.x p) (R1.y q - R1.y p) < R1.SMOOTHING_RADIUS) →
     (∀ i j p q, R1.particles s !! i = Some p → R1.particles s !! j = Some q →
        ¬ (hypot ((R1.x q + R1.vx q * dt) - (R1.x p + R1.vx p * dt))
                 ((R1.y q + (R1.vy q + R1.GRAVITY * dt) * dt)
                  - (R1.y p + (R1.vy p + R1.GRAVITY * dt) * dt))
             < R1.radius p + R1.radius q ∧
           hypot ((R1.x q + R1.vx q * dt) - (R1.x p + R1.vx p * dt))
                 ((R1.y q + (R1.vy q + R1.GRAVITY * dt) * dt)
                  - (R1.y p + (R1.vy p + R1.GRAVITY * dt) * dt))
             > R1.EPSILON)) →
     ∃ s', R1.step s dt = Some s' ∧
       ∀ i p, R1.particles s !! i = Some p →
         ∃ p', R1.particles s' !! i = Some p' ∧
           R1.vx p' = R1.DAMPING * R1.vx p ∧
           R1.vy p' = R1.DAMPING * (R1.vy p + R1.GRAVITY * dt) ∧
           hypot (R1.vx p') (R1.vy p')
             = R1.DAMPING * hypot (R1.vx p) (R1.vy p + R1.GRAVITY * dt)) ∧
  (∀ s : O1.Sim,
     (∀ b, b ∈ O1.balls s →
        O1.BALL_RADIUS <= O1.x b + O1.vx b <= O1.current_width s - O1.BALL_RADIUS ∧
        O1.BALL_RADIUS <= O1.y b + (O1.vy b + O1.GRAVITY)
          <= O1.current_height s - O1.BALL_RADIUS) →
     (∀ i j bi bj, O1.balls s !! i = Some bi → O1.balls s !! j = Some bj → i ≠ j →
        ¬ ((O1.x bj + O1.vx bj) - (O1.x bi + O1.vx bi))
            * ((O1.x bj + O1.vx bj) - (O1.x bi + O1.vx bi))
          + ((O1.y bj + (O1.vy bj + O1.GRAVITY)) - (O1.y bi + (O1.vy bi + O1.GRAVITY)))
            * ((O1.y bj + (O1.vy bj + O1.GRAVITY)) - (O1.y bi + (O1.vy bi + O1.GRAVITY)))
          < (2 * O1.BALL_RADIUS) ^ 2) →
     ∃ s', O1.step s = Some s' ∧
       ∀ i b, O1.balls s !! i = Some b →
         ∃ b', O1.balls s' !! i = Some b' ∧
           O1.vx b' = O1.FRICTION * O1.vx b ∧
           O1.vy b' = O1.FRICTION * (O1.vy b + O1.GRAVITY) ∧
           hypot (O1.vx b') (O1.vy b')
             = O1.FRICTION * hypot (O1.vx b) (O1.vy b + O1.GRAVITY)).
Proof.
  split; [done|]. split; [done|]. split; [|split; [done|split; [done|split]]].
  - intros s dt Hmass.
    destruct (R1StepFacts.step_R1_total s dt Hmass) as (_ & ps5 & _ & _ & Hc & Hs).
    by exists ps5.
  - intros s dt Hall Hiso Hapart.
    destruct (R1FreeFacts.free_frame s dt Hall Hiso Hapart) as (ps4 & Hstep & _ & Hfree).
    eexists. split; [exact Hstep|]. intros i p Hp.
    destruct (Hfree i p Hp) as (p4 & Hp4 & _ & _ & Hvx & Hvy & _ & _).
    exists (R1.damp p4). split.
    { cbn [R1.particles]. change (map ?f ?l) with (f <$> l).
      by rewrite list_lookup_fmap, Hp4. }
    assert (Hx' : R1.vx (R1.damp p4) = R1.vx p * R1.DAMPING)
      by (simpl; by rewrite Hvx).
    assert (Hy' : R1.vy (R1.damp p4) = (R1.vy p + R1.GRAVITY * dt) * R1.DAMPING)
      by (simpl; by rewrite Hvy).
    rewrite Hx', Hy'. split; [lra|]. split; [lra|].
    apply hypot_scale. unfold R1.DAMPING. lra.
  - intros s Hin Hap. rewrite (O1FreeFacts.free_frame_O1 s Hin Hap).
    eexists. split; [done|]. intros i b Hb. exists (O1.Ball_update b). split.
    { cbn [O1.balls]. change (map ?f ?l) with (f <$> l).
      by rewrite list_lookup_fmap, Hb. }
    cbn [O1.Ball_update O1.vx O1.vy]. split; [lra|]. split; [lra|].
    apply hypot_scale. unfold O1.FRICTION. lra.
Qed.

(** The theorem for two particles of [main-R1.py] 200 apart in an 800 by
    600 window, the first moving at (3, 4), with a time step of 1/60: the
    first leaves the frame with the velocity 0.95 * (3, 4 + 12.5).  And for
    a ball of [main-o1.py] moving at (3, 4): it leaves with 0.99 * (3, 4.2). *)
Lemma global_damping_witness :
  (∃ s' p',
     R1.step (R1.mkSim 800 600
                [R1.mkParticle 100 100 3 4 0 0 8 1 1000 0;
                 R1.mkParticle 300 100 0 0 0 0 8 1 1000 0]) (1 / 60) = Some s' ∧
     R1.particles s' !! 0%nat = Some p' ∧
     R1.vx p' = 0.95 * 3 ∧ R1.vy p' = 0.95 * (4 + 750 * (1 / 60))) ∧
  (∃ s' b',
     O1.step (O1.mkSim 800 600 [O1.mkBall 400 300 3 4]) = Some s' ∧
     O1.balls s' !! 0%nat = Some b' ∧
     O1.vx b' = 0.99 * 3 ∧ O1.vy b' = 0.99 * (4 + 0.2)).
Proof.
  destruct global_damping as (_ & _ & _ & _ & _ & HR1 & HO1).
  split.
  - destruct (HR1 (R1.mkSim 800 600
                     [R1.mkParticle 100 100 3 4 0 0 8 1 1000 0;
                      R1.mkParticle 300 100 0 0 0 0 8 1 1000 0]) (1 / 60))
      as (s' & Hs' & Hv).
    + intros p Hp. cbn [R1.particles] in Hp.
      repeat (apply elem_of_cons in Hp as [->|Hp];
              [cbn [R1.mass R1.ax R1.ay R1.radius R1.x R1.y R1.vx R1.vy R1.width R1.height];
               unfold R1.GRAVITY; repeat split; lra|]).
      by apply elem_of_nil in Hp.
    + intros [|[|i]] [|[|j]] p q Hp Hq Hij; try done;
        cbn [R1.particles] in Hp, Hq; injection Hp as <-; injection Hq as <-;
        cbn [R1.x R1.y]; unfold R1.SMOOTHING_RADIUS; intros Hlt;
        match type of Hlt with hypot ?a ?b < _ =>
          pose proof (hypot_ge_abs_l a b) as Hge; unfold Rabs in Hge;
          destruct (Rcase_abs a); lra
        end.
    + intros [|[|i]] [|[|j]] p q Hp Hq; try done;
        cbn [R1.particles] in Hp, Hq; injection Hp as <-; injection Hq as <-;
        cbn [R1.x R1.y R1.vx R1.vy R1.radius]; unfold R1.GRAVITY, R1.EPSILON;
        intros [Hlt Hgt];
        match type of Hlt with hypot ?a ?b < _ =>
          pose proof (hypot_ge_abs_l a b) as Hge; unfold Rabs in Hge;
          first [ destruct (Rcase_abs a); lra
                | assert (H0 : hypot a b = 0) by (apply hypot_eq_0; split; lra); lra ]
        end.
    + destruct (Hv 0%nat (R1.mkParticle 100 100 3 4 0 0 8 1 1000 0) eq_refl)
        as (p' & Hp' & Hvx & Hvy & _).
      exists s', p'. split; [done|]. split; [done|].
      rewrite Hvx, Hvy. cbn [R1.vx R1.vy]. unfold R1.DAMPING, R1.GRAVITY. split; lra.
  - destruct (HO1 (O1.mkSim 800 600 [O1.mkBall 400 300 3 4])) as (s' & Hs' & Hv).
    + intros b ->%list_elem_of_singleton.
      cbn [O1.x O1.y O1.vx O1.vy O1.current_width O1.current_height].
      unfold O1.BALL_RADIUS, O1.GRAVITY. split; lra.
    + intros [|i] [|j] bi bj Hi Hj Hij; try done.
    + destruct (Hv 0%nat (O1.mkBall 400 300 3 4) eq_refl) as (b' & Hb' & Hvx & Hvy & _).
      exists s', b'. split; [done|]. split; [done|].
      rewrite Hvx, Hvy. cbn [O1.vx O1.vy]. unfold O1.FRICTION, O1.GRAVITY. split; lra.
Defined.

(** C10 as stated fails: a single particle of [main-R1.py] at rest in the
    middle of the window, with no neighbour, no collision and no wall in
    reach, leaves a frame of 1/60 s with the velocity (0, 11.875): gravity
    is added before the damping, and its speed grows from 0. *)
Lemma global_damping_counterexample :
  ∃ s' p',
    R1.step (R1.mkSim 800 600 [R1.Particle_init 400 300]) (1 / 60) = Some s' ∧
    R1.particles s' !! 0%nat = Some p' ∧
    R1.vx p' = 0 ∧ R1.vy p' = 11.875 ∧
    hypot (R1.vx (R1.Particle_init 400 300)) (R1.vy (R1.Particle_init 400 300)) = 0 ∧
    hypot (R1.vx (R1.Particle_init 400 300)) (R1.vy (R1.Particle_init 400 300))
      < hypot (R1.vx p') (R1.vy p').
Proof.
  destruct (R1FreeFacts.free_frame (R1.mkSim 800 600 [R1.Particle_init 400 300]) (1 / 60))
    as (ps4 & Hstep & _ & Hfree).
  - intros p ->%list_elem_of_singleton.
    cbn [R1.Particle_init R1.mass R1.ax R1.ay R1.radius R1.x R1.y R1.vx R1.vy
         R1.width R1.height].
    unfold R1.GRAVITY, R1.PARTICLE_RADIUS. repeat split; lra.
  - intros [|i] [|j] p q Hp Hq Hij; try done.
  - intros [|i] [|j] p q Hp Hq; try done.
    cbn [R1.particles] in Hp, Hq. injection Hp as <-. injection Hq as <-.
    intros [_ Hgt].
    match type of Hgt with hypot ?a ?b > _ =>
      assert (H0 : hypot a b = 0) by (apply hypot_eq_0; split; lra)
    end.
    rewrite H0 in Hgt. unfold R1.EPSILON in Hgt. lra.
  - destruct (Hfree 0%nat (R1.Particle_init 400 300) eq_refl)
      as (p4 & Hp4 & _ & _ & Hvx & Hvy & _ & _).
    eexists. exists (R1.damp p4). split; [exact Hstep|]. split.
    { cbn [R1.particles]. change (map ?f ?l) with (f <$> l).
      by rewrite list_lookup_fmap, Hp4. }
    assert (H0 : hypot (R1.vx (R1.Particle_init 400 300))
                       (R1.vy (R1.Particle_init 400 300)) = 0).
    { apply hypot_eq_0. simpl. lra. }
    assert (Hx' : R1.vx (R1.damp p4) = 0).
    { simpl. rewrite Hvx. simpl. unfold R1.DAMPING. lra. }
    assert (Hy' : R1.vy (R1.damp p4) = 11.875).
    { simpl. rewrite Hvy. simpl. unfold R1.DAMPING, R1.GRAVITY. lra. }
    split; [done|]. split; [done|]. split; [done|].
    rewrite H0.
    pose proof (hypot_ge_abs_r (R1.vx (R1.damp p4)) (R1.vy (R1.damp p4))) as Hge.
    assert (Ha : Rabs (R1.vy (R1.damp p4)) = 11.875)
      by (rewrite Hy'; apply Rabs_pos_eq; lra).
    lra.
Qed.

(** * Further properties of the code *)

(** ** [find_neighbors] of [main-R1.py] *)

Module R1NeighborMore.
Import R1 R1NeighborFacts.

Lemma find_inner_length (h : R) (k : nat) (pk : Particle) (js : list (nat * Particle))
    (N : list (list (nat * R))) :
  length (foldl (find_inner h k pk) N js) = length N.
Proof.
  revert N. induction js as [|[j pj] js IH]; intros N; [done|].
  simpl. rewrite IH. destruct (Rlt_dec _ h); [|done]. by rewrite !length_alter.
Qed.

Lemma find_neighbors_length (ps : list Particle) (h : R) :
  length (find_neighbors ps h) = length ps.
Proof.
  unfold find_neighbors.
  assert (Hgen : ∀ (ks : list (nat * Particle)) N,
            length (foldl (λ neighbors ip,
                      foldl (find_inner h ip.1 ip.2) neighbors
                            (enumerate_from (S ip.1) (drop (S ip.1) ps))) N ks)
            = length N).
  { induction ks as [|k ks IH]; intros N; [done|].
    simpl. by rewrite IH, find_inner_length. }
  by rewrite Hgen, length_replicate.
Qed.

(** The neighbours are listed by increasing index. *)
Lemma within_indices (h : R) (i : nat) (pi : Particle) (k : nat) (l : list Particle) :
  (within h i pi (enumerate_from k l)).*1 `sublist_of` seq k (length l).
Proof.
  revert k. induction l as [|p l IH]; intros k; [done|].
  rewrite enumerate_from_cons. unfold within. cbn [omap list_omap fst length seq].
  fold (within h i pi (enumerate_from (S k) l)).
  destruct (decide (k = i)); [by apply sublist_cons|].
  unfold near. cbn [fst snd]. destruct (Rlt_dec (dist pi p) h).
  - cbn. by apply sublist_skip.
  - by apply sublist_cons.
Qed.

End R1NeighborMore.

(** X1. [find_neighbors] returns one list per particle.  The list of
    particle i names each other particle closer than [h] exactly once,
    with the separation of the pair, and nothing else; j is listed for i
    with a separation exactly when i is listed for j with the same one. *)
Theorem find_neighbors_characterised (ps : list R1.Particle) (h : R) (i : nat)
    (pi : R1.Particle) :
  ps !! i = Some pi →
  length (R1.find_neighbors ps h) = length ps ∧
  ∃ ni, R1.find_neighbors ps h !! i = Some ni ∧
    NoDup ni.*1 ∧
    (∀ j r, (j, r) ∈ ni ↔
       j ≠ i ∧ ∃ pj, ps !! j = Some pj ∧
         r = hypot (R1.x pj - R1.x pi) (R1.y pj - R1.y pi) ∧ r < h) ∧
    (∀ j r nj, R1.find_neighbors ps h !! j = Some nj → (j, r) ∈ ni ↔ (i, r) ∈ nj).
Proof.
  intros Hi. split; [apply R1NeighborMore.find_neighbors_length|].
  exists (R1NeighborFacts.within h i pi (enumerate_from 0 ps)).
  split; [by apply R1NeighborFacts.find_neighbors_lookup|]. split; [|split].
  - eapply sublist_NoDup; [apply NoDup_seq | apply R1NeighborMore.within_indices].
  - intros j r. apply R1NeighborFacts.elem_of_within.
  - intros j r nj Hnj.
    assert (Hj : (j < length ps)%nat).
    { rewrite <- (R1NeighborMore.find_neighbors_length ps h). by eapply lookup_lt_Some. }
    destruct (lookup_lt_is_Some_2 ps j Hj) as [pj Hpj].
    rewrite (R1NeighborFacts.find_neighbors_lookup ps h j pj Hpj) in Hnj.
    injection Hnj as <-. rewrite !R1NeighborFacts.elem_of_within. split.
    + intros (Hne & pj' & Hpj' & -> & Hlt). rewrite Hpj in Hpj'. injection Hpj' as <-.
      split; [done|]. exists pi. split; [done|].
      rewrite (R1NeighborFacts.dist_sym pj pi). done.
    + intros (Hne & pi' & Hpi' & -> & Hlt). rewrite Hi in Hpi'. injection Hpi' as <-.
      split; [done|]. exists pj. split; [done|].
      rewrite (R1NeighborFacts.dist_sym pi pj). done.
Qed.

(** The theorem for the first of two particles 10 apart. *)
Lemma find_neighbors_characterised_witness :
  ∃ ni, R1.find_neighbors [R1.Particle_init 100 100; R1.Particle_init 110 100] 30 !! 0%nat
        = Some ni ∧ NoDup ni.*1.
Proof.
  destruct (find_neighbors_characterised
              [R1.Particle_init 100 100; R1.Particle_init 110 100] 30 0%nat
              (R1.Particle_init 100 100) eq_refl) as (_ & ni & Hni & Hnd & _).
  by exists ni.
Defined.

(** ** The spatial grid of [combined.py] *)

Module GridMore.
Import Combined GridFacts NeighborFacts.

Lemma update_from_nonempty (cs : R) (ps : list Particle) (i : nat)
    (g g' : gmap (Z * Z) (list nat)) :
  (∀ c l, g !! c = Some l → l ≠ []) →
  update_from cs i ps g = Some g' →
  ∀ c l, g' !! c = Some l → l ≠ [].
Proof.
  revert i g. induction ps as [|p ps IH]; intros i g Hg; simpl.
  - by intros [= <-].
  - destruct (cell_of cs (pos p)) as [cell|]; simpl; [|done].
    apply IH. intros c l. unfold grid_append.
    destruct (decide (cell = c)) as [->|Hne].
    + rewrite lookup_insert_eq. intros [= <-]. by destruct (default [] (g !! c)).
    + rewrite lookup_insert_ne by done. apply Hg.
Qed.

Lemma bucket_sublist (cs : R) (i : nat) (ps : list Particle) (c : Z * Z) :
  bucket cs i ps c `sublist_of` seq i (length ps).
Proof.
  revert i. induction ps as [|p ps IH]; intros i; [done|].
  simpl. destruct (decide _); simpl; [by apply sublist_skip | by apply sublist_cons].
Qed.

Lemma bucket_NoDup (cs : R) (i : nat) (ps : list Particle) (c : Z * Z) :
  NoDup (bucket cs i ps c).
Proof. eapply sublist_NoDup; [apply NoDup_seq | apply bucket_sublist]. Qed.

Lemma block_NoDup (c : Z * Z) : NoDup (block c).
Proof.
  unfold block, offsets. cbn [mbind list_bind mret list_ret app fst snd].
  repeat (apply NoDup_cons; split;
          [rewrite ?elem_of_cons, elem_of_nil; intros H;
           repeat (destruct H as [H|H]; [injection H; lia|]); done|]).
  apply NoDup_nil_2.
Qed.

Lemma concat_map_NoDup {A B : Type} (f : A → list B) (l : list A) :
  NoDup l → (∀ a, NoDup (f a)) →
  (∀ a a' b, a ∈ l → a' ∈ l → b ∈ f a → b ∈ f a' → a = a') →
  NoDup (concat (map f l)).
Proof.
  intros Hl Hf. induction Hl as [|a l Ha Hl IH]; intros Hdisj; simpl.
  - apply NoDup_nil_2.
  - apply NoDup_app. split; [apply Hf|]. split.
    + intros b Hb Hb'. apply elem_of_concat_map in Hb' as (a' & Ha' & Hb').
      assert (a = a') as <- by (eapply (Hdisj a a' b); [left | by right | done | done]).
      done.
    + apply IH. intros a1 a2 b H1 H2. apply Hdisj; by right.
Qed.


End GridMore.

(** X2. [SpatialGrid.update] with a nonzero cell size files every particle
    under the cell of its position and nowhere else: a stored list is
    never empty, holds no index twice, and holds exactly the indices of
    the particles whose position falls in its cell. *)
Theorem grid_update_partition (sg : Combined.SpatialGrid) (ps : list Combined.Particle) :
  Combined.cell_size sg ≠ 0 →
  ∃ sg', Combined.update sg ps = Some sg' ∧
    Combined.cell_size sg' = Combined.cell_size sg ∧
    (∀ c l, Combined.grid sg' !! c = Some l →
       l ≠ [] ∧ NoDup l ∧
       ∀ i, i ∈ l ↔ ∃ p, ps !! i = Some p ∧
                     Combined.cell_of (Combined.cell_size sg) (Combined.pos p) = Some c) ∧
    (∀ i p, ps !! i = Some p →
       ∃ c l, Combined.cell_of (Combined.cell_size sg) (Combined.pos p) = Some c ∧
              Combined.grid sg' !! c = Some l ∧ i ∈ l).
Proof.
  intros Hcs. destruct (GridFacts.update_lookup sg ps Hcs) as (sg' & Hupd & Hsz & Hlook).
  exists sg'. split; [done|]. split; [done|].
  assert (Hne : ∀ c l, Combined.grid sg' !! c = Some l → l ≠ []).
  { unfold Combined.update in Hupd.
    destruct (Combined.update_from _ 0 ps ∅) as [g'|] eqn:Hg'; [|done].
    injection Hupd as <-. simpl.
    apply (GridMore.update_from_nonempty (Combined.cell_size sg) ps 0%nat ∅ g'); [|done].
    intros c l. by rewrite lookup_empty. }
  assert (Hel : ∀ c i, i ∈ default [] (Combined.grid sg' !! c) ↔
            ∃ p, ps !! i = Some p ∧
                 Combined.cell_of (Combined.cell_size sg) (Combined.pos p) = Some c).
  { intros c i. rewrite Hlook, GridFacts.elem_of_bucket, Nat.sub_0_r. split.
    - by intros [_ H].
    - intros H. split; [lia | done]. }
  split.
  - intros c l Hl. split; [by eapply Hne|]. split.
    + pose proof (Hlook c) as Hc. rewrite Hl in Hc. simpl in Hc. rewrite Hc.
      apply GridMore.bucket_NoDup.
    + intros i. rewrite <- Hel, Hl. done.
  - intros i p Hp. rewrite (GridFacts.cell_of_Some _ _ Hcs). eexists. 
    assert (Hin : i ∈ default [] (Combined.grid sg' !!
                   (py_int (c0 (Combined.pos p) / Combined.cell_size sg),
                    py_int (c1 (Combined.pos p) / Combined.cell_size sg)))).
    { apply Hel. exists p. split; [done|]. by apply GridFacts.cell_of_Some. }
    destruct (Combined.grid sg' !! _) as [l|] eqn:Hl; [|by apply elem_of_nil in Hin].
    exists l. done.
Qed.

(** The theorem for two particles in different cells of size 30. *)
Lemma grid_update_partition_witness :
  ∃ sg', Combined.update (Combined.mkGrid 30 ∅)
           [Combined.Particle_init (V2 10 10); Combined.Particle_init (V2 100 10)] = Some sg' ∧
    Combined.cell_size sg' = 30.
Proof.
  destruct (grid_update_partition (Combined.mkGrid 30 ∅)
              [Combined.Particle_init (V2 10 10); Combined.Particle_init (V2 100 10)])
    as (sg' & Hupd & Hsz & _).
  - simpl. lra.
  - by exists sg'.
Defined.

(** X3. After [SpatialGrid.update], [get_neighbors] at any position
    returns no index twice, and only indices of particles: the loops of
    [update_physics] over the candidates count no particle twice and never
    index out of range. *)
Theorem get_neighbors_no_duplicates (sg : Combined.SpatialGrid)
    (ps : list Combined.Particle) (q : vec2) :
  Combined.cell_size sg ≠ 0 →
  ∃ sg' ids, Combined.update sg ps = Some sg' ∧
    Combined.get_neighbors sg' q = Some ids ∧
    NoDup ids ∧ ∀ i, i ∈ ids → (i < length ps)%nat.
Proof.
  intros Hcs.
  destruct (NeighborFacts.update_grid_of sg ps Hcs) as (sg' & Hupd & Hsz & Hg).
  destruct (NeighborFacts.get_neighbors_cells sg' ps q Hg) as (ids & Hget & Hids & _).
  exists sg', ids. split; [done|]. split; [done|]. split.
  - rewrite Hids. destruct Hg as [Hcs' Hlook].
    apply GridMore.concat_map_NoDup.
    + apply GridMore.block_NoDup.
    + intros c. rewrite Hlook. apply GridMore.bucket_NoDup.
    + intros c c' i _ _. rewrite !Hlook, !GridFacts.elem_of_bucket, !Nat.sub_0_r.
      intros (_ & p & Hp & Hc) (_ & p' & Hp' & Hc').
      rewrite Hp in Hp'. injection Hp' as <-. rewrite Hc in Hc'. by injection Hc'.
  - intros i Hi. by eapply NeighborFacts.get_neighbors_valid.
Qed.

(** The theorem for two particles in one cell, queried between them. *)
Lemma get_neighbors_no_duplicates_witness :
  ∃ sg' ids,
    Combined.update (Combined.mkGrid 30 ∅)
      [Combined.Particle_init (V2 10 10); Combined.Particle_init (V2 20 10)] = Some sg' ∧
    Combined.get_neighbors sg' (V2 15 10) = Some ids ∧ NoDup ids.
Proof.
  destruct (get_neighbors_no_duplicates (Combined.mkGrid 30 ∅)
              [Combined.Particle_init (V2 10 10); Combined.Particle_init (V2 20 10)]
              (V2 15 10))
    as (sg' & ids & Hupd & Hget & Hnd & _).
  - simpl. lra.
  - by exists sg', ids.
Defined.


(** ** Collisions of [main-R1.py] *)

(** The sum of a quantity over the particles. *)
Definition sumR {A : Type} (f : A → R) (l : list A) : R := foldr (λ a s, f a + s) 0 l.

Lemma sumR_insert {A : Type} (f : A → R) (l : list A) (i : nat) (a b : A) :
  l !! i = Some a → sumR f (<[i := b]> l) = sumR f l + (f b - f a).
Proof.
  revert i. induction l as [|c l IH]; intros [|i]; simpl; try done.
  - intros [= ->]. lra.
  - intros H. rewrite (IH _ H). lra.
Qed.

Lemma sumR_insert_pair {A : Type} (f : A → R) (l : list A) (i j : nat) (a b a' b' : A) :
  i ≠ j → l !! i = Some a → l !! j = Some b →
  sumR f (<[j := b']> (<[i := a']> l)) = sumR f l + (f a' + f b' - (f a + f b)).
Proof.
  intros Hij Hi Hj.
  rewrite (sumR_insert f _ j b) by (by rewrite list_lookup_insert_ne).
  rewrite (sumR_insert f _ i a) by done. lra.
Qed.

Lemma sumR_opp {A : Type} (f : A → R) (l : list A) :
  sumR (λ a, - f a) l = - sumR f l.
Proof. induction l as [|a l IH]; simpl; [lra | rewrite IH; lra]. Qed.

Lemma hypot_mult (a b c : R) : 0 <= c → hypot (c * a) (c * b) = c * hypot a b.
Proof.
  intros Hc. unfold hypot.
  replace (c * a * (c * a) + c * b * (c * b)) with (c * c * (a * a + b * b)) by ring.
  rewrite sqrt_mult by nra. by rewrite sqrt_square.
Qed.

Module R1CollisionMore.
Import R1 R1NeighborFacts R1PassFacts R1CollisionFacts.

Lemma normal_unit (p1 p2 : Particle) :
  dist p1 p2 ≠ 0 →
  (normal p1 p2).1 * (normal p1 p2).1 + (normal p1 p2).2 * (normal p1 p2).2 = 1.
Proof.
  intros Hd. unfold normal. cbn [fst snd].
  pose proof (hypot_sqr (x p2 - x p1) (y p2 - y p1)) as Hs. fold (dist p1 p2) in Hs.
  generalize dependent (dist p1 p2). intros d Hd Hs.
  field_simplify_eq; [|done]. lra.
Qed.

Lemma impulse_mass (p1 p2 : Particle) :
  mass p1 + mass p2 ≠ 0 →
  impulse p1 p2 * (mass p1 + mass p2) = 2 * closing_speed p1 p2.
Proof. intros Hm. unfold impulse. replace 2.0 with 2 by lra. field. done. Qed.

Lemma not_colliding_self (p : Particle) : ¬ colliding p p.
Proof.
  intros [_ Hgt]. pose proof EPSILON_pos. unfold dist in Hgt.
  replace (x p - x p) with 0 in Hgt by lra. replace (y p - y p) with 0 in Hgt by lra.
  rewrite hypot_horizontal in Hgt by lra. lra.
Qed.

(** One pair of the loops: a quantity whose sum over a colliding pair is
    kept by its resolution keeps its sum over the list. *)
Lemma collide_sum (f : Particle → R) (l : list Particle) (i j : nat) (p1 p2 : Particle) :
  l !! i = Some p1 → l !! j = Some p2 → 0 < mass p1 → 0 < mass p2 →
  (colliding p1 p2 → f (pushed1 p1 p2) + f (pushed2 p1 p2) = f p1 + f p2) →
  ∃ l', collide l i j = Some l' ∧ body <$> l' = body <$> l ∧ sumR f l' = sumR f l.
Proof.
  intros H1 H2 Hm1 Hm2 Hf.
  destruct (Rlt_dec (dist p1 p2) (radius p1 + radius p2)) as [Hlt|Hge];
    [destruct (Rgt_dec (dist p1 p2) EPSILON) as [Hgt|Hle]|].
  - assert (Hc : colliding p1 p2) by done.
    assert (Hij : i ≠ j).
    { intros ->. rewrite H1 in H2. injection H2 as ->. by apply (not_colliding_self p2). }
    rewrite (collide_colliding l i j p1 p2) by (done || lra).
    eexists. split; [done|]. split.
    + rewrite !list_fmap_insert.
      assert (Hb1 : body (pushed1 p1 p2) = body p1) by done.
      assert (Hb2 : body (pushed2 p1 p2) = body p2) by done.
      rewrite Hb1, Hb2.
      rewrite (list_insert_id (body <$> l) i) by (by rewrite list_lookup_fmap, H1).
      rewrite list_insert_id by (by rewrite list_lookup_fmap, H2). done.
    + rewrite (sumR_insert_pair f l i j p1 p2) by done. rewrite (Hf Hc). lra.
  - rewrite (collide_apart l i j p1 p2) by (done || intros [? ?]; lra). by eexists.
  - rewrite (collide_apart l i j p1 p2) by (done || intros [? ?]; lra). by eexists.
Qed.

Lemma body_mass_pos (l ps : list Particle) (k : nat) (p : Particle) :
  (∀ p, p ∈ ps → 0 < mass p) → body <$> l = body <$> ps →
  l !! k = Some p → 0 < mass p.
Proof.
  intros Hmass Hl Hk.
  assert (H : (body <$> ps) !! k = Some (body p))
    by (by rewrite <- Hl, list_lookup_fmap, Hk).
  rewrite list_lookup_fmap in H. destruct (ps !! k) as [q|] eqn:Hq; [|done].
  simpl in H. injection H as _ Hm. rewrite <- Hm.
  apply Hmass. by eapply list_elem_of_lookup_2.
Qed.

(** The loops of [handle_collisions]: such a quantity keeps its sum over
    the whole pass. *)
Lemma handle_collisions_sum (f : Particle → R) (ps : list Particle) :
  (∀ p, p ∈ ps → 0 < mass p) →
  (∀ p1 p2, 0 < mass p1 → 0 < mass p2 → colliding p1 p2 →
     f (pushed1 p1 p2) + f (pushed2 p1 p2) = f p1 + f p2) →
  ∃ ps', handle_collisions ps = Some ps' ∧ body <$> ps' = body <$> ps ∧
         sumR f ps' = sumR f ps.
Proof.
  intros Hmass Hf. unfold handle_collisions.
  apply (foldM_invariant _ (λ l, body <$> l = body <$> ps ∧ sumR f l = sumR f ps));
    [done|].
  intros l i Hi%elem_of_seq [Hl Hs].
  assert (Hll : length l = length ps)
    by (by rewrite <- (length_fmap body l), Hl, length_fmap).
  apply (foldM_invariant _ (λ l, body <$> l = body <$> ps ∧ sumR f l = sumR f ps));
    [done|].
  intros l' j Hj%elem_of_seq [Hl' Hs'].
  assert (Hll' : length l' = length ps)
    by (by rewrite <- (length_fmap body l'), Hl', length_fmap).
  destruct (lookup_lt_is_Some_2 l' i) as [p1 H1]; [lia|].
  destruct (lookup_lt_is_Some_2 l' j) as [p2 H2]; [lia|].
  pose proof (body_mass_pos l' ps i p1 Hmass Hl' H1) as Hm1.
  pose proof (body_mass_pos l' ps j p2 Hmass Hl' H2) as Hm2.
  destruct (collide_sum f l' i j p1 p2 H1 H2 Hm1 Hm2) as (l'' & Hc & Hb & Hsum).
  { by apply Hf. }
  exists l''. split; [done|]. split; [congruence | lra].
Qed.

(** The kinetic energy of a pair is kept by its resolution. *)
Lemma pushed_energy (p1 p2 : Particle) :
  0 < mass p1 → 0 < mass p2 → colliding p1 p2 →
  mass p1 * (vx (pushed1 p1 p2) * vx (pushed1 p1 p2) +
             vy (pushed1 p1 p2) * vy (pushed1 p1 p2)) / 2 +
  mass p2 * (vx (pushed2 p1 p2) * vx (pushed2 p1 p2) +
             vy (pushed2 p1 p2) * vy (pushed2 p1 p2)) / 2 =
  mass p1 * (vx p1 * vx p1 + vy p1 * vy p1) / 2 +
  mass p2 * (vx p2 * vx p2 + vy p2 * vy p2) / 2.
Proof.
  intros Hm1 Hm2 [_ Hgt]. pose proof EPSILON_pos.
  pose proof (normal_unit p1 p2 ltac:(lra)) as Hn.
  pose proof (impulse_mass p1 p2 ltac:(lra)) as HI.
  unfold closing_speed in HI. unfold pushed1, pushed2. cbn [vx vy set_v set_xy mass].
  generalize dependent (impulse p1 p2). intros I HI.
  generalize dependent (normal p1 p2). intros [nx ny]. cbn [fst snd]. intros Hn HI.
  match goal with |- ?L = ?Rhs =>
    assert (E : L - Rhs =
      I * mass p1 * mass p2 / 2 *
        (I * (mass p1 + mass p2) * (nx * nx + ny * ny)
         - 2 * ((vx p2 - vx p1) * nx + (vy p2 - vy p1) * ny))) by (field_simplify; ring)
  end.
  rewrite HI, Hn in E. lra.
Qed.

End R1CollisionMore.

(** X5. [handle_collisions] on particles of positive mass conserves the
    total momentum, whatever pairs it resolves, and the sums of the
    positions: the sums of [mass * vx], [mass * vy], [x] and [y] over the
    particles are the same after the pass as before, and no particle is
    added or removed. *)
Theorem handle_collisions_conserves_momentum (ps : list R1.Particle) :
  (∀ p, p ∈ ps → 0 < R1.mass p) →
  ∃ ps', R1.handle_collisions ps = Some ps' ∧ length ps' = length ps ∧
    sumR (λ p, R1.mass p * R1.vx p) ps' = sumR (λ p, R1.mass p * R1.vx p) ps ∧
    sumR (λ p, R1.mass p * R1.vy p) ps' = sumR (λ p, R1.mass p * R1.vy p) ps ∧
    sumR R1.x ps' = sumR R1.x ps ∧
    sumR R1.y ps' = sumR R1.y ps.
Proof.
  intros Hmass.
  destruct (R1CollisionMore.handle_collisions_sum (λ p, R1.mass p * R1.vx p) ps Hmass)
    as (ps' & Hps' & Hb & H1).
  { intros p1 p2 _ _ _. simpl. ring. }
  destruct (R1CollisionMore.handle_collisions_sum (λ p, R1.mass p * R1.vy p) ps Hmass)
    as (ps2 & Hps2 & _ & H2).
  { intros p1 p2 _ _ _. simpl. ring. }
  destruct (R1CollisionMore.handle_collisions_sum R1.x ps Hmass) as (ps3 & Hps3 & _ & H3).
  { intros p1 p2 _ _ _. simpl. ring. }
  destruct (R1CollisionMore.handle_collisions_sum R1.y ps Hmass) as (ps4 & Hps4 & _ & H4).
  { intros p1 p2 _ _ _. simpl. ring. }
  rewrite Hps' in Hps2, Hps3, Hps4.
  injection Hps2 as <-. injection Hps3 as <-. injection Hps4 as <-.
  exists ps'. split; [done|]. split; [|done].
  by rewrite <- (length_fmap R1CollisionFacts.body ps'), Hb, length_fmap.
Qed.

(** The theorem for two overlapping particles, the first moving toward
    the second. *)
Lemma handle_collisions_conserves_momentum_witness :
  ∃ ps', R1.handle_collisions
           [R1.set_v (R1.Particle_init 100 100) 5 0; R1.Particle_init 110 100] = Some ps' ∧
         length ps' = 2%nat.
Proof.
  destruct (handle_collisions_conserves_momentum
              [R1.set_v (R1.Particle_init 100 100) 5 0; R1.Particle_init 110 100])
    as (ps' & Hps' & Hlen & _).
  - intros p Hp. repeat (apply elem_of_cons in Hp as [->|Hp]; [simpl; lra|]).
    by apply elem_of_nil in Hp.
  - by exists ps'.
Defined.

(** X6. [handle_collisions] on particles of positive mass conserves the
    total kinetic energy, the sum of [mass * (vx^2 + vy^2) / 2]: the
    velocity exchange of every resolved pair is perfectly elastic. *)
Theorem handle_collisions_conserves_energy (ps : list R1.Particle) :
  (∀ p, p ∈ ps → 0 < R1.mass p) →
  ∃ ps', R1.handle_collisions ps = Some ps' ∧
    sumR (λ p, R1.mass p * (R1.vx p * R1.vx p + R1.vy p * R1.vy p) / 2) ps' =
    sumR (λ p, R1.mass p * (R1.vx p * R1.vx p + R1.vy p * R1.vy p) / 2) ps.
Proof.
  intros Hmass.
  destruct (R1CollisionMore.handle_collisions_sum
              (λ p, R1.mass p * (R1.vx p * R1.vx p + R1.vy p * R1.vy p) / 2) ps Hmass)
    as (ps' & Hps' & _ & H1).
  - intros p1 p2 Hm1 Hm2 Hc.
    pose proof (R1CollisionMore.pushed_energy p1 p2 Hm1 Hm2 Hc) as He.
    assert (Hb1 : R1.mass (R1CollisionFacts.pushed1 p1 p2) = R1.mass p1) by done.
    assert (Hb2 : R1.mass (R1CollisionFacts.pushed2 p1 p2) = R1.mass p2) by done.
    cbv beta. rewrite Hb1, Hb2. exact He.
  - by exists ps'.
Qed.

(** The theorem for two overlapping particles, the first moving toward
    the second. *)
Lemma handle_collisions_conserves_energy_witness :
  ∃ ps', R1.handle_collisions
           [R1.set_v (R1.Particle_init 100 100) 5 0; R1.Particle_init 110 100] = Some ps'.
Proof.
  destruct (handle_collisions_conserves_energy
              [R1.set_v (R1.Particle_init 100 100) 5 0; R1.Particle_init 110 100])
    as (ps' & Hps' & _).
  - intros p Hp. repeat (apply elem_of_cons in Hp as [->|Hp]; [simpl; lra|]).
    by apply elem_of_nil in Hp.
  - by exists ps'.
Defined.

(** X7. With the floats read as real numbers, resolving one colliding
    pair in [handle_collisions] (closer than the sum of the radii, farther
    apart than [EPSILON]) touches only that pair, moves the two particles
    along their line of centres to the contact distance, and negates the
    component of their relative velocity along that line, whether the
    pair was approaching or already separating.  In double arithmetic the
    distance reached is the contact distance up to rounding only, and can
    fall just below it. *)
Theorem collide_resolves_pair (ps : list R1.Particle) (i j : nat) (p1 p2 : R1.Particle) :
  ps !! i = Some p1 → ps !! j = Some p2 → R1.mass p1 + R1.mass p2 ≠ 0 →
  let d := hypot (R1.x p2 - R1.x p1) (R1.y p2 - R1.y p1) in
  let nx := (R1.x p2 - R1.x p1) / d in
  let ny := (R1.y p2 - R1.y p1) / d in
  d < R1.radius p1 + R1.radius p2 → d > R1.EPSILON →
  ∃ ps' q1 q2, R1.collide ps i j = Some ps' ∧
    ps' !! i = Some q1 ∧ ps' !! j = Some q2 ∧
    (∀ k, k ≠ i → k ≠ j → ps' !! k = ps !! k) ∧
    R1.x q2 - R1.x q1 = (R1.radius p1 + R1.radius p2) * nx ∧
    R1.y q2 - R1.y q1 = (R1.radius p1 + R1.radius p2) * ny ∧
    hypot (R1.x q2 - R1.x q1) (R1.y q2 - R1.y q1) = R1.radius p1 + R1.radius p2 ∧
    (R1.vx q2 - R1.vx q1) * nx + (R1.vy q2 - R1.vy q1) * ny =
      - ((R1.vx p2 - R1.vx p1) * nx + (R1.vy p2 - R1.vy p1) * ny).
Proof.
  intros H1 H2 Hm d nx ny Hlt Hgt. pose proof R1PassFacts.EPSILON_pos as Heps.
  assert (Hc : R1CollisionFacts.colliding p1 p2) by done.
  assert (Hij : i ≠ j).
  { intros ->. rewrite H1 in H2. injection H2 as ->.
    by apply (R1CollisionMore.not_colliding_self p2). }
  assert (Hd : R1NeighborFacts.dist p1 p2 = d) by done.
  pose proof (R1CollisionMore.normal_unit p1 p2 ltac:(rewrite Hd; lra)) as Hn.
  pose proof (R1CollisionMore.impulse_mass p1 p2 Hm) as HI.
  unfold R1CollisionFacts.closing_speed, R1CollisionFacts.normal in Hn, HI.
  cbn [fst snd] in Hn, HI. rewrite Hd in Hn, HI. fold nx ny in Hn, HI.
  assert (Hx : R1.x (R1CollisionFacts.pushed2 p1 p2) - R1.x (R1CollisionFacts.pushed1 p1 p2)
               = (R1.radius p1 + R1.radius p2) * nx).
  { unfold R1CollisionFacts.pushed1, R1CollisionFacts.pushed2, R1CollisionFacts.overlap,
      R1CollisionFacts.normal. cbn [R1.x R1.set_v R1.set_xy fst snd].
    rewrite Hd. unfold nx. field. lra. }
  assert (Hy : R1.y (R1CollisionFacts.pushed2 p1 p2) - R1.y (R1CollisionFacts.pushed1 p1 p2)
               = (R1.radius p1 + R1.radius p2) * ny).
  { unfold R1CollisionFacts.pushed1, R1CollisionFacts.pushed2, R1CollisionFacts.overlap,
      R1CollisionFacts.normal. cbn [R1.y R1.set_v R1.set_xy fst snd].
    rewrite Hd. unfold ny. field. lra. }
  exists (<[j := R1CollisionFacts.pushed2 p1 p2]> (<[i := R1CollisionFacts.pushed1 p1 p2]> ps)),
    (R1CollisionFacts.pushed1 p1 p2), (R1CollisionFacts.pushed2 p1 p2).
  split; [by apply R1CollisionFacts.collide_colliding|].
  split.
  { rewrite list_lookup_insert_ne by done. apply list_lookup_insert_eq.
    by eapply lookup_lt_Some. }
  split.
  { apply list_lookup_insert_eq. rewrite length_insert. by eapply lookup_lt_Some. }
  split.
  { intros k Hki Hkj. by rewrite !list_lookup_insert_ne. }
  split; [done|]. split; [done|]. split.
  - rewrite Hx, Hy, hypot_mult by lra.
    assert (Hu : hypot nx ny = 1).
    { unfold hypot. rewrite Hn. apply sqrt_1. }
    rewrite Hu. lra.
  - unfold R1CollisionFacts.pushed1, R1CollisionFacts.pushed2, R1CollisionFacts.normal.
    cbn [R1.vx R1.vy R1.set_v R1.set_xy fst snd]. rewrite Hd. fold nx ny.
    generalize dependent (R1CollisionFacts.impulse p1 p2). intros I HI.
    match goal with |- ?L = - ?s =>
      assert (E : L = s - I * (R1.mass p1 + R1.mass p2) * (nx * nx + ny * ny)) by ring
    end.
    rewrite E, HI, Hn. lra.
Qed.

(** The theorem for two particles 10 apart on a horizontal line. *)
Lemma collide_resolves_pair_witness :
  ∃ ps' q1 q2,
    R1.collide [R1.set_v (R1.Particle_init 100 100) 5 0; R1.Particle_init 110 100] 0 1
      = Some ps' ∧
    ps' !! 0%nat = Some q1 ∧ ps' !! 1%nat = Some q2 ∧
    hypot (R1.x q2 - R1.x q1) (R1.y q2 - R1.y q1) = 16.
Proof.
  assert (Hd : hypot (110 - 100) (100 - 100) = 10).
  { replace (100 - 100) with 0 by lra. replace (110 - 100) with 10 by lra.
    apply hypot_horizontal. lra. }
  destruct (collide_resolves_pair
              [R1.set_v (R1.Particle_init 100 100) 5 0; R1.Particle_init 110 100]
              0 1 (R1.set_v (R1.Particle_init 100 100) 5 0) (R1.Particle_init 110 100))
    as (ps' & q1 & q2 & Hc & Hq1 & Hq2 & _ & _ & _ & Hh & _).
  - done.
  - done.
  - simpl. lra.
  - simpl. rewrite Hd. unfold R1.PARTICLE_RADIUS. lra.
  - simpl. rewrite Hd. unfold R1.EPSILON. lra.
  - exists ps', q1, q2. split; [done|]. split; [done|]. split; [done|].
    rewrite Hh. simpl. unfold R1.PARTICLE_RADIUS. lra.
Defined.

(** ** Collisions of [main-o1.py] *)

Module O1CollisionMore.
Import O1 O1Facts.

Lemma dist_sq_nonneg (bi bj : Ball) : 0 <= dist_sq bi bj.
Proof.
  pose proof (Rle_0_sqr (x bj - x bi)). pose proof (Rle_0_sqr (y bj - y bi)).
  unfold dist_sq, Rsqr in *. lra.
Qed.

(** The contact normal is a unit vector, or zero for two balls at the
    same place. *)
Lemma normal_O1_unit (bi bj : Ball) :
  dist_sq bi bj ≠ 0 →
  (normal bi bj).1 * (normal bi bj).1 + (normal bi bj).2 * (normal bi bj).2 = 1.
Proof.
  intros Hnz. unfold normal, divisor. cbn [fst snd].
  destruct (decide (dist_sq bi bj = 0)) as [|_]; [done|].
  pose proof (dist_sq_nonneg bi bj) as Hge.
  pose proof (sqrt_sqrt _ Hge) as Hs.
  assert (Hpos : 0 < sqrt (dist_sq bi bj)) by (apply sqrt_lt_R0; lra).
  unfold dist_sq in Hs at 3. generalize dependent (sqrt (dist_sq bi bj)). intros d Hs Hpos.
  field_simplify_eq; [|lra]. lra.
Qed.

Lemma normal_coincident (bi bj : Ball) :
  dist_sq bi bj = 0 → normal bi bj = (0, 0).
Proof.
  intros Hz. unfold normal.
  pose proof (Rle_0_sqr (x bj - x bi)). pose proof (Rle_0_sqr (y bj - y bi)).
  unfold dist_sq, Rsqr in *.
  assert (Hx : x bj - x bi = 0) by nra. assert (Hy : y bj - y bi = 0) by nra.
  rewrite Hx, Hy. f_equal; lra.
Qed.

Lemma pushed_coincident (bi bj : Ball) :
  dist_sq bi bj = 0 → pushed_i bi bj = bi ∧ pushed_j bi bj = bj.
Proof.
  intros Hz. unfold pushed_i, pushed_j, imp, sep_speed.
  rewrite (normal_coincident bi bj Hz). cbn [fst snd].
  destruct (Rlt_dec _ 0) as [Hlt|_]; [lra|].
  destruct bi, bj. cbn [x y vx vy]. split; f_equal; lra.
Qed.

(** The velocity exchange never adds to the sum of the squared speeds
    of the pair. *)
Lemma pushed_O1_energy (bi bj : Ball) :
  vx (pushed_i bi bj) * vx (pushed_i bi bj) + vy (pushed_i bi bj) * vy (pushed_i bi bj)
  + (vx (pushed_j bi bj) * vx (pushed_j bi bj) + vy (pushed_j bi bj) * vy (pushed_j bi bj))
  <= vx bi * vx bi + vy bi * vy bi + (vx bj * vx bj + vy bj * vy bj).
Proof.
  destruct (decide (dist_sq bi bj = 0)) as [Hz|Hnz].
  { destruct (pushed_coincident bi bj Hz) as [-> ->]. lra. }
  pose proof (normal_O1_unit bi bj Hnz) as Hn.
  unfold pushed_i, pushed_j, imp, sep_speed. cbn [vx vy].
  generalize dependent (normal bi bj). intros [nx ny]. cbn [fst snd]. intros Hn.
  set (s := (vx bj - vx bi) * nx + (vy bj - vy bi) * ny).
  unfold ELASTICITY.
  destruct (Rlt_dec s 0) as [Hlt|Hge].
  - set (I := - (1 + 0.9) * s / 2).
    match goal with |- ?L <= ?Rhs =>
      assert (E : L = Rhs + 2 * I * (s + I * (nx * nx + ny * ny))) by (unfold s; ring)
    end.
    rewrite E, Hn. unfold I. nra.
  - lra.
Qed.

(** One pair of the loops: a quantity whose sum over a pair is not
    raised by its resolution has its sum over the list not raised. *)
Lemma collide_O1_sum (f : Ball → R) (l : list Ball) (i j : nat) :
  (∀ bi bj, f (pushed_i bi bj) + f (pushed_j bi bj) <= f bi + f bj) →
  i ≠ j → (i < length l)%nat → (j < length l)%nat →
  ∃ l', collide l i j = Some l' ∧ length l' = length l ∧ sumR f l' <= sumR f l.
Proof.
  intros Hf Hij Hi Hj.
  destruct (lookup_lt_is_Some_2 l i Hi) as [bi H1].
  destruct (lookup_lt_is_Some_2 l j Hj) as [bj H2].
  destruct (Rlt_dec (dist_sq bi bj) ((2 * BALL_RADIUS) ^ 2)) as [Hlt|Hge].
  - rewrite (collide_overlapping l i j bi bj H1 H2 Hlt).
    eexists. split; [done|]. split; [by rewrite !length_insert|].
    rewrite (sumR_insert_pair f l i j bi bj) by done.
    pose proof (Hf bi bj). lra.
  - rewrite (collide_O1_apart l i j bi bj H1 H2 Hge). eexists. split; [done|].
    split; [done | lra].
Qed.

Lemma handle_ball_collisions_sum (f : Ball → R) (balls : list Ball) :
  (∀ bi bj, f (pushed_i bi bj) + f (pushed_j bi bj) <= f bi + f bj) →
  ∃ balls', handle_ball_collisions balls = Some balls' ∧
            length balls' = length balls ∧ sumR f balls' <= sumR f balls.
Proof.
  intros Hf. unfold handle_ball_collisions.
  apply (foldM_invariant _ (λ l, length l = length balls ∧ sumR f l <= sumR f balls));
    [split; [done | lra]|].
  intros l i Hi%elem_of_seq [Hl Hs].
  apply (foldM_invariant _ (λ l, length l = length balls ∧ sumR f l <= sumR f balls));
    [done|].
  intros l' j Hj%elem_of_seq [Hl' Hs'].
  destruct (collide_O1_sum f l' i j Hf) as (l'' & -> & Hl'' & Hs''); [lia | lia | lia |].
  exists l''. split; [done|]. split; [lia | lra].
Qed.

(** A quantity whose sum over a pair is kept keeps its sum over the
    list. *)
Lemma handle_ball_collisions_kept (f : Ball → R) (balls balls' : list Ball) :
  (∀ bi bj, f (pushed_i bi bj) + f (pushed_j bi bj) = f bi + f bj) →
  handle_ball_collisions balls = Some balls' →
  sumR f balls' = sumR f balls.
Proof.
  intros Hf Hb.
  destruct (handle_ball_collisions_sum f balls) as (b1 & Hb1 & _ & Hle).
  { intros bi bj. rewrite Hf. lra. }
  destruct (handle_ball_collisions_sum (λ b, - f b) balls) as (b2 & Hb2 & _ & Hge).
  { intros bi bj. pose proof (Hf bi bj). lra. }
  rewrite Hb in Hb1, Hb2. injection Hb1 as <-. injection Hb2 as <-.
  rewrite !sumR_opp in Hge. lra.
Qed.

End O1CollisionMore.

(** X8. [handle_ball_collisions] never fails, keeps the number of balls,
    conserves the sums of [vx], [vy], [x] and [y] over the balls (the
    total momentum and the centre of the equal-mass balls) and never
    increases the sum of the squared speeds (the kinetic energy). *)
Theorem handle_ball_collisions_conserves (balls : list O1.Ball) :
  ∃ balls', O1.handle_ball_collisions balls = Some balls' ∧
    length balls' = length balls ∧
    sumR O1.vx balls' = sumR O1.vx balls ∧
    sumR O1.vy balls' = sumR O1.vy balls ∧
    sumR O1.x balls' = sumR O1.x balls ∧
    sumR O1.y balls' = sumR O1.y balls ∧
    sumR (λ b, O1.vx b * O1.vx b + O1.vy b * O1.vy b) balls' <=
      sumR (λ b, O1.vx b * O1.vx b + O1.vy b * O1.vy b) balls.
Proof.
  destruct (O1CollisionMore.handle_ball_collisions_sum
              (λ b, O1.vx b * O1.vx b + O1.vy b * O1.vy b) balls)
    as (balls' & Hb & Hlen & He).
  { intros bi bj. apply O1CollisionMore.pushed_O1_energy. }
  exists balls'. split; [done|]. split; [done|].
  repeat split; try done;
    apply (O1CollisionMore.handle_ball_collisions_kept _ balls balls'); try done;
    intros bi bj; simpl; ring.
Qed.

(** X9. With the floats read as real numbers, resolving one overlapping
    pair of balls at different places in [handle_ball_collisions] moves
    the two balls along their line of centres to the distance
    [2 * BALL_RADIUS]; an approaching pair leaves with its separation speed
    multiplied by [- ELASTICITY], a separating pair keeps its velocities.
    A pair at the same place is left as it is: coincident balls are never
    separated.  In double arithmetic the distance reached is
    [2 * BALL_RADIUS] up to rounding only, and can fall just below it. *)
Theorem collide_resolves_balls (balls : list O1.Ball) (i j : nat) (bi bj : O1.Ball) :
  i ≠ j → balls !! i = Some bi → balls !! j = Some bj →
  let dx := O1.x bj - O1.x bi in
  let dy := O1.y bj - O1.y bi in
  dx * dx + dy * dy < (2 * O1.BALL_RADIUS) ^ 2 →
  (dx * dx + dy * dy = 0 → O1.collide balls i j = Some balls) ∧
  (dx * dx + dy * dy ≠ 0 →
   let nx := dx / sqrt (dx * dx + dy * dy) in
   let ny := dy / sqrt (dx * dx + dy * dy) in
   let s := (O1.vx bj - O1.vx bi) * nx + (O1.vy bj - O1.vy bi) * ny in
   ∃ balls' qi qj, O1.collide balls i j = Some balls' ∧
     balls' !! i = Some qi ∧ balls' !! j = Some qj ∧
     (∀ k, k ≠ i → k ≠ j → balls' !! k = balls !! k) ∧
     O1.x qj - O1.x qi = 2 * O1.BALL_RADIUS * nx ∧
     O1.y qj - O1.y qi = 2 * O1.BALL_RADIUS * ny ∧
     hypot (O1.x qj - O1.x qi) (O1.y qj - O1.y qi) = 2 * O1.BALL_RADIUS ∧
     (s < 0 → (O1.vx qj - O1.vx qi) * nx + (O1.vy qj - O1.vy qi) * ny
              = - O1.ELASTICITY * s) ∧
     (0 <= s → O1.vx qi = O1.vx bi ∧ O1.vy qi = O1.vy bi ∧
               O1.vx qj = O1.vx bj ∧ O1.vy qj = O1.vy bj)).
Proof.
  intros Hij Hi Hj dx dy Hlt.
  assert (Hq : O1Facts.dist_sq bi bj = dx * dx + dy * dy) by done.
  pose proof (O1Facts.collide_overlapping balls i j bi bj Hi Hj Hlt) as Hc.
  split.
  - intros Hz. rewrite Hc.
    destruct (O1CollisionMore.pushed_coincident bi bj Hz) as [-> ->].
    rewrite (list_insert_id balls i bi Hi). by rewrite list_insert_id.
  - intros Hnz nx ny s.
    pose proof (O1CollisionMore.normal_O1_unit bi bj Hnz) as Hn.
    assert (Hnorm : O1Facts.normal bi bj = (nx, ny)).
    { unfold O1Facts.normal, O1Facts.divisor. rewrite Hq.
      by destruct (decide (dx * dx + dy * dy = 0)). }
    assert (Hdiv : O1Facts.divisor bi bj = sqrt (dx * dx + dy * dy)).
    { unfold O1Facts.divisor. rewrite Hq.
      by destruct (decide (dx * dx + dy * dy = 0)). }
    pose proof (O1Facts.divisor_pos bi bj) as Hpos. rewrite Hdiv in Hpos.
    rewrite Hnorm in Hn. cbn [fst snd] in Hn.
    exists (<[j := O1Facts.pushed_j bi bj]> (<[i := O1Facts.pushed_i bi bj]> balls)),
      (O1Facts.pushed_i bi bj), (O1Facts.pushed_j bi bj).
    split; [done|]. split.
    { rewrite list_lookup_insert_ne by done. apply list_lookup_insert_eq.
      by eapply lookup_lt_Some. }
    split.
    { apply list_lookup_insert_eq. rewrite length_insert. by eapply lookup_lt_Some. }
    split.
    { intros k Hki Hkj. by rewrite !list_lookup_insert_ne. }
    assert (Hx : O1.x (O1Facts.pushed_j bi bj) - O1.x (O1Facts.pushed_i bi bj)
                 = 2 * O1.BALL_RADIUS * nx).
    { unfold O1Facts.pushed_i, O1Facts.pushed_j, O1Facts.overlap. cbn [O1.x].
      rewrite Hnorm, Hdiv. cbn [fst snd]. unfold nx, dx, dy.
      replace 0.5 with (/ 2) by lra. field. fold dx dy. lra. }
    assert (Hy : O1.y (O1Facts.pushed_j bi bj) - O1.y (O1Facts.pushed_i bi bj)
                 = 2 * O1.BALL_RADIUS * ny).
    { unfold O1Facts.pushed_i, O1Facts.pushed_j, O1Facts.overlap. cbn [O1.y].
      rewrite Hnorm, Hdiv. cbn [fst snd]. unfold ny, dx, dy.
      replace 0.5 with (/ 2) by lra. field. fold dx dy. lra. }
    split; [done|]. split; [done|]. split.
    { rewrite Hx, Hy, hypot_mult by (unfold O1.BALL_RADIUS; lra).
      assert (Hu : hypot nx ny = 1) by (unfold hypot; rewrite Hn; apply sqrt_1).
      rewrite Hu. lra. }
    assert (Hs : O1Facts.sep_speed bi bj = s).
    { unfold O1Facts.sep_speed. by rewrite Hnorm. }
    unfold O1Facts.pushed_i, O1Facts.pushed_j, O1Facts.imp. cbn [O1.vx O1.vy].
    rewrite Hnorm, Hs. cbn [fst snd].
    split.
    + intros Hneg. destruct (Rlt_dec s 0) as [_|?]; [|lra].
      match goal with |- ?L = _ =>
        assert (E : L = s + 2 * (- (1 + O1.ELASTICITY) * s / 2) * (nx * nx + ny * ny))
          by (unfold s; ring)
      end.
      rewrite E, Hn. lra.
    + intros Hpos'. destruct (Rlt_dec s 0) as [?|_]; [lra|].
      repeat split; lra.
Qed.

(** The theorem for two balls 10 apart on a horizontal line, the first
    moving toward the second. *)
Lemma collide_resolves_balls_witness :
  ∃ balls' qi qj,
    O1.collide [O1.mkBall 100 100 3 0; O1.mkBall 110 100 0 0] 0 1 = Some balls' ∧
    balls' !! 0%nat = Some qi ∧ balls' !! 1%nat = Some qj ∧
    hypot (O1.x qj - O1.x qi) (O1.y qj - O1.y qi) = 16.
Proof.
  destruct (collide_resolves_balls [O1.mkBall 100 100 3 0; O1.mkBall 110 100 0 0] 0 1
              (O1.mkBall 100 100 3 0) (O1.mkBall 110 100 0 0)) as [_ Hres].
  - lia.
  - done.
  - done.
  - simpl. unfold O1.BALL_RADIUS. lra.
  - destruct Hres as (balls' & qi & qj & Hc & Hqi & Hqj & _ & _ & _ & Hh & _).
    + simpl. lra.
    + exists balls', qi, qj. split; [done|]. split; [done|]. split; [done|].
      rewrite Hh. unfold O1.BALL_RADIUS. lra.
Defined.

(** ** The grid of [combined.py] against the sum over all particles *)

Lemma sumR_ext {A : Type} (f g : A → R) (l : list A) :
  (∀ a, a ∈ l → f a = g a) → sumR f l = sumR g l.
Proof.
  induction l as [|a l IH]; intros Hfg; simpl; [done|].
  rewrite (Hfg a) by left. rewrite IH; [done|]. intros b Hb. apply Hfg. by right.
Qed.

Lemma sumR_zero {A : Type} (f : A → R) (l : list A) :
  (∀ a, a ∈ l → f a = 0) → sumR f l = 0.
Proof.
  induction l as [|a l IH]; intros Hf; simpl; [done|].
  rewrite (Hf a) by left. rewrite IH; [lra|]. intros b Hb. apply Hf. by right.
Qed.

Lemma sumR_Permutation {A : Type} (f : A → R) (l1 l2 : list A) :
  l1 ≡ₚ l2 → sumR f l1 = sumR f l2.
Proof. induction 1; simpl; lra. Qed.

(** A sum over a duplicate-free list extends to any duplicate-free list
    around it on which the extra terms vanish. *)
Lemma sumR_support {A : Type} (g : A → R) (l l2 : list A) :
  NoDup l → NoDup l2 → (∀ j, j ∈ l → j ∈ l2) → (∀ j, j ∈ l2 → j ∉ l → g j = 0) →
  sumR g l = sumR g l2.
Proof.
  intros Hl. revert l2. induction Hl as [|a l Ha Hl IH]; intros l2 Hl2 Hsub Hout.
  - simpl. symmetry. apply sumR_zero. intros j Hj. apply Hout; [done|]. apply not_elem_of_nil.
  - destruct (proj1 (elem_of_Permutation l2 a)) as [k Hk]; [apply Hsub; left|].
    rewrite (sumR_Permutation g l2 (a :: k) Hk). simpl. f_equal.
    rewrite Hk in Hl2. apply NoDup_cons in Hl2 as [Hak Hk2].
    apply IH; [done| |].
    + intros j Hj. pose proof (Hsub j ltac:(by right)) as Hj2. rewrite Hk in Hj2.
      apply elem_of_cons in Hj2 as [->|Hj2]; done.
    + intros j Hj Hnj. apply Hout.
      * rewrite Hk. by right.
      * intros [->|Hj']%elem_of_cons; done.
Qed.

Lemma sumR_seq_lookup {A : Type} (f : A → R) (ps : list A) (k : nat) :
  sumR (λ j, from_option f 0 (ps !! (j - k)%nat)) (seq k (length ps)) = sumR f ps.
Proof.
  revert k. induction ps as [|a ps IH]; intros k; simpl; [done|].
  rewrite Nat.sub_diag. simpl. f_equal. rewrite <- (IH (S k)).
  apply sumR_ext. intros j Hj%elem_of_seq.
  replace (j - k)%nat with (S (j - S k)) by lia. done.
Qed.

Module GridExact.
Import Combined GridFacts NeighborFacts DensityFacts.

(** The term of particle [j] in the density of a particle at [p]. *)
Definition contribution (ps : list Particle) (p : vec2) (j : nat) : R :=
  from_option (λ q, poly6 (norm (vsub p (pos q))) SMOOTHING_RADIUS) 0 (ps !! j).

Lemma kernel_sum_sumR (ps : list Particle) (p : vec2) (ids : list nat) (d0 : R) :
  kernel_sum p d0 (neighbor_positions ps ids) = d0 + sumR (contribution ps p) ids.
Proof.
  revert d0. induction ids as [|a ids IH]; intros d0; simpl; [lra|].
  unfold neighbor_positions, contribution in *. simpl.
  destruct (ps !! a) as [y|]; simpl.
  - rewrite IH. lra.
  - rewrite IH. lra.
Qed.

(** A particle closer to the query than the cell size is a candidate. *)
Lemma near_candidate (sg : SpatialGrid) (ps : list Particle) (q : vec2) (ids : list nat)
    (i : nat) (p : Particle) :
  grid_of sg ps → 0 < cell_size sg → get_neighbors sg q = Some ids →
  ps !! i = Some p → norm (vsub q (pos p)) < cell_size sg → i ∈ ids.
Proof.
  intros Hg Hcs Hget Hp Hdist.
  destruct (get_neighbors_cells sg ps q Hg) as (ids' & Hget' & _ & Hcells).
  rewrite Hget in Hget'. injection Hget' as <-. apply Hcells.
  unfold norm, vsub in Hdist. simpl in Hdist.
  pose proof (hypot_ge_abs_l (c0 q - c0 (pos p)) (c1 q - c1 (pos p))) as Hx.
  pose proof (hypot_ge_abs_r (c0 q - c0 (pos p)) (c1 q - c1 (pos p))) as Hy.
  rewrite Rabs_minus_sym in Hx. rewrite Rabs_minus_sym in Hy.
  pose proof (py_int_close (c0 (pos p) / cell_size sg) (c0 q / cell_size sg)) as Hcx.
  pose proof (py_int_close (c1 (pos p) / cell_size sg) (c1 q / cell_size sg)) as Hcy.
  exists p, (py_int (c0 (pos p) / cell_size sg) - py_int (c0 q / cell_size sg))%Z,
    (py_int (c1 (pos p) / cell_size sg) - py_int (c1 q / cell_size sg))%Z.
  split; [done|].
  split; [apply elem_of_offsets, Hcx, scaled_close; [done | lra]|].
  split; [apply elem_of_offsets, Hcy, scaled_close; [done | lra]|].
  rewrite cell_of_Some by lra. do 2 f_equal; lia.
Qed.

(** With cells at least as wide as the smoothing radius, the kernel sum
    over the candidates is the kernel sum over all the particles. *)
Lemma density_of_all (sg : SpatialGrid) (ps : list Particle) (x : Particle) :
  grid_of sg ps → SMOOTHING_RADIUS <= cell_size sg →
  density_of sg ps x
  = sumR (λ q, poly6 (norm (vsub (pos x) (pos q))) SMOOTHING_RADIUS) ps.
Proof.
  intros Hg Hcs. pose proof SMOOTHING_RADIUS_pos as Hh. unfold density_of.
  destruct (get_neighbors_cells sg ps (pos x) Hg) as (ids & Hget & Hids & _).
  rewrite Hget. simpl. rewrite kernel_sum_sumR, Rplus_0_l.
  rewrite <- (sumR_seq_lookup _ ps 0).
  transitivity (sumR (contribution ps (pos x)) (seq 0 (length ps))).
  - apply sumR_support.
    + rewrite Hids. destruct Hg as [Hnz Hlook].
      apply GridMore.concat_map_NoDup.
      * apply GridMore.block_NoDup.
      * intros c. rewrite Hlook. apply GridMore.bucket_NoDup.
      * intros c c' i _ _. rewrite !Hlook, !elem_of_bucket, !Nat.sub_0_r.
        intros (_ & p & Hp & Hc) (_ & p' & Hp' & Hc').
        rewrite Hp in Hp'. injection Hp' as <-. rewrite Hc in Hc'. by injection Hc'.
    + apply NoDup_seq.
    + intros j Hj. apply elem_of_seq. split; [lia|]. simpl.
      by eapply get_neighbors_valid.
    + intros j Hj%elem_of_seq Hnj. unfold contribution.
      destruct (ps !! j) as [q|] eqn:Hq; [|done]. simpl.
      unfold poly6. destruct (Rlt_dec _ _) as [Hlt|]; [|done].
      destruct Hnj. eapply near_candidate; try done; lra.
  - apply sumR_ext. intros j _. unfold contribution. by rewrite Nat.sub_0_r.
Qed.

End GridExact.

(** X10. With grid cells at least as wide as the smoothing radius (the
    simulation builds the grid with exactly that size), the density
    [update_physics] gives a particle through the grid is the sum of the
    poly6 kernel over all the particles, itself included: the 3x3 block of
    cells leaves out no particle that contributes and counts none
    twice. *)
Theorem grid_density_exact (s : Combined.FluidSimulation) :
  Combined.SMOOTHING_RADIUS <= Combined.cell_size (Combined.sgrid s) →
  ∃ s', Combined.update_physics s = Some s' ∧
    ∀ i p, Combined.particles s !! i = Some p →
      ∃ p', Combined.particles s' !! i = Some p' ∧
        Combined.density p'
        = sumR (λ q, poly6 (norm (vsub (Combined.pos p) (Combined.pos q)))
                       Combined.SMOOTHING_RADIUS)
               (Combined.particles s).
Proof.
  intros Hcs. pose proof DensityFacts.SMOOTHING_RADIUS_pos as Hh.
  destruct (ForceFacts.update_physics_total s) as (s' & Hs' & _ & _ & Hsz & Hg & _ & _ & Hden);
    [lra|].
  exists s'. split; [done|]. intros i p Hp.
  assert (H : (Combined.density <$> Combined.particles s') !! i
              = Some (DensityFacts.density_of (Combined.sgrid s') (Combined.particles s) p))
    by (by rewrite Hden, list_lookup_fmap, Hp).
  rewrite list_lookup_fmap in H.
  destruct (Combined.particles s' !! i) as [p'|]; [|done].
  exists p'. split; [done|]. simpl in H. injection H as ->.
  apply GridExact.density_of_all; [done | lra].
Qed.

(** The theorem for two particles 10 apart, in a grid of cell size 30. *)
Lemma grid_density_exact_witness :
  ∃ s', Combined.update_physics
          (Combined.mkSim 800 600
             [Combined.Particle_init (V2 100 100); Combined.Particle_init (V2 110 100)]
             (Combined.mkGrid Combined.SMOOTHING_RADIUS ∅)) = Some s'.
Proof.
  destruct (grid_density_exact
              (Combined.mkSim 800 600
                 [Combined.Particle_init (V2 100 100); Combined.Particle_init (V2 110 100)]
                 (Combined.mkGrid Combined.SMOOTHING_RADIUS ∅))) as (s' & Hs' & _).
  - simpl. lra.
  - by exists s'.
Defined.

(** ** What a frame of [main-R1.py] keeps *)

Module R1FrameMore.
Import R1 R1NeighborFacts R1PassFacts R1CollisionFacts R1StepFacts.

(** The radius, the mass and the acceleration: what the collision
    handling and the damping never change. *)
Definition inert (p : Particle) : R * R * R * R := (radius p, mass p, ax p, ay p).

Lemma fmap_lookup_eq {T : Type} (f : Particle → T) (l ps : list Particle) (k : nat)
    (p : Particle) :
  f <$> l = f <$> ps → l !! k = Some p → ∃ q, ps !! k = Some q ∧ f q = f p.
Proof.
  intros Heq Hk.
  assert (H : (f <$> ps) !! k = Some (f p)) by (by rewrite <- Heq, list_lookup_fmap, Hk).
  rewrite list_lookup_fmap in H. destruct (ps !! k) as [q|]; [|done].
  exists q. split; [done|]. by apply (inj Some).
Qed.

Lemma collide_inert (l : list Particle) (i j : nat) (p1 p2 : Particle) :
  l !! i = Some p1 → l !! j = Some p2 → 0 < mass p1 → 0 < mass p2 →
  ∃ l', collide l i j = Some l' ∧ inert <$> l' = inert <$> l.
Proof.
  intros H1 H2 Hm1 Hm2.
  destruct (Rlt_dec (dist p1 p2) (radius p1 + radius p2)) as [Hlt|Hge];
    [destruct (Rgt_dec (dist p1 p2) EPSILON) as [Hgt|Hle]|].
  - rewrite (collide_colliding l i j p1 p2) by (done || lra).
    eexists. split; [done|].
    rewrite !list_fmap_insert.
    assert (Hb1 : inert (pushed1 p1 p2) = inert p1) by done.
    assert (Hb2 : inert (pushed2 p1 p2) = inert p2) by done.
    rewrite Hb1, Hb2.
    rewrite (list_insert_id (inert <$> l) i) by (by rewrite list_lookup_fmap, H1).
    rewrite list_insert_id by (by rewrite list_lookup_fmap, H2). done.
  - rewrite (collide_apart l i j p1 p2) by (done || intros [? ?]; lra). by eexists.
  - rewrite (collide_apart l i j p1 p2) by (done || intros [? ?]; lra). by eexists.
Qed.

Lemma handle_collisions_inert (ps : list Particle) :
  (∀ p, p ∈ ps → 0 < mass p) →
  ∃ ps', handle_collisions ps = Some ps' ∧ inert <$> ps' = inert <$> ps.
Proof.
  intros Hmass. unfold handle_collisions.
  assert (Hpos : ∀ l k p, inert <$> l = inert <$> ps → l !! k = Some p → 0 < mass p).
  { intros l k p Hl Hk. destruct (fmap_lookup_eq inert l ps k p Hl Hk) as (q & Hq & Heq).
    injection Heq as _ Hm _ _. rewrite <- Hm. apply Hmass. by eapply list_elem_of_lookup_2. }
  apply (foldM_invariant _ (λ l, inert <$> l = inert <$> ps)); [done|].
  intros l i Hi%elem_of_seq Hl.
  assert (Hll : length l = length ps)
    by (by rewrite <- (length_fmap inert l), Hl, length_fmap).
  apply (foldM_invariant _ (λ l, inert <$> l = inert <$> ps)); [done|].
  intros l' j Hj%elem_of_seq Hl'.
  assert (Hll' : length l' = length ps)
    by (by rewrite <- (length_fmap inert l'), Hl', length_fmap).
  destruct (lookup_lt_is_Some_2 l' i) as [p1 H1]; [lia|].
  destruct (lookup_lt_is_Some_2 l' j) as [p2 H2]; [lia|].
  destruct (collide_inert l' i j p1 p2 H1 H2) as (l'' & Hc & Hi'');
    [by eapply Hpos | by eapply Hpos|].
  exists l''. split; [done|]. congruence.
Qed.

End R1FrameMore.

(** X11. A frame of [main-R1.py] on particles of positive mass never
    fails and keeps the window size, the number of particles and the
    radius and mass of each; it leaves every acceleration at zero, so the
    forces that [apply_force] accumulates never carry over to the next
    frame. *)
Theorem frame_keeps_particles (s : R1.Sim) (dt : R) :
  (∀ p, p ∈ R1.particles s → 0 < R1.mass p) →
  ∃ s', R1.step s dt = Some s' ∧
    R1.width s' = R1.width s ∧ R1.height s' = R1.height s ∧
    length (R1.particles s') = length (R1.particles s) ∧
    ∀ i p, R1.particles s !! i = Some p →
      ∃ p', R1.particles s' !! i = Some p' ∧
        R1.radius p' = R1.radius p ∧ R1.mass p' = R1.mass p ∧
        R1.ax p' = 0 ∧ R1.ay p' = 0.
Proof.
  intros Hmass.
  destruct (R1StepFacts.step_R1_total s dt Hmass) as (ps3 & ps5 & Hk & Hc & _ & Hstep).
  set (ps4 := map (R1.integrate (R1.width s) (R1.height s) dt) ps3) in *.
  destruct (R1FrameMore.handle_collisions_inert ps4) as (ps5' & Hc' & Hin).
  { intros p (q & -> & Hq)%list_elem_of_fmap.
    pose proof (R1StepFacts.kin_mass_pos ps3 (R1.particles s) Hmass Hk q Hq) as Hm.
    unfold R1.integrate. by destruct (R1.bounce _ _ _ _), (R1.bounce _ _ _ _). }
  rewrite Hc in Hc'. injection Hc' as <-.
  assert (Hlen5 : length ps5 = length (R1.particles s)).
  { rewrite <- (length_fmap R1FrameMore.inert ps5), Hin, length_fmap.
    unfold ps4. rewrite length_map.
    by rewrite <- (length_fmap R1StepFacts.kin ps3), Hk, length_fmap. }
  eexists. split; [done|]. cbn [R1.width R1.height R1.particles].
  split; [done|]. split; [done|]. split; [by rewrite length_map|].
  intros i p Hp.
  destruct (lookup_lt_is_Some_2 ps5 i) as [p5 H5];
    [rewrite Hlen5; by eapply lookup_lt_Some|].
  exists (R1.damp p5). split; [by rewrite list_lookup_fmap, H5|].
  destruct (R1FrameMore.fmap_lookup_eq R1FrameMore.inert ps5 ps4 i p5 Hin H5)
    as (p4 & H4 & Heq4).
  unfold ps4 in H4. rewrite list_lookup_fmap in H4.
  destruct (ps3 !! i) as [p3|] eqn:H3; [|done]. simpl in H4. injection H4 as <-.
  destruct (R1FrameMore.fmap_lookup_eq R1StepFacts.kin ps3 (R1.particles s) i p3 Hk H3)
    as (p0 & H0 & Heq0).
  rewrite Hp in H0. injection H0 as <-.
  unfold R1FrameMore.inert in Heq4. injection Heq4 as Hr Hm Hax Hay.
  unfold R1StepFacts.kin in Heq0. injection Heq0 as _ _ _ _ Hr0 Hm0.
  unfold R1.integrate in Hr, Hm, Hax, Hay.
  destruct (R1.bounce _ _ _ _), (R1.bounce _ _ _ _). simpl in *.
  repeat split; congruence.
Qed.

(** The theorem for two overlapping particles in an 800 by 600 window. *)
Lemma frame_keeps_particles_witness :
  ∃ s', R1.step (R1.mkSim 800 600 [R1.Particle_init 100 100; R1.Particle_init 110 100])
                0.016 = Some s' ∧
        length (R1.particles s') = 2%nat.
Proof.
  destruct (frame_keeps_particles
              (R1.mkSim 800 600 [R1.Particle_init 100 100; R1.Particle_init 110 100]) 0.016)
    as (s' & Hs' & _ & _ & Hlen & _).
  - intros p Hp. simpl in Hp.
    repeat (apply elem_of_cons in Hp as [->|Hp]; [simpl; lra|]).
    by apply elem_of_nil in Hp.
  - by exists s'.
Defined.

(** ** A particle of [main-R1.py] with no neighbour *)

(** X12. In [main-R1.py], a particle of positive mass with no other
    particle closer than the smoothing radius leaves the density, force
    and gravity passes with the floor density 100, the pressure -45000
    (negative, whatever the comment on the floor says), its position and
    velocity unchanged, and its acceleration raised by exactly [GRAVITY]
    downward: it is in free fall, whatever its mass. *)
Theorem isolated_particle_free_fall (ps : list R1.Particle) (i : nat) (p : R1.Particle) :
  (∀ q, q ∈ ps → 0 < R1.mass q) →
  ps !! i = Some p →
  (∀ j q, ps !! j = Some q → j ≠ i →
     ¬ hypot (R1.x q - R1.x p) (R1.y q - R1.y p) < R1.SMOOTHING_RADIUS) →
  ∃ ps1 ps2 ps3 p3,
    R1.compute_density_pressure ps (R1.find_neighbors ps R1.SMOOTHING_RADIUS)
      R1.SMOOTHING_RADIUS = Some ps1 ∧
    R1.compute_forces ps1 (R1.find_neighbors ps R1.SMOOTHING_RADIUS)
      R1.SMOOTHING_RADIUS = Some ps2 ∧
    mapM (λ p, R1.apply_force p 0 (R1.GRAVITY * R1.mass p)) ps2 = Some ps3 ∧
    ps3 !! i = Some p3 ∧
    R1.density p3 = 100 ∧ R1.pressure p3 = -45000 ∧
    R1.x p3 = R1.x p ∧ R1.y p3 = R1.y p ∧ R1.vx p3 = R1.vx p ∧ R1.vy p3 = R1.vy p ∧
    R1.ax p3 = R1.ax p ∧ R1.ay p3 = R1.ay p + R1.GRAVITY.
Proof.
  intros Hmass Hp Hiso. pose proof R1PassFacts.R1_SMOOTHING_RADIUS_pos as Hh.
  pose proof (R1PassFacts.find_neighbors_valid ps R1.SMOOTHING_RADIUS) as Hval.
  pose proof (R1IsolatedMore.find_neighbors_isolated ps _ i p Hp Hiso) as Hni.
  set (nb := R1.find_neighbors ps R1.SMOOTHING_RADIUS) in *.
  pose proof (R1PassFacts.compute_density_pressure_imap ps nb _ Hh Hval) as H1.
  set (ps1 := imap (R1PassFacts.with_density ps nb R1.SMOOTHING_RADIUS) ps) in *.
  assert (Hp1 : ps1 !! i = Some (R1PassFacts.with_density ps nb R1.SMOOTHING_RADIUS i p)).
  { unfold ps1. by rewrite list_lookup_imap, Hp. }
  assert (Hm1 : ∀ q, q ∈ ps1 → R1.mass q ≠ 0).
  { intros q [k Hk]%list_elem_of_lookup. unfold ps1 in Hk.
    rewrite list_lookup_imap in Hk. destruct (ps !! k) as [q0|] eqn:Hq0; [|done].
    simpl in Hk. injection Hk as <-. simpl.
    pose proof (Hmass q0 ltac:(by eapply list_elem_of_lookup_2)). lra. }
  destruct (R1IsolatedMore.compute_forces_isolated ps1 nb R1.SMOOTHING_RADIUS i
              (R1PassFacts.with_density ps nb R1.SMOOTHING_RADIUS i p) Hh)
    as (ps2 & H2 & Hs2 & q2 & Hq2 & Hax2 & Hay2);
    [by unfold ps1; rewrite length_imap | done | done | done |].
  assert (Hm2 : ∀ q, q ∈ ps2 → R1.mass q ≠ 0).
  { intros q [k Hk]%list_elem_of_lookup.
    destruct (R1PassFacts.strip_R1_lookup ps2 ps1 k q Hs2 Hk) as (q1 & Hq1 & Heq).
    assert (R1.mass q = R1.mass q1) as -> by (by injection Heq).
    apply Hm1. by eapply list_elem_of_lookup_2. }
  destruct (R1PassFacts.gravity_total ps2 Hm2) as (ps3 & H3 & _).
  pose proof (proj1 (mapM_Some _ _ _) H3) as Hall.
  destruct (Forall2_lookup_l _ _ _ i q2 Hall Hq2) as (p3 & Hp3 & Hg).
  exists ps1, ps2, ps3, p3. split; [done|]. split; [done|]. split; [done|].
  split; [done|].
  destruct (R1PassFacts.strip_R1_lookup ps2 ps1 i q2 Hs2 Hq2) as (q1 & Hq1 & Heq).
  rewrite Hp1 in Hq1. injection Hq1 as <-.
  assert (Hmq : R1.mass q2 ≠ 0) by (apply Hm2; by eapply list_elem_of_lookup_2).
  rewrite (R1PassFacts.apply_force_Some q2 _ _ Hmq) in Hg. injection Hg as <-.
  unfold R1PassFacts.strip, R1PassFacts.with_density in Heq. rewrite Hni in Heq.
  simpl in Heq. injection Heq as Hx Hy Hvx Hvy _ _ Hd Hpr.
  simpl. rewrite Hx, Hy, Hvx, Hvy, Hd, Hpr, Hax2, Hay2. simpl.
  unfold R1.REST_DENSITY, R1.PRESSURE_STIFFNESS, R1.GRAVITY.
  assert (HR : Rmax 0 (1000.0 * 0.1) = 100) by (rewrite Rmax_right; lra).
  rewrite HR. repeat split; try lra.
  field. done.
Qed.

(** The theorem for a single particle. *)
Lemma isolated_particle_free_fall_witness :
  ∃ (ps3 : list R1.Particle) p3,
    ps3 !! 0%nat = Some p3 ∧ R1.density p3 = 100 ∧ R1.pressure p3 = -45000 ∧
    R1.ay p3 = R1.ay (R1.Particle_init 100 100) + R1.GRAVITY.
Proof.
  destruct (isolated_particle_free_fall [R1.Particle_init 100 100] 0
              (R1.Particle_init 100 100))
    as (ps1 & ps2 & ps3 & p3 & _ & _ & _ & Hp3 & Hd & Hpr & _ & _ & _ & _ & _ & Hay).
  - intros q Hq. apply list_elem_of_singleton in Hq as ->. simpl. lra.
  - done.
  - intros [|j] q Hq Hj; [done|]. by destruct j.
  - by exists ps3, p3.
Defined.

(** ** Walls *)

Module WallMore.

Lemma map_fixed {A : Type} (f : A → A) (l : list A) :
  map f l = l ↔ ∀ a, a ∈ l → f a = a.
Proof.
  induction l as [|a l IH]; simpl.
  - split; [intros _ a Ha; by apply elem_of_nil in Ha | done].
  - split.
    + intros [= Ha Hl] b [->|Hb]%elem_of_cons; [done|]. by apply IH.
    + intros H. rewrite (H a) by left. f_equal. apply IH. intros b Hb. apply H. by right.
Qed.

Lemma handle_boundaries1_fixed (w h : R) (p : Combined.Particle) :
  Combined.handle_boundaries1 w h p = p ↔
  Combined.PARTICLE_RADIUS <= c0 (Combined.pos p) <= w - Combined.PARTICLE_RADIUS ∧
  Combined.PARTICLE_RADIUS <= c1 (Combined.pos p) <= h - Combined.PARTICLE_RADIUS.
Proof.
  split.
  - intros Heq.
    assert (Hpos : Combined.pos (Combined.handle_boundaries1 w h p) = Combined.pos p)
      by (by rewrite Heq).
    rewrite CombinedStepFacts.handle_boundaries1_pos in Hpos.
    destruct (Combined.pos p) as [px py]. injection Hpos as Hx Hy. simpl in *.
    destruct (CombinedStepFacts.bounce_cases px (c0 (Combined.vel p)) w)
      as [[H1 E1]|[(H1 & H2 & E1)|[H1 E1]]];
    destruct (CombinedStepFacts.bounce_cases py (c1 (Combined.vel p)) h)
      as [[H3 E3]|[(H3 & H4 & E3)|[H3 E3]]];
    rewrite E1 in Hx; rewrite E3 in Hy; simpl in Hx, Hy; lra.
  - intros [Hx Hy]. unfold Combined.handle_boundaries1.
    rewrite (CombinedStepFacts.bounce_id _ _ _ Hx), (CombinedStepFacts.bounce_id _ _ _ Hy).
    destruct p as [[px py] [vx vy] a d pr]. done.
Qed.

Lemma wall1_fixed (w h : R) (b : O1.Ball) :
  (let '(x', vx') := O1.bounce (O1.x b) (O1.vx b) w in
   let '(y', vy') := O1.bounce (O1.y b) (O1.vy b) h in
   O1.mkBall x' y' vx' vy') = b ↔
  O1.BALL_RADIUS <= O1.x b <= w - O1.BALL_RADIUS ∧
  O1.BALL_RADIUS <= O1.y b <= h - O1.BALL_RADIUS.
Proof.
  destruct b as [bx by_ bvx bvy]. simpl.
  destruct (O1Facts.bounce_O1_cases bx bvx w) as [[H1 ->]|[(H1 & H2 & ->)|[H1 ->]]];
  destruct (O1Facts.bounce_O1_cases by_ bvy h) as [[H3 ->]|[(H3 & H4 & ->)|[H3 ->]]];
  (split; [intros Heq; first [lra | injection Heq; intros; lra]
          | intros [? ?]; try lra; done]).
Qed.

End WallMore.

(** X13. The wall handlers change a state exactly when some particle is
    out of bounds: [handle_boundaries] of [combined.py] returns the
    simulation unchanged if and only if every particle is within
    [PARTICLE_RADIUS] of no wall, and likewise [handle_wall_collisions]
    of [main-o1.py] for the balls; this holds for every window size. *)
Theorem wall_handlers_fixed_points :
  (∀ s : Combined.FluidSimulation,
     Combined.handle_boundaries s = s ↔
     ∀ p, p ∈ Combined.particles s →
       Combined.PARTICLE_RADIUS <= c0 (Combined.pos p)
         <= Combined.width s - Combined.PARTICLE_RADIUS ∧
       Combined.PARTICLE_RADIUS <= c1 (Combined.pos p)
         <= Combined.height s - Combined.PARTICLE_RADIUS) ∧
  (∀ (balls : list O1.Ball) (w h : R),
     O1.handle_wall_collisions balls w h = balls ↔
     ∀ b, b ∈ balls →
       O1.BALL_RADIUS <= O1.x b <= w - O1.BALL_RADIUS ∧
       O1.BALL_RADIUS <= O1.y b <= h - O1.BALL_RADIUS).
Proof.
  split.
  - intros [w h ps sg]. unfold Combined.handle_boundaries, Combined.set_particles.
    cbn [Combined.width Combined.height Combined.particles Combined.sgrid].
    transitivity (map (Combined.handle_boundaries1 w h) ps = ps).
    + split; [by intros [= ?] | by intros ->].
    + rewrite WallMore.map_fixed. split.
      * intros H p Hp. apply WallMore.handle_boundaries1_fixed. by apply H.
      * intros H p Hp. apply WallMore.handle_boundaries1_fixed. by apply H.
  - intros balls w h. unfold O1.handle_wall_collisions.
    rewrite WallMore.map_fixed. split.
    + intros H b Hb. apply WallMore.wall1_fixed. by apply H.
    + intros H b Hb. apply WallMore.wall1_fixed. by apply H.
Qed.

(** X14. A wall never speeds a particle up.  In all three programs the
    boundary handling leaves each velocity component as it is, or
    negates it and scales it by the damping factor (0.95, 0.8, 0.9), and
    it does the latter exactly when it moves the position on that axis;
    so the magnitude of each component, and the speed, never grow.  In
    [main-R1.py], where the boundary constraints follow the integration
    in one loop body, the velocity and the position compared are those
    just integrated. *)
Theorem walls_never_speed_up :
  (∀ (w h : R) (p : Combined.Particle),
     let p' := Combined.handle_boundaries1 w h p in
     (c0 (Combined.pos p') = c0 (Combined.pos p) ∧ c0 (Combined.vel p') = c0 (Combined.vel p) ∨
      c0 (Combined.pos p') ≠ c0 (Combined.pos p) ∧
        c0 (Combined.vel p') = - Combined.DAMPING * c0 (Combined.vel p)) ∧
     (c1 (Combined.pos p') = c1 (Combined.pos p) ∧ c1 (Combined.vel p') = c1 (Combined.vel p) ∨
      c1 (Combined.pos p') ≠ c1 (Combined.pos p) ∧
        c1 (Combined.vel p') = - Combined.DAMPING * c1 (Combined.vel p)) ∧
     norm (Combined.vel p') <= norm (Combined.vel p)) ∧
  (∀ (w h dt : R) (p : R1.Particle),
     let p' := R1.integrate w h dt p in
     let vx1 := R1.vx p + R1.ax p * dt in
     let vy1 := R1.vy p + R1.ay p * dt in
     (R1.x p' = R1.x p + vx1 * dt ∧ R1.vx p' = vx1 ∨
      R1.x p' ≠ R1.x p + vx1 * dt ∧ R1.vx p' = - R1.BOUNDARY_DAMPING * vx1) ∧
     (R1.y p' = R1.y p + vy1 * dt ∧ R1.vy p' = vy1 ∨
      R1.y p' ≠ R1.y p + vy1 * dt ∧ R1.vy p' = - R1.BOUNDARY_DAMPING * vy1) ∧
     hypot (R1.vx p') (R1.vy p') <= hypot vx1 vy1) ∧
  (∀ (balls : list O1.Ball) (w h : R) (i : nat) (b : O1.Ball),
     balls !! i = Some b →
     ∃ b', O1.handle_wall_collisions balls w h !! i = Some b' ∧
       (O1.x b' = O1.x b ∧ O1.vx b' = O1.vx b ∨
        O1.x b' ≠ O1.x b ∧ O1.vx b' = - O1.ELASTICITY * O1.vx b) ∧
       (O1.y b' = O1.y b ∧ O1.vy b' = O1.vy b ∨
        O1.y b' ≠ O1.y b ∧ O1.vy b' = - O1.ELASTICITY * O1.vy b) ∧
       hypot (O1.vx b') (O1.vy b') <= hypot (O1.vx b) (O1.vy b)).
Proof.
  assert (Hhyp : ∀ a b a' b', Rabs a' <= Rabs a → Rabs b' <= Rabs b →
                   hypot a' b' <= hypot a b).
  { intros a b a' b' Ha%Rsqr_le_abs_1 Hb%Rsqr_le_abs_1. unfold hypot.
    apply sqrt_le_1_alt. unfold Rsqr in *. lra. }
  assert (Hscale : ∀ k v, 0 <= k <= 1 → Rabs (- k * v) <= Rabs v).
  { intros k v Hk. rewrite Rabs_mult, Rabs_Ropp, (Rabs_pos_eq k) by lra.
    pose proof (Rabs_pos v). nra. }
  split; [|split].
  - intros w h p p'. unfold p', Combined.handle_boundaries1.
    destruct (CombinedStepFacts.bounce_cases (c0 (Combined.pos p)) (c0 (Combined.vel p)) w)
      as [[H1 ->]|[(H1 & H2 & ->)|[H1 ->]]];
    destruct (CombinedStepFacts.bounce_cases (c1 (Combined.pos p)) (c1 (Combined.vel p)) h)
      as [[H3 ->]|[(H3 & H4 & ->)|[H3 ->]]];
    cbn [Combined.pos Combined.vel c0 c1]; unfold norm; cbn [c0 c1];
    (split; [first [left; split; [lra | lra] | right; split; [lra | lra]]|]);
    (split; [first [left; split; [lra | lra] | right; split; [lra | lra]]|]);
    apply Hhyp;
    try (replace (c0 (Combined.vel p) * - Combined.DAMPING)
           with (- Combined.DAMPING * c0 (Combined.vel p)) by lra);
    try (replace (c1 (Combined.vel p) * - Combined.DAMPING)
           with (- Combined.DAMPING * c1 (Combined.vel p)) by lra);
    first [apply Hscale; unfold Combined.DAMPING; lra | lra].
  - intros w h dt p p' vx1 vy1. unfold p', R1.integrate. fold vx1 vy1.
    destruct (R1StepFacts.bounce_R1_cases (R1.radius p) (R1.x p + vx1 * dt) vx1 w)
      as [[H1 ->]|[(H1 & H2 & ->)|[H1 ->]]];
    destruct (R1StepFacts.bounce_R1_cases (R1.radius p) (R1.y p + vy1 * dt) vy1 h)
      as [[H3 ->]|[(H3 & H4 & ->)|[H3 ->]]];
    cbn [R1.x R1.y R1.vx R1.vy];
    (split; [first [left; split; [lra | lra] | right; split; [lra | lra]]|]);
    (split; [first [left; split; [lra | lra] | right; split; [lra | lra]]|]);
    apply Hhyp;
    try (replace (vx1 * - R1.BOUNDARY_DAMPING) with (- R1.BOUNDARY_DAMPING * vx1) by lra);
    try (replace (vy1 * - R1.BOUNDARY_DAMPING) with (- R1.BOUNDARY_DAMPING * vy1) by lra);
    first [apply Hscale; unfold R1.BOUNDARY_DAMPING; lra | lra].
  - intros balls w h i b Hb. unfold O1.handle_wall_collisions.
    change (map ?f ?l) with (f <$> l). rewrite list_lookup_fmap, Hb. simpl.
    eexists. split; [done|].
    destruct (O1Facts.bounce_O1_cases (O1.x b) (O1.vx b) w)
      as [[H1 ->]|[(H1 & H2 & ->)|[H1 ->]]];
    destruct (O1Facts.bounce_O1_cases (O1.y b) (O1.vy b) h)
      as [[H3 ->]|[(H3 & H4 & ->)|[H3 ->]]];
    cbn [O1.x O1.y O1.vx O1.vy];
    (split; [first [left; split; [lra | lra] | right; split; [lra | lra]]|]);
    (split; [first [left; split; [lra | lra] | right; split; [lra | lra]]|]);
    apply Hhyp;
    try (replace (- O1.vx b * O1.ELASTICITY) with (- O1.ELASTICITY * O1.vx b) by lra);
    try (replace (- O1.vy b * O1.ELASTICITY) with (- O1.ELASTICITY * O1.vy b) by lra);
    first [apply Hscale; unfold O1.ELASTICITY; lra | lra].
Qed.

(** ** Resizing the window *)

Module ResizeMore.

(** Case analysis on a comparison none of whose sides is itself a
    conditional. *)
Ltac case_innermost :=
  match goal with
  | |- context [Rle_dec ?a ?b] =>
      lazymatch a with
      | context [Rle_dec _ _] => fail
      | _ => lazymatch b with
             | context [Rle_dec _ _] => fail
             | _ => destruct (Rle_dec a b)
             end
      end
  end.

Lemma clamp_min_max_idem (x lo hi : R) :
  Rmin (Rmax (Rmin (Rmax x lo) hi) lo) hi = Rmin (Rmax x lo) hi.
Proof.
  unfold Rmin, Rmax. repeat case_innermost; lra.
Qed.

Lemma clamp_max_min_idem (x lo hi : R) :
  Rmax lo (Rmin (Rmax lo (Rmin x hi)) hi) = Rmax lo (Rmin x hi).
Proof.
  unfold Rmin, Rmax. repeat case_innermost; lra.
Qed.

Lemma clamp_min_max_bounds (x lo hi : R) :
  lo <= hi → lo <= Rmin (Rmax x lo) hi <= hi.
Proof.
  intros Hlh. unfold Rmin, Rmax. repeat case_innermost; lra.
Qed.

End ResizeMore.

(** X15. Resizing twice to the same window is resizing once, in
    [combined.py] and in [main-R1.py], whatever the window size; and in
    [combined.py], after a resize to a window at least two radii wide and
    high, [handle_boundaries] changes nothing: the resize itself never
    makes a particle bounce. *)
Theorem resize_idempotent :
  (∀ (s : Combined.FluidSimulation) (w h : R),
     Combined.on_resize (Combined.on_resize s (w, h)) (w, h) = Combined.on_resize s (w, h)) ∧
  (∀ (s : Combined.FluidSimulation) (w h : R),
     2 * Combined.PARTICLE_RADIUS <= w → 2 * Combined.PARTICLE_RADIUS <= h →
     Combined.handle_boundaries (Combined.on_resize s (w, h)) = Combined.on_resize s (w, h)) ∧
  (∀ (s : R1.Sim) (w h : R),
     R1.on_resize (R1.on_resize s w h) w h = R1.on_resize s w h).
Proof.
  split; [|split].
  - intros s w h. unfold Combined.on_resize.
    cbn [Combined.particles Combined.sgrid]. f_equal.
    rewrite map_map. apply map_ext. intros p. unfold Combined.set_pos.
    cbn [Combined.pos Combined.vel Combined.acc Combined.density Combined.pressure c0 c1].
    by rewrite !ResizeMore.clamp_min_max_idem.
  - intros s w h Hw Hh. unfold Combined.on_resize, Combined.handle_boundaries,
      Combined.set_particles.
    cbn [Combined.particles Combined.sgrid Combined.width Combined.height]. f_equal.
    rewrite map_map. apply map_ext. intros p.
    apply WallMore.handle_boundaries1_fixed. unfold Combined.set_pos.
    cbn [Combined.pos c0 c1].
    split; apply ResizeMore.clamp_min_max_bounds; lra.
  - intros s w h. unfold R1.on_resize. cbn [R1.particles]. f_equal.
    rewrite map_map. apply map_ext. intros p. unfold R1.set_xy.
    cbn [R1.x R1.y R1.vx R1.vy R1.ax R1.ay R1.radius R1.mass R1.density R1.pressure].
    by rewrite !ResizeMore.clamp_max_min_idem.
Qed.

(** X16. In [main-o1.py], between two windows that are both at least
    two radii wide and high, a resize never fails and resizing back
    restores every ball exactly (positions are rescaled, not clamped);
    and a resize that shrinks neither dimension keeps balls that were
    within the walls within the walls. *)
Theorem resize_rescales_balls (s : O1.Sim) (w h : R) :
  2 * O1.BALL_RADIUS <= O1.current_width s →
  2 * O1.BALL_RADIUS <= O1.current_height s →
  2 * O1.BALL_RADIUS <= w → 2 * O1.BALL_RADIUS <= h →
  ∃ s', O1.on_resize s w h = Some s' ∧
    O1.on_resize s' (O1.current_width s) (O1.current_height s) = Some s ∧
    (O1.current_width s <= w → O1.current_height s <= h →
     (∀ b, b ∈ O1.balls s →
        O1.BALL_RADIUS <= O1.x b <= O1.current_width s - O1.BALL_RADIUS ∧
        O1.BALL_RADIUS <= O1.y b <= O1.current_height s - O1.BALL_RADIUS) →
     ∀ b, b ∈ O1.balls s' →
        O1.BALL_RADIUS <= O1.x b <= w - O1.BALL_RADIUS ∧
        O1.BALL_RADIUS <= O1.y b <= h - O1.BALL_RADIUS).
Proof.
  destruct s as [cw ch balls]. cbn [O1.current_width O1.current_height O1.balls].
  unfold O1.BALL_RADIUS. intros Hcw Hch Hw Hh.
  assert (Hr : ∀ a b, 2 * 8 <= a → 2 * 8 <= b →
            ∀ bs, O1.on_resize (O1.mkSim a b bs) w h
                  = Some (O1.mkSim w h
                            (map (λ b0, O1.mkBall (O1.x b0 * (w / a)) (O1.y b0 * (h / b))
                                          (O1.vx b0) (O1.vy b0)) bs))).
  { intros a b Ha Hb bs. unfold O1.on_resize, O1.BALL_RADIUS.
    destruct (Rlt_dec w (2 * 8)); [lra|]. destruct (Rlt_dec h (2 * 8)); [lra|].
    cbn [O1.current_width O1.current_height O1.balls].
    rewrite !checked_div_Some by lra. done. }
  rewrite (Hr cw ch Hcw Hch). eexists. split; [done|]. split.
  - unfold O1.on_resize, O1.BALL_RADIUS.
    destruct (Rlt_dec cw (2 * 8)); [lra|]. destruct (Rlt_dec ch (2 * 8)); [lra|].
    cbn [O1.current_width O1.current_height O1.balls].
    rewrite !checked_div_Some by lra. cbn [mbind option_bind]. do 2 f_equal.
    rewrite map_map. apply WallMore.map_fixed. intros [bx by_ bvx bvy] _.
    cbn [O1.x O1.y O1.vx O1.vy]. f_equal; field; lra.
  - intros Hgw Hgh Hin b Hb. cbn [O1.balls] in Hb.
    apply list_elem_of_fmap in Hb as (b0 & -> & Hb0). cbn [O1.x O1.y].
    destruct (Hin b0 Hb0) as [Hx Hy].
    assert (Hkw : 1 <= w / cw).
    { apply (Rmult_le_reg_r cw); [lra|]. unfold Rdiv.
      rewrite Rmult_assoc, Rinv_l by lra. lra. }
    assert (Hkh : 1 <= h / ch).
    { apply (Rmult_le_reg_r ch); [lra|]. unfold Rdiv.
      rewrite Rmult_assoc, Rinv_l by lra. lra. }
    assert (Ew : w / cw * cw = w) by (field; lra).
    assert (Eh : h / ch * ch = h) by (field; lra).
    split; split; nra.
Qed.

(** The theorem for one ball in the top left corner of a window
    enlarged from 800 by 600 to 1024 by 768. *)
Lemma resize_rescales_balls_witness :
  ∃ s', O1.on_resize (O1.mkSim 800 600 [O1.mkBall 8 8 1 1]) 1024 768 = Some s' ∧
        O1.on_resize s' 800 600 = Some (O1.mkSim 800 600 [O1.mkBall 8 8 1 1]).
Proof.
  destruct (resize_rescales_balls (O1.mkSim 800 600 [O1.mkBall 8 8 1 1]) 1024 768)
    as (s' & Hs' & Hback & _).
  - simpl. unfold O1.BALL_RADIUS. lra.
  - simpl. unfold O1.BALL_RADIUS. lra.
  - unfold O1.BALL_RADIUS. lra.
  - unfold O1.BALL_RADIUS. lra.
  - by exists s'.
Defined.

(** ** The shape of the smoothing kernels *)



(** ** The forces of [main-R1.py] between pairs *)

Lemma sumR_plus {A : Type} (f g : A → R) (l : list A) :
  sumR (λ a, f a + g a) l = sumR f l + sumR g l.
Proof. induction l as [|a l IH]; simpl; [lra | rewrite IH; lra]. Qed.

Lemma sumR_map {A B : Type} (f : B → R) (k : A → B) (l : list A) :
  sumR f (map k l) = sumR (λ a, f (k a)) l.
Proof. induction l as [|a l IH]; simpl; [done | by rewrite IH]. Qed.

Lemma sumR_omap {A B : Type} (f : B → R) (k : A → option B) (l : list A) :
  sumR f (omap k l) = sumR (λ a, from_option f 0 (k a)) l.
Proof.
  unfold sumR. induction l as [|a l IH]; [done|].
  cbn. destruct (k a); cbn; rewrite IH; lra.
Qed.

(** A double sum of terms that change sign when the two indices are
    swapped is zero. *)
Lemma sumR_antisymmetric {A : Type} (ψ : A → A → R) (l : list A) :
  (∀ a b, a ∈ l → b ∈ l → ψ a b = - ψ b a) →
  sumR (λ a, sumR (ψ a) l) l = 0.
Proof.
  induction l as [|c l IH]; intros Hanti; simpl; [done|].
  rewrite sumR_plus, IH by (intros a b Ha Hb; apply Hanti; by right).
  pose proof (Hanti c c ltac:(left) ltac:(left)) as Hcc.
  assert (Hcross : sumR (ψ c) l + sumR (λ a, ψ a c) l = 0).
  { rewrite <- sumR_plus. apply sumR_zero. intros a Ha.
    rewrite (Hanti c a) by (left || by right). lra. }
  lra.
Qed.

Lemma enumerate_from_snd {A : Type} (k : nat) (l : list A) :
  map snd (enumerate_from k l) = l.
Proof.
  revert k. induction l as [|a l IH]; intros k; [done|].
  rewrite enumerate_from_cons. simpl. by rewrite IH.
Qed.

Lemma imap_enumerate_from {A B : Type} (g : nat → A → B) (l : list A) :
  imap g l = map (λ ip, g ip.1 ip.2) (enumerate_from 0 l).
Proof.
  assert (Hgen : ∀ k, imap (λ i, g (k + i)%nat) l = map (λ ip, g ip.1 ip.2) (enumerate_from k l)).
  { induction l as [|a l IH]; intros k; [done|].
    rewrite enumerate_from_cons. simpl. rewrite Nat.add_0_r. f_equal.
    rewrite <- IH. apply imap_ext. intros i x _. simpl. f_equal. lia. }
  apply (Hgen 0%nat).
Qed.

Module R1ForceMore.
Import R1 R1NeighborFacts R1PassFacts.

(** The value of [sph_viscosity_kernel]. *)
Definition visc (r h : R) : R := default 0 (sph_viscosity_kernel r h).

Lemma sph_viscosity_kernel_value (r h : R) :
  0 < h → sph_viscosity_kernel r h = Some (visc r h).
Proof. intros Hh. unfold visc. by destruct (sph_viscosity_kernel_total r h Hh) as [v ->]. Qed.

(** The accumulators of [compute_forces] after one neighbour [pj] at the
    recorded distance [r]. *)
Definition add_pair (h : R) (p : Particle) (f : Forces) (pj : Particle) (r : R) : Forces :=
  let dir_x := (x pj - x p) / Rmax r EPSILON in
  let dir_y := (y pj - y p) / Rmax r EPSILON in
  let pressure_force := - ((pressure p + pressure pj) / 2) * spiky r h in
  let viscosity := VISCOSITY_STRENGTH * visc r h in
  let cohesion := poly6 r h * SURFACE_TENSION in
  mkForces (pressure_force_x f + pressure_force * dir_x)
           (pressure_force_y f + pressure_force * dir_y)
           (viscosity_force_x f + viscosity * (vx pj - vx p))
           (viscosity_force_y f + viscosity * (vy pj - vy p))
           (tension_force_x f + cohesion * dir_x)
           (tension_force_y f + cohesion * dir_y).

Lemma force_neighbor_R1_value (h : R) (l : list Particle) (p : Particle) (f : Forces)
    (j : nat) (r : R) (pj : Particle) :
  0 < h → l !! j = Some pj → force_neighbor h l p f (j, r) = Some (add_pair h p f pj r).
Proof.
  intros Hh Hj. unfold force_neighbor. rewrite Hj. simpl.
  rewrite !(checked_div_Some _ (Rmax r EPSILON)) by apply Rmax_EPSILON_nonzero. simpl.
  rewrite checked_div_Some by lra. simpl.
  rewrite sph_kernel_derivative_total by done. simpl.
  rewrite sph_viscosity_kernel_value by done. simpl.
  rewrite sph_kernel_total by done. done.
Qed.

Lemma add_pair_strip (h : R) (p : Particle) (f : Forces) (pj pj' : Particle) (r : R) :
  strip pj = strip pj' → add_pair h p f pj r = add_pair h p f pj' r.
Proof.
  intros Hs. unfold strip, set_a in Hs. injection Hs as Hx Hy Hvx Hvy _ _ _ Hpr.
  unfold add_pair. by rewrite Hx, Hy, Hvx, Hvy, Hpr.
Qed.

(** The accumulators after the neighbour list [ni], read from the
    particles [ps]. *)
Definition net (h : R) (ps : list Particle) (p : Particle) (ni : list (nat * R))
    (f : Forces) : Forces :=
  foldl (λ f jr, from_option (λ pj, add_pair h p f pj jr.2) f (ps !! jr.1)) f ni.

Lemma force_fold_net (h : R) (l ps : list Particle) (p : Particle) (ni : list (nat * R))
    (f : Forces) :
  0 < h → strip <$> l = strip <$> ps → (∀ jr, jr ∈ ni → (jr.1 < length ps)%nat) →
  foldM (force_neighbor h l p) f ni = Some (net h ps p ni f).
Proof.
  intros Hh Hl.
  assert (Hll : length l = length ps)
    by (by rewrite <- (length_fmap strip l), Hl, length_fmap).
  revert f. induction ni as [|[j r] ni IH]; intros f Hval; [done|].
  destruct (lookup_lt_is_Some_2 l j) as [pj' Hpj'];
    [rewrite Hll; apply (Hval (j, r)); left|].
  destruct (strip_R1_lookup l ps j pj' Hl Hpj') as (pj & Hpj & Hs).
  cbn [foldM]. rewrite (force_neighbor_R1_value h l p f j r pj' Hh Hpj').
  cbn [mbind option_bind]. unfold net. cbn [foldl fst snd]. rewrite Hpj.
  cbn [from_option]. rewrite <- (add_pair_strip h p f pj' pj r Hs).
  apply IH. intros jr Hjr. apply Hval. by right.
Qed.

(** The particle of index [i] after [compute_forces]. *)
Definition forced (h : R) (ps : list Particle) (nb : list (list (nat * R)))
    (i : nat) (p : Particle) : Particle :=
  let f := net h ps p (default [] (nb !! i)) (mkForces 0.0 0.0 0.0 0.0 0.0 0.0) in
  set_a p
    (ax p + pressure_force_x f / mass p + viscosity_force_x f / mass p
       + tension_force_x f / mass p)
    (ay p + pressure_force_y f / mass p + viscosity_force_y f / mass p
       + tension_force_y f / mass p).

Lemma compute_forces_imap (ps : list Particle) (nb : list (list (nat * R))) (h : R) :
  0 < h → valid_neighbors (length ps) nb → (∀ p, p ∈ ps → mass p ≠ 0) →
  compute_forces ps nb h = Some (imap (forced h ps nb) ps).
Proof.
  intros Hh Hval Hmass. unfold compute_forces. apply foldM_inplace_imap.
  intros k p Hk. pose proof (lookup_lt_Some _ _ _ Hk) as Hklen.
  unfold force_body.
  rewrite partly_imapped_lookup, decide_False by lia. rewrite Hk. cbn [mbind option_bind].
  destruct (Hval k Hklen) as (nk & Hnk & Hnkval). rewrite Hnk. cbn [mbind option_bind].
  rewrite (force_fold_net h _ ps p nk _ Hh); [| |done].
  - cbn [mbind option_bind].
    assert (Hm : mass p ≠ 0) by (apply Hmass; by eapply list_elem_of_lookup_2).
    rewrite (apply_force_Some p) by done. cbn [mbind option_bind].
    rewrite apply_force_Some by done. cbn [mbind option_bind].
    rewrite apply_force_Some by done. cbn [mbind option_bind].
    unfold forced. rewrite Hnk. done.
  - apply list_eq. intros j. rewrite !list_lookup_fmap, partly_imapped_lookup.
    destruct (decide (j < k)%nat); [|done]. by destruct (ps !! j).
Qed.

(** The force along one axis that [pj] at the recorded distance [r]
    exerts on [p]: pressure, viscosity and surface tension. *)
Definition phi (c vc : Particle → R) (h : R) (p pj : Particle) (r : R) : R :=
  - ((pressure p + pressure pj) / 2) * spiky r h * ((c pj - c p) / Rmax r EPSILON)
  + VISCOSITY_STRENGTH * visc r h * (vc pj - vc p)
  + poly6 r h * SURFACE_TENSION * ((c pj - c p) / Rmax r EPSILON).

(** The pair forces are equal and opposite. *)
Lemma phi_antisymmetric (c vc : Particle → R) (h : R) (p pj : Particle) (r : R) :
  phi c vc h p pj r = - phi c vc h pj p r.
Proof. unfold phi, Rdiv. ring. Qed.

Definition totx (f : Forces) : R :=
  pressure_force_x f + viscosity_force_x f + tension_force_x f.
Definition toty (f : Forces) : R :=
  pressure_force_y f + viscosity_force_y f + tension_force_y f.

Lemma net_tot (c vc : Particle → R) (tot : Forces → R) (h : R) (ps : list Particle)
    (p : Particle) (ni : list (nat * R)) (f : Forces) :
  (∀ f pj r, tot (add_pair h p f pj r) = tot f + phi c vc h p pj r) →
  tot (net h ps p ni f)
  = tot f + sumR (λ jr, from_option (λ pj, phi c vc h p pj jr.2) 0 (ps !! jr.1)) ni.
Proof.
  intros Htot. revert f. unfold net.
  induction ni as [|[j r] ni IH]; intros f; simpl; [lra|].
  rewrite IH. destruct (ps !! j) as [pj|]; simpl; [rewrite Htot|]; lra.
Qed.

(** The force along one axis between two enumerated particles, zero
    unless they are distinct and closer than [h]. *)
Definition pair_term (c vc : Particle → R) (h : R) (a b : nat * Particle) : R :=
  if decide (b.1 = a.1) then 0
  else if Rlt_dec (dist a.2 b.2) h then phi c vc h a.2 b.2 (dist a.2 b.2) else 0.

Lemma pair_term_antisymmetric (c vc : Particle → R) (h : R) (a b : nat * Particle) :
  pair_term c vc h a b = - pair_term c vc h b a.
Proof.
  unfold pair_term. rewrite (dist_sym b.2 a.2).
  destruct (decide (b.1 = a.1)) as [Heq|Hne].
  - rewrite decide_True by done. lra.
  - rewrite decide_False by done.
    destruct (Rlt_dec (dist a.2 b.2) h); [apply phi_antisymmetric | lra].
Qed.

(** The net force on an enumerated particle is the sum of its pair
    terms over all the particles. *)
Lemma net_pair_terms (c vc : Particle → R) (tot : Forces → R) (h : R) (ps : list Particle)
    (i : nat) (p : Particle) (f : Forces) :
  (∀ f pj r, tot (add_pair h p f pj r) = tot f + phi c vc h p pj r) →
  tot (net h ps p (within h i p (enumerate_from 0 ps)) f)
  = tot f + sumR (pair_term c vc h (i, p)) (enumerate_from 0 ps).
Proof.
  intros Htot. rewrite (net_tot c vc tot) by done. f_equal.
  unfold within. rewrite sumR_omap. apply sumR_ext.
  intros [j pj] [_ Hj]%elem_of_enumerate_from. rewrite Nat.sub_0_r in Hj.
  unfold pair_term, near. cbn [fst snd].
  destruct (decide (j = i)); [done|].
  destruct (Rlt_dec (dist p pj) h); [|done]. simpl. by rewrite Hj.
Qed.

(** Along one axis [compute_forces] adds no net force: the mass-weighted
    sum of the acceleration component is kept. *)
Lemma forced_sum (c vc acc : Particle → R) (tot : Forces → R) (h : R) (ps : list Particle) :
  (∀ p, p ∈ ps → mass p ≠ 0) →
  (∀ p f pj r, tot (add_pair h p f pj r) = tot f + phi c vc h p pj r) →
  tot (mkForces 0.0 0.0 0.0 0.0 0.0 0.0) = 0 →
  (∀ i p, mass p ≠ 0 →
     mass (forced h ps (find_neighbors ps h) i p)
       * acc (forced h ps (find_neighbors ps h) i p)
     = mass p * acc p
       + tot (net h ps p (default [] (find_neighbors ps h !! i))
                (mkForces 0.0 0.0 0.0 0.0 0.0 0.0))) →
  sumR (λ p, mass p * acc p) (imap (forced h ps (find_neighbors ps h)) ps)
  = sumR (λ p, mass p * acc p) ps.
Proof.
  intros Hmass Htot H0 Hacc.
  rewrite imap_enumerate_from, sumR_map.
  transitivity (sumR (λ ip : nat * Particle,
                        mass ip.2 * acc ip.2
                        + sumR (pair_term c vc h ip) (enumerate_from 0 ps))
                     (enumerate_from 0 ps)).
  - apply sumR_ext. intros [i p] [_ Hp]%elem_of_enumerate_from.
    rewrite Nat.sub_0_r in Hp. cbn [fst snd].
    rewrite Hacc by (apply Hmass; by eapply list_elem_of_lookup_2).
    rewrite (find_neighbors_lookup ps h i p Hp). cbn [from_option id].
    rewrite (net_pair_terms c vc tot h ps i p _ (Htot p)), H0. lra.
  - rewrite sumR_plus, sumR_antisymmetric
      by (intros a b _ _; apply pair_term_antisymmetric).
    rewrite <- (sumR_map (λ p, mass p * acc p) snd), enumerate_from_snd. lra.
Qed.

End R1ForceMore.

(** X18. [compute_forces] on the neighbour lists of [find_neighbors]
    exerts no net force: the pressure, viscosity and surface-tension
    forces between two particles are equal and opposite, so on particles
    of positive mass the pass never fails, changes nothing but the
    accelerations, and keeps the sums of [mass * ax] and [mass * ay] over
    all the particles. *)
Theorem compute_forces_no_net_force (ps : list R1.Particle) (h : R) :
  0 < h → (∀ p, p ∈ ps → 0 < R1.mass p) →
  ∃ ps', R1.compute_forces ps (R1.find_neighbors ps h) h = Some ps' ∧
    length ps' = length ps ∧
    (∀ i p', ps' !! i = Some p' →
       ∃ p, ps !! i = Some p ∧ R1.set_a p' 0 0 = R1.set_a p 0 0) ∧
    sumR (λ p, R1.mass p * R1.ax p) ps' = sumR (λ p, R1.mass p * R1.ax p) ps ∧
    sumR (λ p, R1.mass p * R1.ay p) ps' = sumR (λ p, R1.mass p * R1.ay p) ps.
Proof.
  intros Hh Hmass.
  assert (Hnz : ∀ p, p ∈ ps → R1.mass p ≠ 0).
  { intros p Hp. pose proof (Hmass p Hp). lra. }
  pose proof (R1PassFacts.find_neighbors_valid ps h) as Hval.
  rewrite (R1ForceMore.compute_forces_imap ps _ h Hh Hval Hnz).
  eexists. split; [done|]. split; [by rewrite length_imap|]. split; [|split].
  - intros i p' Hp'. rewrite list_lookup_imap in Hp'.
    destruct (ps !! i) as [p|]; [|done]. simpl in Hp'. injection Hp' as <-.
    by exists p.
  - apply (R1ForceMore.forced_sum R1.x R1.vx R1.ax R1ForceMore.totx); try done.
    + intros p f pj r. unfold R1ForceMore.totx, R1ForceMore.add_pair, R1ForceMore.phi.
      simpl. ring.
    + unfold R1ForceMore.totx. simpl. lra.
    + intros i p Hm. unfold R1ForceMore.forced, R1ForceMore.totx. simpl. field. done.
  - apply (R1ForceMore.forced_sum R1.y R1.vy R1.ay R1ForceMore.toty); try done.
    + intros p f pj r. unfold R1ForceMore.toty, R1ForceMore.add_pair, R1ForceMore.phi.
      simpl. ring.
    + unfold R1ForceMore.toty. simpl. lra.
    + intros i p Hm. unfold R1ForceMore.forced, R1ForceMore.toty. simpl. field. done.
Qed.

(** The theorem for two particles 10 apart, with smoothing radius 30. *)
Lemma compute_forces_no_net_force_witness :
  ∃ ps', R1.compute_forces [R1.Particle_init 100 100; R1.Particle_init 110 100]
           (R1.find_neighbors [R1.Particle_init 100 100; R1.Particle_init 110 100] 30) 30
         = Some ps' ∧ length ps' = 2%nat.
Proof.
  destruct (compute_forces_no_net_force
              [R1.Particle_init 100 100; R1.Particle_init 110 100] 30)
    as (ps' & Hps' & Hlen & _).
  - lra.
  - intros p Hp. repeat (apply elem_of_cons in Hp as [->|Hp]; [simpl; lra|]).
    by apply elem_of_nil in Hp.
  - by exists ps'.
Defined.

(** ** A particle of [combined.py] with no neighbour in range *)

(** A loop over [range(n)] with an invariant that knows how many
    iterations are done. *)
Lemma foldM_seq_invariant {B : Type} (f : B → nat → option B) (I : nat → B → Prop)
    (n : nat) (b : B) :
  I 0%nat b →
  (∀ k b, (k < n)%nat → I k b → ∃ b', f b k = Some b' ∧ I (S k) b') →
  ∃ b', foldM f b (seq 0 n) = Some b' ∧ I n b'.
Proof.
  intros H0 Hstep.
  assert (Hgen : ∀ m k b, (k + m = n)%nat → I k b →
            ∃ b', foldM f b (seq k m) = Some b' ∧ I n b').
  { induction m as [|m IH]; intros k b0 Hkm Hb0; simpl.
    - exists b0. split; [done|]. by replace n with k by lia.
    - destruct (Hstep k b0) as (b1 & Hf & Hb1); [lia | done |].
      rewrite Hf. simpl. apply IH; [lia | done]. }
  by apply (Hgen n 0%nat b).
Qed.

Module CombinedLoneMore.
Import Combined GridFacts NeighborFacts DensityFacts ForceFacts.

(** Every other particle is at the same place or out of range. *)
Definition lone (ps : list Particle) (i : nat) (p : Particle) : Prop :=
  ∀ j q, ps !! j = Some q → j ≠ i →
    norm (vsub (pos q) (pos p)) = 0 ∨ SMOOTHING_RADIUS <= norm (vsub (pos q) (pos p)).

(** Gravity and the friction on the velocity. *)
Definition drifting (p : Particle) : vec2 :=
  V2 (- 0.1 * c0 (vel p)) (980 - 0.1 * c1 (vel p)).

Lemma force_neighbor_lone (i : nat) (p : Particle) (j : nat) (n : Particle) :
  density n ≠ 0 →
  (j = i ∨ norm (vsub (pos n) (pos p)) = 0 ∨
   SMOOTHING_RADIUS <= norm (vsub (pos n) (pos p))) →
  force_neighbor i p (vzero, vzero) (j, n) = Some (vzero, vzero).
Proof.
  intros Hd Hfar. unfold force_neighbor.
  destruct (decide (j = i)) as [|Hji]; [done|].
  destruct (decide (norm (vsub (pos n) (pos p)) = 0)) as [|Hr]; [done|].
  destruct Hfar as [|[|Hfar]]; [done | done |].
  rewrite (vdiv_Some _ _ Hr). cbn [mbind option_bind].
  rewrite (vdiv_Some _ (2 * density n)) by lra. cbn [mbind option_bind].
  unfold spiky_gradient, viscosity_laplacian.
  destruct (Rlt_dec _ SMOOTHING_RADIUS) as [Hlt|_]; [lra|].
  cbn [mbind option_bind]. rewrite (vdiv_Some _ _ Hd). cbn [mbind option_bind].
  unfold vadd, vscale, vzero. cbn [c0 c1]. do 2 f_equal; f_equal; lra.
Qed.

Lemma force_fold_lone (i : nat) (p : Particle) (ns : list (nat * Particle)) :
  Forall (λ jn, density jn.2 ≠ 0 ∧
                (jn.1 = i ∨ norm (vsub (pos jn.2) (pos p)) = 0 ∨
                 SMOOTHING_RADIUS <= norm (vsub (pos jn.2) (pos p)))) ns →
  foldM (force_neighbor i p) (vzero, vzero) ns = Some (vzero, vzero).
Proof.
  induction 1 as [|[j n] ns [Hd Hfar] _ IH]; [done|].
  cbn [foldM]. cbn [fst snd] in Hd, Hfar.
  rewrite (force_neighbor_lone i p j n Hd Hfar). apply IH.
Qed.

Section body.
Context (sg : SpatialGrid) (ps ps1 l : list Particle).
Hypothesis Hg : grid_of sg ps.
Hypothesis Hlen : length ps1 = length ps.
Hypothesis Hdens : ∀ x, x ∈ ps1 → density x ≠ 0.
Hypothesis Hl : strip <$> l = strip <$> ps1.

Lemma strip_density_nonzero (j : nat) (n : Particle) : l !! j = Some n → density n ≠ 0.
Proof.
  intros Hn. destruct (strip_lookup l ps1 j n Hl Hn) as (y & Hy & Hs).
  assert (density n = density y) as -> by (by injection Hs).
  apply Hdens. by eapply list_elem_of_lookup_2.
Qed.

(** One iteration of the force loop replaces the acceleration of the
    particle it visits. *)
Lemma force_body_insert (k : nat) :
  (k < length ps1)%nat →
  ∃ q a, l !! k = Some q ∧ force_body sg l k = Some (<[k := set_acc q a]> l).
Proof.
  intros Hk.
  assert (Hll : length l = length ps1)
    by (by rewrite <- (length_fmap strip l), Hl, length_fmap).
  unfold force_body.
  destruct (lookup_lt_is_Some_2 l k) as [q Hq]; [lia|]. rewrite Hq. cbn [mbind option_bind].
  destruct (get_neighbors_cells sg ps (pos q) Hg) as (ids & Hget & _ & _).
  rewrite Hget. cbn [mbind option_bind].
  destruct (mapM_lookup_pairs l ids) as (ns & Hns & Hall).
  { intros j Hj. rewrite Hll, Hlen. by eapply get_neighbors_valid. }
  rewrite Hns. cbn [mbind option_bind].
  destruct (force_fold_total k q ns (vzero, vzero)) as [forces ->].
  { eapply Forall_impl; [exact Hall|]. intros [j n]. simpl. apply strip_density_nonzero. }
  cbn [mbind option_bind]. rewrite vdiv_Some by (by eapply strip_density_nonzero).
  cbn [mbind option_bind]. by eexists q, _.
Qed.

(** For a lone particle the new acceleration is gravity and friction. *)
Lemma force_body_lone (i : nat) (p : Particle) :
  pos <$> ps1 = pos <$> ps →
  ps !! i = Some p → lone ps i p →
  ∃ q, l !! i = Some q ∧ force_body sg l i = Some (<[i := set_acc q (drifting q)]> l).
Proof.
  intros Hpos Hp Hlone.
  assert (Hll : length l = length ps1)
    by (by rewrite <- (length_fmap strip l), Hl, length_fmap).
  assert (Hposl : ∀ j n, l !! j = Some n → ∃ y, ps !! j = Some y ∧ pos n = pos y).
  { intros j n Hn. destruct (strip_lookup l ps1 j n Hl Hn) as (y1 & Hy1 & Hs).
    assert (H : (pos <$> ps) !! j = Some (pos y1))
      by (by rewrite <- Hpos, list_lookup_fmap, Hy1).
    rewrite list_lookup_fmap in H. destruct (ps !! j) as [y|]; [|done].
    exists y. split; [done|]. simpl in H. injection H as H.
    assert (pos n = pos y1) as -> by (by injection Hs). done. }
  unfold force_body.
  destruct (lookup_lt_is_Some_2 l i) as [q Hq];
    [rewrite Hll, Hlen; by eapply lookup_lt_Some|].
  exists q. split; [done|]. rewrite Hq. cbn [mbind option_bind].
  destruct (Hposl i q Hq) as (p' & Hp' & Hqp). rewrite Hp in Hp'. injection Hp' as <-.
  destruct (get_neighbors_cells sg ps (pos q) Hg) as (ids & Hget & _ & _).
  rewrite Hget. cbn [mbind option_bind].
  destruct (mapM_lookup_pairs l ids) as (ns & Hns & Hall).
  { intros j Hj. rewrite Hll, Hlen. by eapply get_neighbors_valid. }
  rewrite Hns. cbn [mbind option_bind].
  rewrite force_fold_lone.
  - cbn [mbind option_bind fst snd].
    pose proof (strip_density_nonzero i q Hq) as Hd.
    rewrite (vdiv_Some _ _ Hd). cbn [mbind option_bind]. do 3 f_equal.
    unfold drifting, vadd, vscale, scalev, vzero, GRAVITY. cbn [c0 c1].
    f_equal; apply (Rmult_eq_reg_r (density q)); try done;
      unfold Rdiv; rewrite Rmult_assoc, Rinv_l by done; lra.
  - eapply Forall_impl; [exact Hall|]. intros [j n] Hn. cbn [fst snd] in *.
    split; [by eapply strip_density_nonzero|].
    destruct (decide (j = i)) as [|Hji]; [by left|]. right.
    destruct (Hposl j n Hn) as (y & Hy & ->). rewrite Hqp. by eapply Hlone.
Qed.

End body.

Lemma force_pass_lone (sg : SpatialGrid) (ps ps1 : list Particle) (i : nat) (p : Particle) :
  grid_of sg ps → length ps1 = length ps → (∀ x, x ∈ ps1 → density x ≠ 0) →
  pos <$> ps1 = pos <$> ps → ps !! i = Some p → lone ps i p →
  ∃ ps2, force_pass sg ps1 = Some ps2 ∧ strip <$> ps2 = strip <$> ps1 ∧
    ∃ q, ps2 !! i = Some q ∧ acc q = drifting q.
Proof.
  intros Hg Hlen Hdens Hpos Hp Hlone. unfold force_pass.
  destruct (foldM_seq_invariant (force_body sg)
              (λ k l, strip <$> l = strip <$> ps1 ∧
                      ((i < k)%nat → ∃ q, l !! i = Some q ∧ acc q = drifting q))
              (length ps1) ps1) as (ps2 & Hps2 & Hs & Hq).
  - split; [done | lia].
  - intros k l Hk [Hl Hdone].
    destruct (decide (k = i)) as [->|Hki].
    + destruct (force_body_lone sg ps ps1 l Hg Hlen Hdens Hl i p Hpos Hp Hlone)
        as (q & Hq & ->).
      eexists. split; [done|]. split.
      * rewrite list_fmap_insert, strip_set_acc. rewrite list_insert_id; [done|].
        by rewrite list_lookup_fmap, Hq.
      * intros _. eexists. split; [apply list_lookup_insert_eq; by eapply lookup_lt_Some|].
        done.
    + destruct (force_body_insert sg ps ps1 l Hg Hlen Hdens Hl k Hk) as (q & a & Hq & ->).
      eexists. split; [done|]. split.
      * rewrite list_fmap_insert, strip_set_acc. rewrite list_insert_id; [done|].
        by rewrite list_lookup_fmap, Hq.
      * intros Hlt. rewrite list_lookup_insert_ne by done. apply Hdone. lia.
  - exists ps2. split; [done|]. split; [done|]. apply Hq.
    rewrite Hlen. by eapply lookup_lt_Some.
Qed.

End CombinedLoneMore.

(** X19. In [combined.py], a particle whose every other particle is
    either at exactly the same place or at least the smoothing radius
    away leaves [update_physics] with its position and velocity
    unchanged and the acceleration [GRAVITY - 0.1 * vel]: no pressure or
    viscosity acts on it.  In particular particles at the same place
    never push each other apart. *)
Theorem lone_particle_acceleration (s : Combined.FluidSimulation) (i : nat)
    (p : Combined.Particle) :
  Combined.cell_size (Combined.sgrid s) ≠ 0 →
  Combined.particles s !! i = Some p →
  (∀ j q, Combined.particles s !! j = Some q → j ≠ i →
     norm (vsub (Combined.pos q) (Combined.pos p)) = 0 ∨
     Combined.SMOOTHING_RADIUS <= norm (vsub (Combined.pos q) (Combined.pos p))) →
  ∃ s' p', Combined.update_physics s = Some s' ∧
    Combined.particles s' !! i = Some p' ∧
    Combined.pos p' = Combined.pos p ∧ Combined.vel p' = Combined.vel p ∧
    Combined.acc p'
    = V2 (- 0.1 * c0 (Combined.vel p)) (c1 Combined.GRAVITY - 0.1 * c1 (Combined.vel p)).
Proof.
  intros Hcs Hp Hlone. unfold Combined.update_physics.
  destruct (NeighborFacts.update_grid_of (Combined.sgrid s) (Combined.particles s) Hcs)
    as (sg & -> & Hsz & Hg).
  cbn [mbind option_bind].
  rewrite (DensityFacts.density_pass_map sg (Combined.particles s) Hg).
  cbn [mbind option_bind].
  set (ps := Combined.particles s) in *.
  set (ps1 := map (DensityFacts.with_density sg ps) ps).
  destruct (CombinedLoneMore.force_pass_lone sg ps ps1 i p Hg)
    as (ps2 & -> & Hs & q & Hq & Hacc); try done.
  - unfold ps1. by rewrite length_map.
  - intros x Hx. apply list_elem_of_fmap in Hx as (y & -> & Hy).
    apply list_elem_of_lookup in Hy as [k Hk].
    pose proof (DensityFacts.density_of_pos sg ps k y Hg Hk). simpl. lra.
  - unfold ps1. change (map ?f ?l) with (f <$> l). rewrite <- list_fmap_compose.
    by apply list_fmap_ext.
  - cbn [mbind option_bind]. exists (Combined.mkSim (Combined.width s) (Combined.height s) ps2 sg), q.
    split; [done|]. split; [done|].
    destruct (ForceFacts.strip_lookup ps2 ps1 i q Hs Hq) as (y & Hy & Hsq).
    unfold ps1 in Hy. change (map ?f ?l) with (f <$> l) in Hy.
    rewrite list_lookup_fmap, Hp in Hy. simpl in Hy. injection Hy as <-.
    assert (Hpq : Combined.pos q = Combined.pos p) by (by injection Hsq).
    assert (Hvq : Combined.vel q = Combined.vel p) by (by injection Hsq).
    split; [done|]. split; [done|].
    rewrite Hacc. unfold CombinedLoneMore.drifting. rewrite Hvq.
    unfold Combined.GRAVITY. cbn [c1]. f_equal. lra.
Qed.

(** The theorem for a single particle moving to the right. *)
Lemma lone_particle_acceleration_witness :
  ∃ s' p',
    Combined.update_physics
      (Combined.mkSim 800 600 [Combined.mkParticle (V2 100 100) (V2 10 0) vzero 300 0]
         (Combined.mkGrid 30 ∅)) = Some s' ∧
    Combined.particles s' !! 0%nat = Some p' ∧
    Combined.acc p' = V2 (- 0.1 * 10) (c1 Combined.GRAVITY - 0.1 * 0).
Proof.
  destruct (lone_particle_acceleration
              (Combined.mkSim 800 600
                 [Combined.mkParticle (V2 100 100) (V2 10 0) vzero 300 0]
                 (Combined.mkGrid 30 ∅)) 0
              (Combined.mkParticle (V2 100 100) (V2 10 0) vzero 300 0))
    as (s' & p' & Hs' & Hp' & _ & _ & Hacc).
  - simpl. lra.
  - done.
  - intros [|j] q Hq Hj; [done|]. by destruct j.
  - by exists s', p'.
Defined.
